(** * FastReader (RSVP): tokenizer, pacing engine, PDF loader and scheduler

    A shallow embedding of the parts of [app.js] and of the PDF loader
    module ([class PdfLoader]) that the specification talks about, and the
    properties of the specification checked against them; then the code
    around these parts (the controls, the text of a page, loading the
    pages in sequence and in the background) with properties read off
    the code.

    Conventions of the embedding.
    - A JavaScript string is a list of code points (the regular expressions
      of the tokenizer carry the [u] flag and therefore work on code points).
    - The Unicode property tables behind [\p{L}], [\p{N}] and [\s] live in
      the JavaScript engine, not in the repository.  They are taken as a
      parameter ([UnicodeTables]); the few facts about them that proofs use
      are collected in [UnicodeLaws].  [ascii_tables] is the restriction of
      the real tables to code points below 128.
    - JavaScript numbers are modelled by exact rationals ([Q]) where the
      code divides or multiplies by a fractional constant, and by integers
      ([Z]) where only integers can occur.  [NaN] and the infinities are
      outside the model: [Controls.loadNum] takes [None] for a stored
      value that is not finite, and the handlers are modelled for the
      numbers they are given.
    - Asynchronous code is cut at its suspension points ([await], timers,
      promise callbacks): each piece that runs without interruption is one
      function on the state, and [Interleaving.step] interleaves the pieces. *)

From Stdlib Require Import ZArith QArith Qround String Ascii List Lia Bool.
From stdpp Require Import gmap strings list sorting.
Import ListNotations.
Open Scope Z_scope.
Set Warnings "-clear-no-such-hyp".

(* ================================================================== *)
(** * JavaScript strings *)
(* ================================================================== *)

Module JS.

Definition char := N.
Definition jsstring := list char.

(** String literals of the source, as code points. *)
Definition js (s : string) : jsstring :=
  map N_of_ascii (list_ascii_of_string s).

Definition LF : char := 10%N.
Definition CR : char := 13%N.
Definition SPACE : char := 32%N.
Definition APOS : char := 39%N.
Definition DOT : char := 46%N.

(** [s.length] counts UTF-16 code units: two for a code point above the
    basic plane. *)
Definition utf16_length (s : jsstring) : Z :=
  fold_right (fun c n => (if (65535 <? c)%N then 2 else 1) + n) 0 s.

Fixpoint take_while (p : char -> bool) (s : jsstring) : jsstring :=
  match s with
  | c :: rest => if p c then c :: take_while p rest else []
  | [] => []
  end.

Fixpoint drop_while (p : char -> bool) (s : jsstring) : jsstring :=
  match s with
  | c :: rest => if p c then drop_while p rest else s
  | [] => []
  end.

(** [strip_prefix p s]: the rest of [s] after the literal [p], if [s]
    starts with it. *)
Fixpoint strip_prefix (p s : jsstring) : option jsstring :=
  match p, s with
  | [], _ => Some s
  | a :: p', b :: s' => if N.eqb a b then strip_prefix p' s' else None
  | _ :: _, [] => None
  end.

(** Canonicalisation of the [i] flag without the [u] flag, on the
    characters the source's patterns use (h t p s w : / .): only the ASCII
    capital folds onto the ASCII small letter. *)
Definition fold_case (c : char) : char :=
  if ((65 <=? c) && (c <=? 90))%N then (c + 32)%N else c.

Fixpoint strip_prefix_ci (p s : jsstring) : option jsstring :=
  match p, s with
  | [], _ => Some s
  | a :: p', b :: s' =>
      if N.eqb (fold_case a) (fold_case b) then strip_prefix_ci p' s' else None
  | _ :: _, [] => None
  end.

Definition is_ascii_alpha (c : char) : bool :=
  (((65 <=? c) && (c <=? 90)) || ((97 <=? c) && (c <=? 122)))%N.

(** [\d] without the [u] flag: the ten ASCII digits. *)
Definition is_ascii_digit (c : char) : bool :=
  ((48 <=? c) && (c <=? 57))%N.

(** The last character of a string, for the patterns anchored by [$]. *)
Definition last_char (s : jsstring) : option char := last s.

(** [/[.!?]$/.test(word)] *)
Definition ends_sentence (word : jsstring) : bool :=
  match last_char word with
  | Some c => (N.eqb c 46 || N.eqb c 33 || N.eqb c 63)%N
  | None => false
  end.

(** [/[,;:]$/.test(word)] *)
Definition ends_comma (word : jsstring) : bool :=
  match last_char word with
  | Some c => (N.eqb c 44 || N.eqb c 59 || N.eqb c 58)%N
  | None => false
  end.

(** [/\d/.test(word)] *)
Definition has_digit (word : jsstring) : bool := existsb is_ascii_digit word.

(** The engine's tables for [\p{L}], [\p{N}] and [\s] ([\s] is also the
    set [String.prototype.trim] removes). *)
Class UnicodeTables := {
  isL : char -> bool;
  isN : char -> bool;
  isS : char -> bool
}.

Definition isLN `{UnicodeTables} (c : char) : bool := isL c || isN c.

(** Facts of the Unicode tables used by the proofs. *)
Class UnicodeLaws `{UnicodeTables} := {
  L_ascii_alpha : forall c, is_ascii_alpha c = true -> isL c = true;
  S_line_feed : isS LF = true;
  S_carriage_return : isS CR = true;
  S_not_LN : forall c, isS c = true -> isLN c = false;
  apos_not_LN : isLN APOS = false;
  apos_not_S : isS APOS = false;
  dot_not_LN : isLN DOT = false;
  dot_not_S : isS DOT = false;
  colon_not_S : isS 58%N = false;
  slash_not_S : isS 47%N = false
}.

(** The tables restricted to ASCII. *)
Definition ascii_space (c : char) : bool :=
  (((9 <=? c) && (c <=? 13)) || N.eqb c 32)%N.

#[export] Instance ascii_tables : UnicodeTables :=
  {| isL := is_ascii_alpha; isN := is_ascii_digit; isS := ascii_space |}.

End JS.
Export JS.

(* ================================================================== *)
(** * Tokenizer ([tokenize] of app.js, [tokenizePage] of the loader) *)
(* ================================================================== *)

Record Token := mkToken { word : jsstring; isParagraphEnd : bool }.

Module Tokenizer.
Section WithTables.
Context `{UnicodeTables}.

(** [.replace(/\r\n/g, '\n')] *)
Fixpoint replace_crlf (s : jsstring) : jsstring :=
  match s with
  | [] => []
  | c :: rest =>
      match rest with
      | d :: rest' =>
          if N.eqb c CR && N.eqb d LF then LF :: replace_crlf rest'
          else c :: replace_crlf rest
      | [] => [c]
      end
  end.

(** [.replace(/\r/g, '\n')] *)
Definition replace_cr (s : jsstring) : jsstring :=
  map (fun c => if N.eqb c CR then LF else c) s.

(** [.replace(/\n{2,}/g, '\n\n')]; [seen] counts the line feeds of the
    current run that were kept (at most two are). *)
Fixpoint collapse_newlines (seen : nat) (s : jsstring) : jsstring :=
  match s with
  | [] => []
  | c :: rest =>
      if N.eqb c LF then
        if (seen <? 2)%nat then LF :: collapse_newlines (S seen) rest
        else collapse_newlines seen rest
      else c :: collapse_newlines 0 rest
  end.

Definition normalize (text : jsstring) : jsstring :=
  collapse_newlines 0 (replace_cr (replace_crlf text)).

(** [.split(/\n\n+/)]; [cur] is the piece being read, [in_sep] says that
    the separator match is still consuming line feeds. *)
Fixpoint split_paragraphs_from (cur : jsstring) (in_sep : bool)
    (s : jsstring) : list jsstring :=
  match s with
  | [] => [cur]
  | c :: rest =>
      if N.eqb c LF then
        if in_sep then split_paragraphs_from cur true rest
        else
          match rest with
          | d :: rest' =>
              if N.eqb d LF then cur :: split_paragraphs_from [] true rest'
              else split_paragraphs_from (cur ++ [c]) false rest
          | [] => [cur ++ [c]]
          end
      else split_paragraphs_from (cur ++ [c]) false rest
  end.

Definition split_paragraphs (s : jsstring) : list jsstring :=
  split_paragraphs_from [] false s.

(** [String.prototype.trim] *)
Definition trim (s : jsstring) : jsstring :=
  rev (drop_while isS (rev (drop_while isS s))).

Definition non_space (c : char) : bool := negb (isS c).
Definition is_punct (c : char) : bool := negb (isLN c) && negb (isS c).

Definition starts_LN (s : jsstring) : bool :=
  match s with
  | c :: _ => isLN c
  | [] => false
  end.

(** After the literal prefix [pre], the rest of a URL alternative:
    [:\/\/[^\s]+] *)
Definition url_tail (pre : jsstring) (r : jsstring) : option jsstring :=
  match strip_prefix (js "://") r with
  | Some r' =>
      match take_while non_space r' with
      | [] => None
      | run => Some (pre ++ js "://" ++ run)
      end
  | None => None
  end.

(** First alternative, [https?:\/\/[^\s]+]: the optional [s] is tried
    first, then skipped. *)
Definition match_url (s : jsstring) : option jsstring :=
  match strip_prefix (js "http") s with
  | Some r =>
      match r with
      | c :: r' =>
          if N.eqb c 115 then
            match url_tail (js "https") r' with
            | Some m => Some m
            | None => url_tail (js "http") r
            end
          else url_tail (js "http") r
      | [] => None
      end
  | None => None
  end.

(** Second alternative, [www\.[^\s]+] *)
Definition match_www (s : jsstring) : option jsstring :=
  match strip_prefix (js "www.") s with
  | Some r =>
      match take_while non_space r with
      | [] => None
      | run => Some (js "www." ++ run)
      end
  | None => None
  end.

(** [(?:sep[\p{L}\p{N}]+)*], greedy: the longest prefix made of groups of
    one separator followed by letters or digits.  [in_run] says that the
    letters of a group are being read. *)
Fixpoint sep_groups (sep : char) (in_run : bool) (s : jsstring) : jsstring :=
  match s with
  | [] => []
  | c :: rest =>
      if in_run && isLN c then c :: sep_groups sep true rest
      else if N.eqb c sep && starts_LN rest then c :: sep_groups sep true rest
      else []
  end.

(** Third alternative,
    [[\p{L}\p{N}]+(?:[''][\p{L}\p{N}]+)*(?:\.[\p{L}\p{N}]+)*]
    (both characters of the class [['']] are U+0027). *)
Definition match_word (s : jsstring) : option jsstring :=
  match take_while isLN s with
  | [] => None
  | run =>
      let r1 := drop (length run) s in
      let g1 := sep_groups APOS false r1 in
      let r2 := drop (length g1) r1 in
      let g2 := sep_groups DOT false r2 in
      Some (run ++ g1 ++ g2)
  end.

(** Fourth alternative, [[^\p{L}\p{N}\s]+] *)
Definition match_punct (s : jsstring) : option jsstring :=
  match take_while is_punct s with
  | [] => None
  | run => Some run
  end.

(** One attempt of the whole pattern at the start of [s]: the
    alternatives in the order of the source. *)
Definition re_exec (s : jsstring) : option jsstring :=
  match match_url s with
  | Some m => Some m
  | None =>
      match match_www s with
      | Some m => Some m
      | None =>
          match match_word s with
          | Some m => Some m
          | None => match_punct s
          end
      end
  end.

(** [para.match(re) || []] with the [g] flag: all matches, left to
    right.  [skip] is the number of characters still covered by the last
    match (the engine resumes at the end of it); where nothing matches
    the engine moves one character on. *)
Fixpoint match_all (skip : nat) (s : jsstring) : list jsstring :=
  match s with
  | [] => []
  | _ :: rest =>
      match skip with
      | S k => match_all k rest
      | O =>
          match re_exec s with
          | Some m => m :: match_all (length m - 1) rest
          | None => match_all 0 rest
          end
      end
  end.

Definition str_match (para : jsstring) : list jsstring := match_all 0 para.

(** [/^https?:\/\//i.test(t)] *)
Definition test_url_ci (t : jsstring) : bool :=
  match strip_prefix_ci (js "http") t with
  | Some r =>
      match r with
      | c :: r' =>
          (N.eqb (fold_case c) 115 && bool_decide (is_Some (strip_prefix_ci (js "://") r')))
          || bool_decide (is_Some (strip_prefix_ci (js "://") r))
      | [] => false
      end
  | None => false
  end.

(** [/^www\./i.test(t)] *)
Definition test_www_ci (t : jsstring) : bool :=
  bool_decide (is_Some (strip_prefix_ci (js "www.") t)).

Definition isWordLike (t : jsstring) : bool :=
  starts_LN t || test_url_ci t || test_www_ci t.

(** [output[output.length - 1]] updated in place. *)
Fixpoint update_last (f : Token -> Token) (output : list Token) : list Token :=
  match output with
  | [] => []
  | [x] => [f x]
  | x :: rest => x :: update_last f rest
  end.

Definition append_word (t : jsstring) (x : Token) : Token :=
  {| word := word x ++ t; isParagraphEnd := isParagraphEnd x |}.

Definition mark_paragraph_end (x : Token) : Token :=
  {| word := word x; isParagraphEnd := true |}.

(** Body of the inner loop over the matches of one paragraph. *)
Definition push_token (output : list Token) (t : jsstring) : list Token :=
  if isWordLike t then output ++ [{| word := t; isParagraphEnd := false |}]
  else
    match output with
    | [] => output
    | _ => update_last (append_word t) output
    end.

(** Body of the loop over the paragraphs; [p] is the loop index and
    [n] is [paragraphs.length]. *)
Definition paragraph_step (n : nat) (output : list Token) (p : nat)
    (raw : jsstring) : list Token :=
  match trim raw with
  | [] => output
  | para =>
      let output' := fold_left push_token (str_match para) output in
      if (0 <? length output')%nat && (p + 1 <? n)%nat
      then update_last mark_paragraph_end output'
      else output'
  end.

Fixpoint paragraphs_loop (n p : nat) (paragraphs : list jsstring)
    (output : list Token) : list Token :=
  match paragraphs with
  | [] => output
  | raw :: rest =>
      paragraphs_loop n (S p) rest (paragraph_step n output p raw)
  end.

(** [PdfLoader.tokenizePage]: returns [output] as it is. *)
Definition tokenizePage (text : jsstring) : list Token :=
  let paragraphs := split_paragraphs (normalize text) in
  paragraphs_loop (length paragraphs) 0 paragraphs [].

(** [tokenize] of app.js: the same two loops, and a single blank token
    when [output] is empty. *)
Definition tokenize (text : jsstring) : list Token :=
  let paragraphs := split_paragraphs (normalize text) in
  let output := paragraphs_loop (length paragraphs) 0 paragraphs [] in
  match output with
  | [] => [{| word := [SPACE]; isParagraphEnd := false |}]
  | _ => output
  end.

End WithTables.
End Tokenizer.


(* ================================================================== *)
(** * Pacing engine ([baseIntervalMs], [dwellMsForToken] of app.js) *)
(* ================================================================== *)

Module Pacing.

Record PauseProfile := {
  name : string;
  sentence : Q;
  comma : Q;
  paragraph : Q;
  longWord : Q;
  number : Q;
  minSentenceMs : Z;
  minCommaMs : Z
}.

Definition relaxed : PauseProfile :=
  {| name := "Relaxed"; sentence := 4.0; comma := 2.0; paragraph := 4.0;
     longWord := 1.5; number := 2.0; minSentenceMs := 400; minCommaMs := 200 |}.

Definition normal : PauseProfile :=
  {| name := "Normal"; sentence := 3.0; comma := 1.5; paragraph := 3.0;
     longWord := 1.3; number := 1.5; minSentenceMs := 300; minCommaMs := 150 |}.

Definition speed : PauseProfile :=
  {| name := "Speed"; sentence := 1.5; comma := 1.2; paragraph := 1.5;
     longWord := 1.1; number := 1.2; minSentenceMs := 150; minCommaMs := 80 |}.

Definition PAUSE_PROFILES : gmap string PauseProfile :=
  <["relaxed" := relaxed]> (<["normal" := normal]> (<["speed" := speed]> ∅)).

(** The names [PAUSE_PROFILES] inherits from [Object.prototype].  For
    these [PAUSE_PROFILES[profileKey]] is the inherited function or
    object, which is truthy, so that the fallback is not taken, and
    which is no profile: its [sentence], [comma], ... are [undefined]. *)
Definition inherited_names : list string :=
  ["constructor"; "__proto__"; "hasOwnProperty"; "isPrototypeOf";
   "propertyIsEnumerable"; "toLocaleString"; "toString"; "valueOf";
   "__defineGetter__"; "__defineSetter__"; "__lookupGetter__";
   "__lookupSetter__"]%string.

(** A key of [PAUSE_PROFILES] itself, or a key that is found neither in
    it nor in its prototype. *)
Definition own_or_absent (profileKey : string) : bool :=
  negb (existsb (String.eqb profileKey) inherited_names).

(** [PAUSE_PROFILES[profileKey] || PAUSE_PROFILES.normal], for a key
    that is [own_or_absent]: the stored key is read back from
    [localStorage] as it is, and for an inherited name the lookup
    returns no profile (the statements about the profile's values
    assume [own_or_absent]). *)
Definition getActiveProfile (profileKey : string) : PauseProfile :=
  match PAUSE_PROFILES !! profileKey with
  | Some p => p
  | None => normal
  end.

(** [Math.max] and [Math.min] on fractional numbers. *)
Definition Qmax (a b : Q) : Q := if Qle_bool a b then b else a.
Definition Qmin (a b : Q) : Q := if Qle_bool a b then a else b.

(** [baseIntervalMs()], reading the global [wpm]. *)
Definition baseIntervalMs (wpm : Q) : option Z :=
  if Qle_bool wpm 0 then None
  else Some (Z.max 1 (Qfloor (60000 / wpm))).

Section WithTables.
Context `{UnicodeTables}.

(** [word.replace(/[^\p{L}\p{N}]/gu, '')] *)
Definition cleanWord (w : jsstring) : jsstring := filter (fun c => isLN c = true) w.

(** The local [multiplier] of [dwellMsForToken] when the floor is taken. *)
Definition multiplierFor (profile : PauseProfile) (token : Token) : Q :=
  let w := word token in
  let multiplier := 1.0%Q in
  let multiplier :=
    if ends_sentence w then Qmax multiplier (sentence profile)
    else if ends_comma w then Qmax multiplier (comma profile)
    else multiplier in
  let multiplier :=
    if 8 <? utf16_length (cleanWord w) then Qmax multiplier (longWord profile)
    else multiplier in
  let multiplier :=
    if has_digit w then Qmax multiplier (number profile) else multiplier in
  if isParagraphEnd token then Qmax multiplier (paragraph profile)
  else multiplier.

(** [dwellMsForToken(token)], reading the globals [wpm] and
    [profileKey]; [None] is [null]. *)
Definition dwellMsForToken (wpm : Q) (profileKey : string) (token : Token)
    : option Z :=
  match baseIntervalMs wpm with
  | None => None
  | Some base =>
      let profile := getActiveProfile profileKey in
      let w := word token in
      let dwell := Qfloor (inject_Z base * multiplierFor profile token) in
      Some (if ends_sentence w then Z.max dwell (minSentenceMs profile)
            else if ends_comma w then Z.max dwell (minCommaMs profile)
            else dwell)
  end.

End WithTables.
End Pacing.

(* ================================================================== *)
(** * PDF loader ([class PdfLoader]) *)
(* ================================================================== *)

Module Loader.

(** The value stored in [loadedPages] for a page. *)
Record PageData := {
  text : jsstring;
  words : list Token;
  loadTime : Z
}.

(** An entry of [pageWordRanges]: [{ start, end }]. *)
Record WordRange := {
  range_start : Z;
  range_end : Z
}.

(** A waiter is the [resolve] function of one promise made by
    [waitForContent]; it is identified by a number. *)
Definition Waiter := nat.

Record PdfLoader := {
  totalPages : Z;
  loadedPages : gmap Z PageData;
  loadingPages : gset Z;
  pageWordRanges : list (option WordRange);
  nextPageToLoad : Z;
  isBackgroundLoading : bool;
  allPagesLoaded : bool;
  allText : jsstring;
  allWords : list Token;
  estimatedTotalWords : Z;
  contentWaiters : list Waiter
}.

(** The loader after the constructor and [init()] found [n] pages. *)
Definition initial (n : Z) : PdfLoader :=
  {| totalPages := n;
     loadedPages := ∅;
     loadingPages := ∅;
     pageWordRanges := [];
     nextPageToLoad := 1;
     isBackgroundLoading := false;
     allPagesLoaded := false;
     allText := [];
     allWords := [];
     estimatedTotalWords := n * 250;
     contentWaiters := [] |}.

Definition with_loadedPages (m : gmap Z PageData) (st : PdfLoader) :=
  {| totalPages := totalPages st; loadedPages := m;
     loadingPages := loadingPages st; pageWordRanges := pageWordRanges st;
     nextPageToLoad := nextPageToLoad st;
     isBackgroundLoading := isBackgroundLoading st;
     allPagesLoaded := allPagesLoaded st; allText := allText st;
     allWords := allWords st; estimatedTotalWords := estimatedTotalWords st;
     contentWaiters := contentWaiters st |}.

Definition with_loadingPages (s : gset Z) (st : PdfLoader) :=
  {| totalPages := totalPages st; loadedPages := loadedPages st;
     loadingPages := s; pageWordRanges := pageWordRanges st;
     nextPageToLoad := nextPageToLoad st;
     isBackgroundLoading := isBackgroundLoading st;
     allPagesLoaded := allPagesLoaded st; allText := allText st;
     allWords := allWords st; estimatedTotalWords := estimatedTotalWords st;
     contentWaiters := contentWaiters st |}.

Definition with_nextPageToLoad (n : Z) (st : PdfLoader) :=
  {| totalPages := totalPages st; loadedPages := loadedPages st;
     loadingPages := loadingPages st; pageWordRanges := pageWordRanges st;
     nextPageToLoad := n;
     isBackgroundLoading := isBackgroundLoading st;
     allPagesLoaded := allPagesLoaded st; allText := allText st;
     allWords := allWords st; estimatedTotalWords := estimatedTotalWords st;
     contentWaiters := contentWaiters st |}.

Definition with_background (running done : bool) (st : PdfLoader) :=
  {| totalPages := totalPages st; loadedPages := loadedPages st;
     loadingPages := loadingPages st; pageWordRanges := pageWordRanges st;
     nextPageToLoad := nextPageToLoad st;
     isBackgroundLoading := running;
     allPagesLoaded := done; allText := allText st;
     allWords := allWords st; estimatedTotalWords := estimatedTotalWords st;
     contentWaiters := contentWaiters st |}.

Definition with_contentWaiters (ws : list Waiter) (st : PdfLoader) :=
  {| totalPages := totalPages st; loadedPages := loadedPages st;
     loadingPages := loadingPages st; pageWordRanges := pageWordRanges st;
     nextPageToLoad := nextPageToLoad st;
     isBackgroundLoading := isBackgroundLoading st;
     allPagesLoaded := allPagesLoaded st; allText := allText st;
     allWords := allWords st; estimatedTotalWords := estimatedTotalWords st;
     contentWaiters := ws |}.

(** ** [rebuildAggregatedContent] *)

(** [a[i] = x] on a JavaScript array: an index past the end extends the
    array with holes.  A negative [i] would only add a property and
    leave the elements alone (it does not occur: the ordinals stored in
    [loadedPages] passed the guard of [loadPage]). *)
Definition array_set {A} (a : list (option A)) (i : Z) (x : A)
    : list (option A) :=
  if i <? 0 then a
  else if i <? Z.of_nat (length a) then <[Z.to_nat i := Some x]> a
  else a ++ replicate (Z.to_nat i - length a) None ++ [Some x].

(** [a[i]]: [None] for a hole or an index outside the array. *)
Definition array_get {A} (a : list (option A)) (i : Z) : option A :=
  if i <? 0 then None else mjoin (a !! Z.to_nat i).

(** [Array.from(this.loadedPages.keys()).sort((a, b) => a - b)] *)
Definition sortedPages (pages : gmap Z PageData) : list Z :=
  merge_sort Z.le (map_to_list pages).*1.

(** The three fields the loop of [rebuildAggregatedContent] fills. *)
Record Aggregate := {
  agg_text : jsstring;
  agg_words : list Token;
  agg_ranges : list (option WordRange)
}.

(** Body of [for (const pageNum of sortedPages)]. *)
Definition rebuild_step (pages : gmap Z PageData) (acc : Aggregate)
    (pageNum : Z) : Aggregate :=
  match pages !! pageNum with
  | Some pageData =>
      let startIdx := Z.of_nat (length (agg_words acc)) in
      let allWords' := agg_words acc ++ words pageData in
      {| agg_text := agg_text acc ++ text pageData ++ [LF; LF];
         agg_words := allWords';
         agg_ranges :=
           array_set (agg_ranges acc) (pageNum - 1)
             {| range_start := startIdx;
                range_end := Z.of_nat (length allWords') - 1 |} |}
  | None => acc
  end.

Definition aggregate (pages : gmap Z PageData) : Aggregate :=
  fold_left (rebuild_step pages) (sortedPages pages)
    {| agg_text := []; agg_words := []; agg_ranges := [] |}.

(** [Math.ceil(avgWordsPerPage * this.totalPages)] with
    [avgWordsPerPage = allWords.length / sortedPages.length]. *)
Definition estimate (nwords npages : nat) (total : Z) : Z :=
  Qceiling ((inject_Z (Z.of_nat nwords) / inject_Z (Z.of_nat npages))
            * inject_Z total).

Definition rebuildAggregatedContent (st : PdfLoader) : PdfLoader :=
  let agg := aggregate (loadedPages st) in
  let n := length (sortedPages (loadedPages st)) in
  {| totalPages := totalPages st;
     loadedPages := loadedPages st;
     loadingPages := loadingPages st;
     pageWordRanges := agg_ranges agg;
     nextPageToLoad := nextPageToLoad st;
     isBackgroundLoading := isBackgroundLoading st;
     allPagesLoaded := allPagesLoaded st;
     allText := agg_text agg;
     allWords := agg_words agg;
     estimatedTotalWords :=
       if (0 <? n)%nat
       then estimate (length (agg_words agg)) n (totalPages st)
       else estimatedTotalWords st;
     contentWaiters := contentWaiters st |}.

(** ** [needsMoreContent], [waitForContent], [resolveWaiters] *)

Definition needsMoreContent (st : PdfLoader) (currentWordIndex : Z) : bool :=
  let hasMorePages := Z.of_nat (size (loadedPages st)) <? totalPages st in
  let nearEnd := Z.of_nat (length (allWords st)) - 10 <=? currentWordIndex in
  hasMorePages && nearEnd.

(** [waitForContent()] for the promise whose [resolve] is [w]: [true]
    when the promise is resolved at once, [false] when [w] is queued. *)
Definition waitForContent (st : PdfLoader) (w : Waiter) : PdfLoader * bool :=
  if (0 <? size (loadingPages st))%nat || isBackgroundLoading st
  then (with_contentWaiters (contentWaiters st ++ [w]) st, false)
  else (st, true).

(** The loop [while (contentWaiters.length > 0) { shift()(); }]:
    [called] collects the waiters in the order they are called. *)
Fixpoint drain (queue called : list Waiter) : list Waiter * list Waiter :=
  match queue with
  | [] => ([], called)
  | waiter :: rest => drain rest (called ++ [waiter])
  end.

Definition resolveWaiters (st : PdfLoader) : PdfLoader * list Waiter :=
  let (queue, called) := drain (contentWaiters st) [] in
  (with_contentWaiters queue st, called).

(** ** [loadPage] *)

(** What a call of [loadPage] does before it first suspends. *)
Inductive Entry :=
  | ReturnsNull
  | ReturnsText (t : jsstring)
  | Polls
  | Fetches.

Definition loadPage_enter (st : PdfLoader) (pageNum : Z) : PdfLoader * Entry :=
  if (pageNum <? 1) || (totalPages st <? pageNum) then (st, ReturnsNull)
  else
    match loadedPages st !! pageNum with
    | Some pageData => (st, ReturnsText (text pageData))
    | None =>
        if bool_decide (pageNum ∈ loadingPages st) then (st, Polls)
        else (with_loadingPages ({[pageNum]} ∪ loadingPages st) st, Fetches)
    end.

(** The callback of the [setInterval] of a polling caller: the text when
    the page has arrived, nothing otherwise (the interval goes on). *)
Definition poll (st : PdfLoader) (pageNum : Z) : option jsstring :=
  text <$> loadedPages st !! pageNum.

Section WithTables.
Context `{UnicodeTables}.

(** The rest of the [try] block once [getPage] and [getTextContent]
    have answered.  [pageText] is what the loop over [textContent.items]
    assembles and [elapsed] the measured load time; both come from
    PDF.js and the clock.  Returns the waiters released, in order. *)
Definition loadPage_loaded (st : PdfLoader) (pageNum : Z)
    (pageText : jsstring) (elapsed : Z) : PdfLoader * list Waiter :=
  let pageWords := Tokenizer.tokenizePage pageText in
  let st := with_loadedPages
              (<[pageNum := {| text := pageText; words := pageWords;
                               loadTime := elapsed |}]> (loadedPages st)) st in
  let st := with_loadingPages (loadingPages st ∖ {[pageNum]}) st in
  let st := rebuildAggregatedContent st in
  resolveWaiters st.

End WithTables.

(** The [catch] block of [loadPage]; the error is then thrown to the
    caller. *)
Definition loadPage_failed (st : PdfLoader) (pageNum : Z) : PdfLoader :=
  with_loadingPages (loadingPages st ∖ {[pageNum]}) st.

(** ** Background loading *)

(** [startBackgroundLoading()]: [true] when it goes on to call
    [_loadNextPageInBackground]. *)
Definition startBackgroundLoading (st : PdfLoader) : PdfLoader * bool :=
  if isBackgroundLoading st || allPagesLoaded st then (st, false)
  else (with_background true (allPagesLoaded st) st, true).

(** What [_loadNextPageInBackground] does before its [await]. *)
Inductive Cycle :=
  | CycleIdle
  | CycleComplete
  | CycleLoads (pageNum : Z).

Definition loadNextPageInBackground_enter (st : PdfLoader)
    : PdfLoader * Cycle :=
  if negb (isBackgroundLoading st) then (st, CycleIdle)
  else if totalPages st <? nextPageToLoad st
  then (with_background false true st, CycleComplete)
  else (st, CycleLoads (nextPageToLoad st)).

(** After the [await], in the [try] as in the [catch]:
    [this.nextPageToLoad++] (a timer is then set, 50 or 100 ms). *)
Definition loadNextPageInBackground_resume (st : PdfLoader) : PdfLoader :=
  with_nextPageToLoad (nextPageToLoad st + 1) st.

End Loader.

(* ================================================================== *)
(** * The loader and its callers, interleaved *)
(* ================================================================== *)

(** JavaScript runs one piece of code at a time; what interleaves are
    the calls made on the loader, the answers of PDF.js to [getPage] /
    [getTextContent], and the timers.  [World] holds the loader together
    with the calls of [loadPage] that are suspended, and [step] runs the
    piece of code each event triggers, up to its next suspension. *)
Module Interleaving.
Import Loader.

(** Who awaits a promise of [loadPage]: a caller outside the loader, or
    [_loadNextPageInBackground]. *)
Inductive Caller :=
  | External (id : nat)
  | Background.

#[export] Instance Caller_eq_dec : EqDecision Caller.
Proof. solve_decision. Defined.

(** How a promise of [loadPage] settled: with [null] or a text, or by
    the error thrown in the [catch] block. *)
Inductive Outcome :=
  | Fulfilled (value : option jsstring)
  | Thrown.

(** What can be observed from outside the loader. *)
Inductive Obs :=
  | Settled (c : Caller) (pageNum : Z) (o : Outcome)
  | FetchStarted (pageNum : Z)
  | WaitResolved (w : Waiter)
  | WaitQueued (w : Waiter)
  | WaitReleased (w : Waiter)
  | ErrorReported (pageNum : Z)
  | AllPagesLoadedSignalled.

Record World := {
  loader : PdfLoader;
  fetching : list (Z * Caller);
  polling : list (Z * Caller);
  cycleTimer : bool;
  trace : list Obs
}.

Definition start (n : Z) : World :=
  {| loader := initial n; fetching := []; polling := [];
     cycleTimer := false; trace := [] |}.

(** The last event is the assignment [pdfLoader.allPagesLoaded = true]
    that [loadAllPdfPages] of app.js makes from outside the class. *)
Inductive Event :=
  | CallLoadPage (id : nat) (pageNum : Z)
  | PageArrives (pageNum : Z) (pageText : jsstring) (elapsed : Z)
  | PageFails (pageNum : Z)
  | PollFires (c : Caller) (pageNum : Z)
  | CallWaitForContent (w : Waiter)
  | CallStartBackgroundLoading
  | CycleTimerFires
  | AllPagesLoadedSet.

(** The promise of [loadPage(pageNum)] awaited by [c] settles.  For the
    background cycle the code after its [await] runs: the counter moves
    on and the next timer is set, after a success as after an error. *)
Definition settle (w : World) (c : Caller) (pageNum : Z) (o : Outcome)
    : World :=
  let tr := trace w ++ [Settled c pageNum o] in
  match c with
  | External _ =>
      {| loader := loader w; fetching := fetching w; polling := polling w;
         cycleTimer := cycleTimer w; trace := tr |}
  | Background =>
      {| loader := loadNextPageInBackground_resume (loader w);
         fetching := fetching w; polling := polling w;
         cycleTimer := true; trace := tr |}
  end.

Definition call_loadPage (w : World) (c : Caller) (pageNum : Z) : World :=
  let (st, entry) := loadPage_enter (loader w) pageNum in
  match entry with
  | ReturnsNull => settle w c pageNum (Fulfilled None)
  | ReturnsText t => settle w c pageNum (Fulfilled (Some t))
  | Polls =>
      {| loader := st; fetching := fetching w;
         polling := polling w ++ [(pageNum, c)];
         cycleTimer := cycleTimer w; trace := trace w |}
  | Fetches =>
      {| loader := st; fetching := fetching w ++ [(pageNum, c)];
         polling := polling w; cycleTimer := cycleTimer w;
         trace := trace w ++ [FetchStarted pageNum] |}
  end.

Definition run_cycle (w : World) : World :=
  let (st, cyc) := loadNextPageInBackground_enter (loader w) in
  match cyc with
  | CycleIdle => w
  | CycleComplete =>
      {| loader := st; fetching := fetching w; polling := polling w;
         cycleTimer := cycleTimer w;
         trace := trace w ++ [AllPagesLoadedSignalled] |}
  | CycleLoads pageNum => call_loadPage w Background pageNum
  end.

(** The caller whose fetch of [pageNum] is outstanding. *)
Fixpoint fetcher (pageNum : Z) (l : list (Z * Caller)) : option Caller :=
  match l with
  | [] => None
  | (p, c) :: rest => if bool_decide (p = pageNum) then Some c else fetcher pageNum rest
  end.

Fixpoint remove_first (x : Z * Caller) (l : list (Z * Caller))
    : list (Z * Caller) :=
  match l with
  | [] => []
  | y :: rest => if bool_decide (y = x) then rest else y :: remove_first x rest
  end.

Section WithTables.
Context `{UnicodeTables}.

(** One event; [None] when the event cannot happen in [w] (an answer
    for a fetch that is not outstanding, a timer that is not set). *)
Definition step (w : World) (e : Event) : option World :=
  match e with
  | CallLoadPage id pageNum => Some (call_loadPage w (External id) pageNum)
  | PageArrives pageNum pageText elapsed =>
      match fetcher pageNum (fetching w) with
      | None => None
      | Some c =>
          let (st, released) :=
            loadPage_loaded (loader w) pageNum pageText elapsed in
          Some (settle
                  {| loader := st;
                     fetching := remove_first (pageNum, c) (fetching w);
                     polling := polling w; cycleTimer := cycleTimer w;
                     trace := trace w ++ map WaitReleased released |}
                  c pageNum (Fulfilled (Some pageText)))
      end
  | PageFails pageNum =>
      match fetcher pageNum (fetching w) with
      | None => None
      | Some c =>
          Some (settle
                  {| loader := loadPage_failed (loader w) pageNum;
                     fetching := remove_first (pageNum, c) (fetching w);
                     polling := polling w; cycleTimer := cycleTimer w;
                     trace := trace w ++ [ErrorReported pageNum] |}
                  c pageNum Thrown)
      end
  | PollFires c pageNum =>
      if bool_decide ((pageNum, c) ∈ polling w) then
        match poll (loader w) pageNum with
        | Some t =>
            Some (settle
                    {| loader := loader w; fetching := fetching w;
                       polling := remove_first (pageNum, c) (polling w);
                       cycleTimer := cycleTimer w; trace := trace w |}
                    c pageNum (Fulfilled (Some t)))
        | None => Some w
        end
      else None
  | CallWaitForContent x =>
      let (st, now) := waitForContent (loader w) x in
      Some {| loader := st; fetching := fetching w; polling := polling w;
              cycleTimer := cycleTimer w;
              trace := trace w ++ [if now then WaitResolved x else WaitQueued x] |}
  | CallStartBackgroundLoading =>
      let (st, go) := startBackgroundLoading (loader w) in
      let w' := {| loader := st; fetching := fetching w; polling := polling w;
                   cycleTimer := cycleTimer w; trace := trace w |} in
      Some (if go then run_cycle w' else w')
  | CycleTimerFires =>
      if cycleTimer w then
        Some (run_cycle
                {| loader := loader w; fetching := fetching w;
                   polling := polling w; cycleTimer := false;
                   trace := trace w |})
      else None
  | AllPagesLoadedSet =>
      Some {| loader := with_background (isBackgroundLoading (loader w))
                          true (loader w);
              fetching := fetching w; polling := polling w;
              cycleTimer := cycleTimer w; trace := trace w |}
  end.

Fixpoint run (w : World) (es : list Event) : option World :=
  match es with
  | [] => Some w
  | e :: rest =>
      match step w e with
      | Some w' => run w' rest
      | None => None
      end
  end.

End WithTables.

(** The waiters queued, and the waiters released from the queue, in the
    order of the trace. *)
Definition queued (tr : list Obs) : list Waiter :=
  omap (fun o => match o with WaitQueued x => Some x | _ => None end) tr.

Definition released (tr : list Obs) : list Waiter :=
  omap (fun o => match o with WaitReleased x => Some x | _ => None end) tr.

End Interleaving.

(* ================================================================== *)
(** * Playback scheduler (the RSVP core of app.js) *)
(* ================================================================== *)

(** The module-level variables of app.js that the scheduler reads and
    writes.  [timerId] holds the delay of the one-shot timer that is
    armed.  The calls that only repaint ([draw], [updateProgress],
    [updatePlayButton], [updateNavButtons]) are left out. *)
Module Scheduler.
Import Loader Pacing.

Record App := {
  words : list Token;
  index : Z;
  currentWord : jsstring;
  totalWords : Z;
  isPlaying : bool;
  timerId : option Z;
  wpm : Q;
  profileKey : string;
  loopEnabled : bool;
  isPdfMode : bool;
  pdfLoader : option PdfLoader;
  loadingOverlay : bool
}.

Definition with_timer (t : option Z) (a : App) : App :=
  {| words := words a; index := index a; currentWord := currentWord a;
     totalWords := totalWords a; isPlaying := isPlaying a; timerId := t;
     wpm := wpm a; profileKey := profileKey a; loopEnabled := loopEnabled a;
     isPdfMode := isPdfMode a; pdfLoader := pdfLoader a;
     loadingOverlay := loadingOverlay a |}.

Definition with_playing (v : bool) (a : App) : App :=
  {| words := words a; index := index a; currentWord := currentWord a;
     totalWords := totalWords a; isPlaying := v; timerId := timerId a;
     wpm := wpm a; profileKey := profileKey a; loopEnabled := loopEnabled a;
     isPdfMode := isPdfMode a; pdfLoader := pdfLoader a;
     loadingOverlay := loadingOverlay a |}.

Definition with_overlay (v : bool) (a : App) : App :=
  {| words := words a; index := index a; currentWord := currentWord a;
     totalWords := totalWords a; isPlaying := isPlaying a;
     timerId := timerId a;
     wpm := wpm a; profileKey := profileKey a; loopEnabled := loopEnabled a;
     isPdfMode := isPdfMode a; pdfLoader := pdfLoader a;
     loadingOverlay := v |}.

Definition with_loader (l : option PdfLoader) (a : App) : App :=
  {| words := words a; index := index a; currentWord := currentWord a;
     totalWords := totalWords a; isPlaying := isPlaying a;
     timerId := timerId a;
     wpm := wpm a; profileKey := profileKey a; loopEnabled := loopEnabled a;
     isPdfMode := isPdfMode a; pdfLoader := l;
     loadingOverlay := loadingOverlay a |}.

Definition with_words (ws : list Token) (total : Z) (a : App) : App :=
  {| words := ws; index := index a; currentWord := currentWord a;
     totalWords := total; isPlaying := isPlaying a;
     timerId := timerId a;
     wpm := wpm a; profileKey := profileKey a; loopEnabled := loopEnabled a;
     isPdfMode := isPdfMode a; pdfLoader := pdfLoader a;
     loadingOverlay := loadingOverlay a |}.

Definition with_position (i : Z) (w : jsstring) (a : App) : App :=
  {| words := words a; index := i; currentWord := w;
     totalWords := totalWords a; isPlaying := isPlaying a;
     timerId := timerId a;
     wpm := wpm a; profileKey := profileKey a; loopEnabled := loopEnabled a;
     isPdfMode := isPdfMode a; pdfLoader := pdfLoader a;
     loadingOverlay := loadingOverlay a |}.

(** [words[i]]: [None] is [undefined]. *)
Definition word_at (a : App) (i : Z) : option Token :=
  if i <? 0 then None else words a !! Z.to_nat i.

Definition last_index (a : App) : Z := Z.of_nat (length (words a)) - 1.

Definition stopLoop (a : App) : App := with_timer None a.

Definition showLoadingOverlay (show : bool) (a : App) : App :=
  let a := with_overlay show a in
  if show && isPlaying a then stopLoop a else a.

(** [advanceTo(newIndex)]; [words[index]?.word || ' '] also yields the
    blank for an empty word. *)
Definition advanceTo (newIndex : Z) (a : App) : App :=
  let i := Z.max 0 (Z.min (last_index a) newIndex) in
  let w := match word_at a i with
           | Some t => match word t with [] => [SPACE] | s => s end
           | None => [SPACE]
           end in
  with_position i w a.

(** What a call of [scheduleNext] ended in. *)
Inductive Scheduled :=
  | NotPlaying
  | Starved (resolved_now : bool)
  | Stopped
  | NoDwell
  | Armed (ms : Z)
  | Throws.

(** [setPlaying(false)]: the flag, then [stopLoop()]. *)
Definition pause (a : App) : App := stopLoop (with_playing false a).

Section WithTables.
Context `{UnicodeTables}.

(** [scheduleNext()]; [fresh] names the promise [waitForContent] makes
    when the reader is starved. *)
Definition scheduleNext (fresh : Waiter) (a : App) : App * Scheduled :=
  if negb (isPlaying a) then (a, NotPlaying)
  else
    let starved :=
      match isPdfMode a, pdfLoader a with
      | true, Some ld =>
          if needsMoreContent ld (index a) && (last_index a <=? index a)
          then Some ld else None
      | _, _ => None
      end in
    match starved with
    | Some ld =>
        let a := showLoadingOverlay true a in
        let (ld', now) := waitForContent ld fresh in
        (with_loader (Some ld') a, Starved now)
    | None =>
        if negb (loopEnabled a) && (last_index a <=? index a)
        then (pause a, Stopped)
        else
          match word_at a (index a) with
          | Some token =>
              match dwellMsForToken (wpm a) (profileKey a) token with
              | Some ms => (with_timer (Some ms) a, Armed ms)
              | None => (a, NoDwell)
              end
          | None =>
              match baseIntervalMs (wpm a) with
              | None => (a, NoDwell)
              | Some _ => (a, Throws)
              end
          end
    end.

(** [setPlaying(v)] *)
Definition setPlaying (fresh : Waiter) (v : bool) (a : App)
    : App * Scheduled :=
  let a := stopLoop (with_playing v a) in
  if v && negb (Qle_bool (wpm a) 0) then scheduleNext fresh a
  else (a, NotPlaying).

(** [restartIfPlaying()] *)
Definition restartIfPlaying (fresh : Waiter) (a : App) : App * Scheduled :=
  if negb (isPlaying a) then (a, NotPlaying)
  else scheduleNext fresh (stopLoop a).

(** [applyWpm(v)]: the rate is clamped to [50, 1500]. *)
Definition applyWpm (fresh : Waiter) (v : Q) (a : App) : App * Scheduled :=
  let rate := Pacing.Qmax 50 (Pacing.Qmin 1500 v) in
  restartIfPlaying fresh
    {| words := words a; index := index a; currentWord := currentWord a;
       totalWords := totalWords a; isPlaying := isPlaying a;
       timerId := timerId a; wpm := rate; profileKey := profileKey a;
       loopEnabled := loopEnabled a; isPdfMode := isPdfMode a;
       pdfLoader := pdfLoader a; loadingOverlay := loadingOverlay a |}.

(** The callback of the timer armed by [scheduleNext].  The timer is
    one-shot: once it has fired none is armed, although the variable
    still holds its stale handle. *)
Definition timer_fired (fresh : Waiter) (a : App) : App * Scheduled :=
  let a := with_timer None a in
  if negb (isPlaying a) then (a, NotPlaying)
  else if index a <? last_index a
  then scheduleNext fresh (advanceTo (index a + 1) a)
  else if loopEnabled a
  then scheduleNext fresh (advanceTo 0 a)
  else (pause a, Stopped).

(** The [then] callback of [waitForContent()] in [scheduleNext]. *)
Definition content_arrived (fresh : Waiter) (a : App) : App * Scheduled :=
  let a := showLoadingOverlay false a in
  let a := match pdfLoader a with
           | Some ld => with_words (allWords ld) (estimatedTotalWords ld) a
           | None => a
           end in
  if isPlaying a then scheduleNext fresh a else (a, NotPlaying).

End WithTables.
End Scheduler.

(* ================================================================== *)
(** * The controls of app.js *)
(* ================================================================== *)

(** The handlers behind the buttons, keys and gestures, on the state of
    [Scheduler].  As there, the calls that only repaint or write to
    [localStorage] are left out. *)
Module Controls.
Import Loader Pacing Scheduler.

Definition with_loop (v : bool) (a : App) : App :=
  {| words := words a; index := index a; currentWord := currentWord a;
     totalWords := totalWords a; isPlaying := isPlaying a;
     timerId := timerId a; wpm := wpm a; profileKey := profileKey a;
     loopEnabled := v; isPdfMode := isPdfMode a; pdfLoader := pdfLoader a;
     loadingOverlay := loadingOverlay a |}.

Definition with_profile (key : string) (a : App) : App :=
  {| words := words a; index := index a; currentWord := currentWord a;
     totalWords := totalWords a; isPlaying := isPlaying a;
     timerId := timerId a; wpm := wpm a; profileKey := key;
     loopEnabled := loopEnabled a; isPdfMode := isPdfMode a;
     pdfLoader := pdfLoader a; loadingOverlay := loadingOverlay a |}.

(** [toggleLoop()] *)
Definition toggleLoop (a : App) : App := with_loop (negb (loopEnabled a)) a.

(** The back and forward buttons, the arrow keys and the swipes:
    [!isPlaying && advanceTo(index - 1)], [... advanceTo(index + 1)]. *)
Definition stepBack (a : App) : App :=
  if isPlaying a then a else advanceTo (index a - 1) a.

Definition stepForward (a : App) : App :=
  if isPlaying a then a else advanceTo (index a + 1) a.

Section WithTables.
Context `{UnicodeTables}.

(** [setProfile(key)]: a key that [PAUSE_PROFILES] does not have is
    ignored (the keys an object inherits from its prototype are not
    modelled; the profile menu offers the three own keys). *)
Definition setProfile (fresh : Waiter) (key : string) (a : App) : App :=
  match PAUSE_PROFILES !! key with
  | Some _ => fst (restartIfPlaying fresh (with_profile key a))
  | None => a
  end.

(** [resetToStart()] *)
Definition resetToStart (fresh : Waiter) (a : App) : App :=
  fst (restartIfPlaying fresh (advanceTo 0 a)).

(** [setText(text)] *)
Definition setText (fresh : Waiter) (text : jsstring) (a : App) : App :=
  let ws := Tokenizer.tokenize text in
  let a := {| words := ws; index := index a; currentWord := currentWord a;
              totalWords := Z.of_nat (length ws); isPlaying := isPlaying a;
              timerId := timerId a; wpm := wpm a; profileKey := profileKey a;
              loopEnabled := loopEnabled a; isPdfMode := false;
              pdfLoader := None; loadingOverlay := loadingOverlay a |} in
  fst (setPlaying fresh true (advanceTo 0 a)).

(** What the user and the clock can do in a session. *)
Inductive Command :=
  | TogglePlay
  | TimerFires
  | Reset
  | Back
  | Forward
  | SetRate (v : Q)
  | SetProfile (key : string)
  | ToggleLoop
  | SetText (text : jsstring).

(** The handler of each command.  The timer callback runs only when a
    timer is armed. *)
Definition exec (fresh : Waiter) (c : Command) (a : App) : App :=
  match c with
  | TogglePlay => fst (setPlaying fresh (negb (isPlaying a)) a)
  | TimerFires =>
      match timerId a with
      | Some _ => fst (timer_fired fresh a)
      | None => a
      end
  | Reset => resetToStart fresh a
  | Back => stepBack a
  | Forward => stepForward a
  | SetRate v => fst (applyWpm fresh v a)
  | SetProfile key => setProfile fresh key a
  | ToggleLoop => toggleLoop a
  | SetText text => setText fresh text a
  end.

Definition session (fresh : Waiter) (cs : list Command) (a : App) : App :=
  fold_left (fun a c => exec fresh c a) cs a.

(** [k] timer callbacks in a row. *)
Fixpoint fires (fresh : Waiter) (k : nat) (a : App) : App :=
  match k with
  | O => a
  | S k' => fires fresh k' (exec fresh TimerFires a)
  end.

(** [loadNum(key, fallback)].  [stored] is
    [Number(localStorage.getItem(key))] when that is a finite number
    (0 for a missing item), and [None] when it is not. *)
Definition loadNum (stored : option Q) (fallback : Q) : Q :=
  match stored with
  | Some v => if Qle_bool v 0 then fallback else v
  | None => fallback
  end.

(** The state in which [init] hands over to the listeners and to
    [startApp]: the settings as [loadNum], [loadStr] and [loadBool]
    return them, and the last text tokenized.  [overlay] is what the
    page shows of the loading overlay. *)
Definition boot (storedWpm : option Q) (storedProfile : string)
    (storedLoop : bool) (lastText : jsstring) (overlay : bool) : App :=
  let ws := Tokenizer.tokenize lastText in
  {| words := ws; index := 0;
     currentWord := match ws with
                    | t :: _ => match word t with [] => [SPACE] | s => s end
                    | [] => [SPACE]
                    end;
     totalWords := Z.of_nat (length ws); isPlaying := false;
     timerId := None; wpm := loadNum storedWpm 300;
     profileKey := storedProfile; loopEnabled := storedLoop;
     isPdfMode := false; pdfLoader := None; loadingOverlay := overlay |}.

(** [startApp], which [init] runs once the fonts are ready:
    [applyWpm(wpm)], then [setPlaying(false)]; the rest paints. *)
Definition startApp (fresh : Waiter) (a : App) : App :=
  fst (setPlaying fresh false (fst (applyWpm fresh (wpm a) a))).

End WithTables.
End Controls.

(* ================================================================== *)
(** * The text of a page (the loop of [loadPage] over the text items) *)
(* ================================================================== *)

Module PageText.

(** An item of [textContent.items] as far as [loadPage] reads it:
    [str], [transform[4]], [transform[5]] and [width].  The coordinates
    are JavaScript numbers, taken as rationals; they only decide which
    separator is put between two items. *)
Record TextItem := {
  str : jsstring;
  left_edge : Q;
  baseline : Q;
  width : Q
}.

(** The three variables of the loop; [None] is [null]. *)
Record Cursor := {
  pageText : jsstring;
  lastY : option Q;
  lastX : option Q
}.

(** [a > b] *)
Definition Qgt_bool (a b : Q) : bool := negb (Qle_bool a b).

(** [Math.abs(a)] *)
Definition Qabs_val (a : Q) : Q := if Qle_bool 0 a then a else - a.

(** What is put in front of [item.str]. *)
Definition separator (c : Cursor) (item : TextItem) : jsstring :=
  match lastY c with
  | None => []
  | Some y =>
      let yDiff := Qabs_val (baseline item - y) in
      if Qgt_bool yDiff 5 then [LF]
      else
        match lastX c with
        | None => []
        | Some x =>
            let xGap := (left_edge item - x)%Q in
            if Qgt_bool xGap 10 then [SPACE] else []
        end
  end.

(** Body of [for (const item of textContent.items)]; the empty string
    is the only falsy [str]. *)
Definition extract_step (c : Cursor) (item : TextItem) : Cursor :=
  match str item with
  | [] => c
  | _ =>
      {| pageText := pageText c ++ separator c item ++ str item;
         lastY := Some (baseline item);
         lastX := Some (left_edge item + width item)%Q |}
  end.

Definition extract (items : list TextItem) : jsstring :=
  pageText (fold_left extract_step items
              {| pageText := []; lastY := None; lastX := None |}).

End PageText.

(* ================================================================== *)
(** * Loading the pages in sequence *)
(* ================================================================== *)

Module Startup.
Import Loader.

(** What PDF.js answers for a page: the text assembled from its items
    and the time the fetch took, or nothing when [getPage] or
    [getTextContent] rejects. *)
Definition Answer := option (jsstring * Z).

(** How a loop of [await this.loadPage(i)] ends: it runs to its end, the
    error of page [pageNum] leaves it, or it waits on the interval of a
    page somebody else is fetching. *)
Inductive Ending :=
  | Completed
  | Failed (pageNum : Z)
  | Waiting (pageNum : Z).

Section WithTables.
Context `{UnicodeTables}.

(** [await this.loadPage(i)] when nothing else runs before the promise
    settles. *)
Definition await_loadPage (pdf : Z -> Answer) (st : PdfLoader) (i : Z)
    : PdfLoader * Ending :=
  let (st, entry) := loadPage_enter st i in
  match entry with
  | ReturnsNull => (st, Completed)
  | ReturnsText _ => (st, Completed)
  | Polls => (st, Waiting i)
  | Fetches =>
      match pdf i with
      | Some (pageText, elapsed) =>
          (fst (loadPage_loaded st i pageText elapsed), Completed)
      | None => (loadPage_failed st i, Failed i)
      end
  end.

(** [for (let i = ...; i <= ...; i++) { await this.loadPage(i); }] over
    the ordinals [pages]. *)
Fixpoint load_each (pdf : Z -> Answer) (st : PdfLoader) (pages : list Z)
    : PdfLoader * Ending :=
  match pages with
  | [] => (st, Completed)
  | i :: rest =>
      match await_loadPage pdf st i with
      | (st, Completed) => load_each pdf st rest
      | stop => stop
      end
  end.

(** [loadInitialPages(count)] *)
Definition loadInitialPages (pdf : Z -> Answer) (count : Z) (st : PdfLoader)
    : PdfLoader * Ending :=
  let pagesToLoad := Z.min count (totalPages st) in
  match load_each pdf st (seqZ 1 pagesToLoad) with
  | (st, Completed) => (with_nextPageToLoad (pagesToLoad + 1) st, Completed)
  | stop => stop
  end.

(** The loop of [loadAllPdfPages] of app.js and the flag it sets. *)
Definition loadAllPdfPages (pdf : Z -> Answer) (st : PdfLoader)
    : PdfLoader * Ending :=
  match load_each pdf st (seqZ 1 (totalPages st)) with
  | (st, Completed) =>
      (with_background (isBackgroundLoading st) true st, Completed)
  | stop => stop
  end.

End WithTables.

(** The events of the background cycle for the pages [pages] when
    nothing else happens: the answer of PDF.js for the page, then the
    timer of the next cycle. *)
Definition answer_event (pdf : Z -> Answer) (p : Z) : Interleaving.Event :=
  match pdf p with
  | Some (pageText, elapsed) => Interleaving.PageArrives p pageText elapsed
  | None => Interleaving.PageFails p
  end.

Definition cycle_events (pdf : Z -> Answer) (pages : list Z)
    : list Interleaving.Event :=
  flat_map (fun p => [answer_event pdf p; Interleaving.CycleTimerFires]) pages.

(** A loader at rest: nothing suspended, no timer set. *)
Definition at_rest (st : PdfLoader) : Interleaving.World :=
  {| Interleaving.loader := st; Interleaving.fetching := [];
     Interleaving.polling := []; Interleaving.cycleTimer := false;
     Interleaving.trace := [] |}.

End Startup.

(* ================================================================== *)
(** * Properties: pacing engine and scheduler *)
(* ================================================================== *)

Module PacingFacts.
Import Pacing Scheduler.

Lemma utf16_length_nonneg (s : jsstring) : 0 <= utf16_length s.
Proof.
  induction s as [|c s IH]; simpl; [lia|].
  destruct (65535 <? c)%N; lia.
Qed.

Lemma utf16_length_filter_le (p : char -> bool) (s : jsstring) :
  utf16_length (filter (fun c => p c = true) s) <= utf16_length s.
Proof.
  induction s as [|c s IH]; [reflexivity|].
  change (filter (fun c => p c = true) (c :: s))
    with (if decide (p c = true)
          then c :: filter (fun c => p c = true) s
          else filter (fun c => p c = true) s).
  destruct (decide (p c = true)); simpl.
  - apply Z.add_le_mono_l, IH.
  - etrans; [exact IH|]. destruct (65535 <? c)%N; lia.
Qed.

Lemma short_word_not_long `{UnicodeTables} (w : jsstring) :
  utf16_length w <= 8 -> (8 <? utf16_length (cleanWord w)) = false.
Proof.
  intros Hw. apply Z.ltb_ge. unfold cleanWord.
  pose proof (utf16_length_filter_le isLN w). lia.
Qed.

Lemma valid_rate_has_interval (wpm : Q) :
  (50 <= wpm)%Q -> Qle_bool wpm 0 = false.
Proof.
  intros Hlo. destruct (Qle_bool wpm 0) eqn:E; [|reflexivity].
  apply Qle_bool_iff in E.
  assert (Hc : (50 <= 0)%Q) by (eapply Qle_trans; eassumption).
  exfalso. revert Hc. unfold Qle. simpl. lia.
Qed.

Lemma ends_sentence_snoc (s : jsstring) (c : char) :
  ends_sentence (s ++ [c]) = (N.eqb c 46 || N.eqb c 33 || N.eqb c 63)%N.
Proof. unfold ends_sentence, last_char. by rewrite last_snoc. Qed.

Lemma ends_comma_snoc (s : jsstring) (c : char) :
  ends_comma (s ++ [c]) = (N.eqb c 44 || N.eqb c 59 || N.eqb c 58)%N.
Proof. unfold ends_comma, last_char. by rewrite last_snoc. Qed.

(** C6.  For a rate between 50 and 1500 words per minute and a profile
    key that selects a profile (one of the three keys of
    [PAUSE_PROFILES], or a key found nowhere, for which the profile is
    "normal") the dwell of a token is defined, and it is at least
    [minSentenceMs] of the active profile when the token's text ends in
    '.', '!' or '?', and at least [minCommaMs] when it ends in ',', ';'
    or ':'. *)
Theorem dwell_respects_minimum `{UnicodeTables} (rate : Q) (key : string)
    (token : Token) (s : jsstring) (c : char) :
  own_or_absent key = true ->
  (50 <= rate)%Q -> (rate <= 1500)%Q ->
  word token = s ++ [c] ->
  exists d, dwellMsForToken rate key token = Some d /\
    ((c = 46 \/ c = 33 \/ c = 63)%N ->
       minSentenceMs (getActiveProfile key) <= d) /\
    ((c = 44 \/ c = 59 \/ c = 58)%N ->
       minCommaMs (getActiveProfile key) <= d).
Proof.
  intros _ Hlo _ Hw. unfold dwellMsForToken, baseIntervalMs.
  rewrite (valid_rate_has_interval rate Hlo), Hw.
  rewrite ends_sentence_snoc, ends_comma_snoc.
  eexists; split; [reflexivity|]. split.
  - intros [-> | [-> | ->]]; simpl; lia.
  - intros [-> | [-> | ->]]; simpl; lia.
Qed.

Lemma dwell_respects_minimum_witness :
  exists d,
    dwellMsForToken 300 "normal" (mkToken (js "Hello.") false) = Some d /\
    minSentenceMs (getActiveProfile "normal") <= d.
Proof.
  destruct (dwell_respects_minimum 300 "normal"
              (mkToken (js "Hello.") false) (js "Hello") 46%N)
    as (d & Hd & Hs & _).
  - reflexivity.
  - unfold Qle; simpl; lia.
  - unfold Qle; simpl; lia.
  - reflexivity.
  - exists d. split; [exact Hd | apply Hs; by left].
Defined.

(** C7.  With the profile "normal" (sentence multiplier 3.0,
    [minSentenceMs] 300) at 300 words per minute the base interval is
    200 ms; "Hello." gets the multiplier 3.0 and a dwell of 600 ms, and
    "cat" a dwell of 200 ms. *)
Theorem normal_profile_scenario `{UnicodeTables} :
  getActiveProfile "normal" = normal /\
  sentence normal = 3.0%Q /\ minSentenceMs normal = 300 /\
  baseIntervalMs 300 = Some 200 /\
  multiplierFor normal (mkToken (js "Hello.") false) = 3.0%Q /\
  dwellMsForToken 300 "normal" (mkToken (js "Hello.") false) = Some 600 /\
  dwellMsForToken 300 "normal" (mkToken (js "cat") false) = Some 200.
Proof.
  assert (Hm : multiplierFor normal (mkToken (js "Hello.") false) = 3.0%Q).
  { unfold multiplierFor. cbn [word isParagraphEnd].
    rewrite short_word_not_long by (vm_compute; discriminate).
    reflexivity. }
  assert (Hc : multiplierFor normal (mkToken (js "cat") false) = 1.0%Q).
  { unfold multiplierFor. cbn [word isParagraphEnd].
    rewrite short_word_not_long by (vm_compute; discriminate).
    reflexivity. }
  repeat split; try reflexivity; try exact Hm.
  - unfold dwellMsForToken.
    change (getActiveProfile "normal") with normal. rewrite Hm. reflexivity.
  - unfold dwellMsForToken.
    change (getActiveProfile "normal") with normal. rewrite Hc. reflexivity.
Qed.

Lemma scheduleNext_keeps_rate `{UnicodeTables} (fresh : Loader.Waiter)
    (a : App) :
  wpm (fst (scheduleNext fresh a)) = wpm a.
Proof.
  unfold scheduleNext, showLoadingOverlay, pause, stopLoop.
  repeat case_match; reflexivity.
Qed.

End PacingFacts.

(* ================================================================== *)
(** * Properties: tokenizer *)
(* ================================================================== *)

Module TokenizerFacts.
Import Tokenizer.

(** Turns the boolean comparisons in the context into inequalities. *)
Ltac reflect_leb :=
  repeat match goal with
         | H : (_ <=? _)%N = true |- _ => apply N.leb_le in H
         | H : (_ <=? _)%N = false |- _ => apply N.leb_gt in H
         | H : N.eqb _ _ = true |- _ => apply N.eqb_eq in H
         | H : N.eqb _ _ = false |- _ => apply N.eqb_neq in H
         end.

(** Induction for the functions that consume one or two characters. *)
Lemma two_step_ind (P : jsstring -> Prop) :
  P [] -> (forall c, P [c]) ->
  (forall c d s, P s -> P (d :: s) -> P (c :: d :: s)) ->
  forall s, P s.
Proof.
  intros H0 H1 H2 s.
  assert (Hboth : P s /\ forall c, P (c :: s)).
  { induction s as [|d s [IHs IHc]]; [split; [exact H0 | exact H1]|].
    split; [apply IHc|]. intros c. apply H2; [exact IHs | apply IHc]. }
  exact (proj1 Hboth).
Qed.

Section Preservation.
Context `{UnicodeTables}.
Variable keep : char -> bool.
Hypothesis keep_LF : keep LF = true.

Local Abbreviation all_keep := (Forall (fun c => keep c = true)).

Lemma replace_crlf_keeps (s : jsstring) :
  all_keep s -> all_keep (replace_crlf s).
Proof.
  induction s as [|c|c d s IHs IHd] using two_step_ind; intros Hs.
  - constructor.
  - exact Hs.
  - change (replace_crlf (c :: d :: s))
      with (if N.eqb c CR && N.eqb d LF then LF :: replace_crlf s
            else c :: replace_crlf (d :: s)).
    inversion Hs as [|? ? Hc Hds]; subst.
    inversion Hds as [|? ? Hd Hs']; subst.
    destruct (N.eqb c CR && N.eqb d LF); constructor; auto.
Qed.

Lemma replace_cr_keeps (s : jsstring) :
  all_keep s -> all_keep (replace_cr s).
Proof.
  unfold replace_cr. induction 1 as [|c s Hc Hs IH]; simpl; constructor; auto.
  destruct (N.eqb c CR); auto.
Qed.

Lemma collapse_newlines_keeps (s : jsstring) (seen : nat) :
  all_keep s -> all_keep (collapse_newlines seen s).
Proof.
  intros Hs. revert seen.
  induction Hs as [|c s Hc Hs IH]; intros seen; simpl; [constructor|].
  destruct (N.eqb c LF); [destruct (seen <? 2)%nat|]; auto.
Qed.

Lemma normalize_keeps (s : jsstring) :
  all_keep s -> all_keep (normalize s).
Proof.
  intros Hs. unfold normalize.
  auto using collapse_newlines_keeps, replace_cr_keeps, replace_crlf_keeps.
Qed.

Lemma split_paragraphs_from_keeps (s cur : jsstring) (in_sep : bool) :
  all_keep cur -> all_keep s ->
  Forall all_keep (split_paragraphs_from cur in_sep s).
Proof.
  revert cur in_sep.
  induction s as [|c|c d s IHs IHd] using two_step_ind;
    intros cur in_sep Hcur Hs.
  - repeat constructor; exact Hcur.
  - simpl. destruct (N.eqb c LF); [destruct in_sep|];
      repeat constructor; auto using Forall_app_2.
  - inversion Hs as [|? ? Hc Hds]; subst.
    inversion Hds as [|? ? Hd Hs']; subst.
    assert (Hcc : all_keep (cur ++ [c])) by (apply Forall_app_2; auto).
    change (split_paragraphs_from cur in_sep (c :: d :: s))
      with (if N.eqb c LF then
              if in_sep then split_paragraphs_from cur true (d :: s)
              else if N.eqb d LF
                   then cur :: split_paragraphs_from [] true s
                   else split_paragraphs_from (cur ++ [c]) false (d :: s)
            else split_paragraphs_from (cur ++ [c]) false (d :: s)).
    destruct (N.eqb c LF); [destruct in_sep; [|destruct (N.eqb d LF)]|];
      auto.
Qed.

Lemma drop_while_keeps (p : char -> bool) (s : jsstring) :
  all_keep s -> all_keep (drop_while p s).
Proof.
  induction 1 as [|c s Hc Hs IH]; simpl; [constructor|].
  destruct (p c); auto.
Qed.

Lemma take_while_keeps (p : char -> bool) (s : jsstring) :
  all_keep s -> all_keep (take_while p s).
Proof.
  induction 1 as [|c s Hc Hs IH]; simpl; [constructor|].
  destruct (p c); auto.
Qed.

Lemma trim_keeps (s : jsstring) : all_keep s -> all_keep (trim s).
Proof.
  intros Hs. unfold trim.
  apply Forall_rev, drop_while_keeps, Forall_rev, drop_while_keeps, Hs.
Qed.

End Preservation.

Section NoLetters.
Context `{UnicodeTables} `{!UnicodeLaws}.

(** A character that is neither a letter nor a digit. *)
Definition plain (c : char) : bool := negb (isLN c).
Local Abbreviation all_plain := (Forall (fun c => plain c = true)).

Lemma plain_LF : plain LF = true.
Proof. unfold plain. by rewrite (S_not_LN LF S_line_feed). Qed.

Lemma plain_not_alpha (c : char) : plain c = true -> is_ascii_alpha c = false.
Proof.
  unfold plain, isLN. intros Hp.
  destruct (is_ascii_alpha c) eqn:E; [|reflexivity].
  rewrite (L_ascii_alpha c E) in Hp. discriminate.
Qed.

(** Only an ASCII letter folds onto an ASCII small letter. *)
Lemma fold_case_alpha (a c : char) :
  is_ascii_alpha a = true -> N.eqb (fold_case a) (fold_case c) = true ->
  is_ascii_alpha c = true.
Proof.
  unfold fold_case, is_ascii_alpha. intros Ha Hf.
  apply N.eqb_eq in Hf.
  destruct (65 <=? a)%N eqn:A1, (a <=? 90)%N eqn:A2,
    (97 <=? a)%N eqn:A3, (a <=? 122)%N eqn:A4,
    (65 <=? c)%N eqn:C1, (c <=? 90)%N eqn:C2,
    (97 <=? c)%N eqn:C3, (c <=? 122)%N eqn:C4;
    simpl in *; try reflexivity; try discriminate; reflect_leb; lia.
Qed.

Lemma strip_prefix_ci_plain (a : char) (p s : jsstring) :
  is_ascii_alpha a = true -> all_plain s ->
  strip_prefix_ci (a :: p) s = None.
Proof.
  intros Ha Hs. destruct Hs as [|c s Hc Hs]; [reflexivity|]. simpl.
  destruct (N.eqb (fold_case a) (fold_case c)) eqn:E; [|reflexivity].
  pose proof (fold_case_alpha a c Ha E) as Hal.
  rewrite (plain_not_alpha c Hc) in Hal. discriminate.
Qed.

Lemma strip_prefix_plain (a : char) (p s : jsstring) :
  is_ascii_alpha a = true -> all_plain s ->
  strip_prefix (a :: p) s = None.
Proof.
  intros Ha Hs. destruct Hs as [|c s Hc Hs]; [reflexivity|]. simpl.
  destruct (N.eqb a c) eqn:E; [|reflexivity].
  apply N.eqb_eq in E. subst c.
  rewrite (plain_not_alpha a Hc) in Ha. discriminate.
Qed.

Lemma isWordLike_plain (t : jsstring) : all_plain t -> isWordLike t = false.
Proof.
  intros Ht. unfold isWordLike, test_url_ci, test_www_ci.
  change (js "http") with (104%N :: js "ttp").
  change (js "www.") with (119%N :: js "ww.").
  rewrite !strip_prefix_ci_plain by (exact Ht || reflexivity).
  destruct Ht as [|c t Hc Ht]; [reflexivity|]. simpl.
  unfold plain in Hc. apply negb_true_iff in Hc. rewrite Hc. reflexivity.
Qed.

Lemma re_exec_plain (s : jsstring) :
  all_plain s -> re_exec s = match_punct s.
Proof.
  intros Hs. unfold re_exec, match_url, match_www, match_word.
  change (js "http") with (104%N :: js "ttp").
  change (js "www.") with (119%N :: js "ww.").
  rewrite !strip_prefix_plain by (exact Hs || reflexivity).
  destruct Hs as [|c s Hc Hs]; [reflexivity|]. simpl.
  unfold plain in Hc. apply negb_true_iff in Hc. rewrite Hc. reflexivity.
Qed.

Lemma match_all_plain (s : jsstring) (skip : nat) :
  all_plain s -> Forall (fun m => isWordLike m = false) (match_all skip s).
Proof.
  intros Hs. revert skip.
  induction Hs as [|c s Hc Hs IH]; intros skip; simpl; [constructor|].
  destruct skip as [|k]; [|apply IH].
  rewrite re_exec_plain by (constructor; assumption).
  unfold match_punct.
  pose proof (take_while_keeps plain is_punct (c :: s)
                (Forall_cons_2 _ _ _ Hc Hs)) as Hrun.
  destruct (take_while is_punct (c :: s)) as [|x run]; [apply IH|].
  constructor; [apply isWordLike_plain, Hrun | apply IH].
Qed.

Lemma push_nothing (ms : list jsstring) :
  Forall (fun m => isWordLike m = false) ms -> fold_left push_token ms [] = [].
Proof.
  induction 1 as [|m ms Hm Hms IH]; [reflexivity|]. simpl.
  unfold push_token at 2. rewrite Hm. exact IH.
Qed.

Lemma paragraph_step_plain (n p : nat) (raw : jsstring) :
  all_plain raw -> paragraph_step n [] p raw = [].
Proof.
  intros Hraw. unfold paragraph_step.
  pose proof (trim_keeps plain raw Hraw) as Ht.
  destruct (trim raw) as [|c para]; [reflexivity|].
  unfold str_match. rewrite push_nothing by (apply match_all_plain, Ht).
  reflexivity.
Qed.

Lemma paragraphs_loop_plain (n p : nat) (paragraphs : list jsstring) :
  Forall all_plain paragraphs -> paragraphs_loop n p paragraphs [] = [].
Proof.
  intros Hps. revert p.
  induction Hps as [|raw rest Hraw Hrest IH]; intros p; [reflexivity|].
  simpl. rewrite paragraph_step_plain by exact Hraw. apply IH.
Qed.

(** Without a letter or a digit in the text the output array stays
    empty. *)
Lemma tokenizePage_plain (text : jsstring) :
  all_plain text -> tokenizePage text = [].
Proof.
  intros Ht. unfold tokenizePage. apply paragraphs_loop_plain.
  apply split_paragraphs_from_keeps; [constructor|].
  apply normalize_keeps; [exact plain_LF | exact Ht].
Qed.

Lemma space_is_plain (text : jsstring) :
  Forall (fun c => isS c = true) text -> all_plain text.
Proof.
  intros Ht. eapply Forall_impl; [exact Ht|].
  intros c Hc. unfold plain. by rewrite (S_not_LN c Hc).
Qed.

End NoLetters.

(** The tables restricted to ASCII satisfy the laws. *)
#[export] Instance ascii_laws : UnicodeLaws.
Proof.
  split; try reflexivity.
  - intros c Hc. exact Hc.
  - intros c. unfold isLN. simpl.
    unfold ascii_space, is_ascii_alpha, is_ascii_digit. intros Hc.
    destruct (9 <=? c)%N eqn:A1, (c <=? 13)%N eqn:A2, (N.eqb c 32) eqn:A3,
      (65 <=? c)%N eqn:B1, (c <=? 90)%N eqn:B2,
      (97 <=? c)%N eqn:B3, (c <=? 122)%N eqn:B4,
      (48 <=? c)%N eqn:D1, (c <=? 57)%N eqn:D2;
      simpl in *; try reflexivity; try discriminate; reflect_leb; lia.
Qed.

(** C8.  [tokenize] is a total function that never returns an empty
    sequence; and for an input with no letter and no digit (the empty
    text, blank text, punctuation only) it returns exactly one token,
    whose text is one space and whose paragraph flag is off. *)
Theorem tokenize_total_nonempty `{UnicodeTables} `{!UnicodeLaws}
    (text : jsstring) :
  tokenize text <> [] /\
  tokenize [] = [mkToken [SPACE] false] /\
  (Forall (fun c => isLN c = false) text ->
   tokenize text = [mkToken [SPACE] false]).
Proof.
  split; [|split].
  - unfold tokenize.
    destruct (paragraphs_loop _ 0 (split_paragraphs (normalize text)) []);
      discriminate.
  - reflexivity.
  - intros Ht.
    assert (Hp : tokenizePage text = []).
    { apply tokenizePage_plain. eapply Forall_impl; [exact Ht|].
      intros c Hc. unfold plain. by rewrite Hc. }
    unfold tokenizePage in Hp. unfold tokenize. rewrite Hp. reflexivity.
Qed.

Lemma tokenize_total_nonempty_witness :
  Forall (fun c => isLN c = false) (js "?! ... --") /\
  tokenize (js "?! ... --") = [mkToken [SPACE] false].
Proof.
  assert (Hf : Forall (fun c => isLN c = false) (js "?! ... --"))
    by (repeat constructor).
  split; [exact Hf|].
  exact (proj2 (proj2 (tokenize_total_nonempty (js "?! ... --"))) Hf).
Defined.

End TokenizerFacts.

(* ================================================================== *)
(** * Properties: aggregation of the loaded pages *)
(* ================================================================== *)

Module AggregateFacts.
Import Loader.

(** ** Arrays with holes *)

Lemma array_get_set_eq {A} (a : list (option A)) (i : Z) (x : A) :
  0 <= i -> array_get (array_set a i x) i = Some x.
Proof.
  intros Hi. unfold array_get, array_set.
  destruct (i <? 0) eqn:E0; [lia|].
  destruct (i <? Z.of_nat (length a)) eqn:E1.
  - rewrite list_lookup_insert_eq by lia. reflexivity.
  - apply Z.ltb_ge in E1.
    rewrite lookup_app_r by lia.
    rewrite lookup_app_r by (rewrite length_replicate; lia).
    rewrite length_replicate.
    replace (Z.to_nat i - length a - (Z.to_nat i - length a))%nat with 0%nat
      by lia.
    reflexivity.
Qed.

Lemma array_get_set_ne {A} (a : list (option A)) (i j : Z) (x : A) :
  i <> j -> array_get (array_set a i x) j = array_get a j.
Proof.
  intros Hij. unfold array_get, array_set.
  destruct (j <? 0) eqn:Ej; [reflexivity|]. apply Z.ltb_ge in Ej.
  destruct (i <? 0) eqn:E0; [reflexivity|]. apply Z.ltb_ge in E0.
  destruct (i <? Z.of_nat (length a)) eqn:E1.
  - rewrite list_lookup_insert_ne by lia. reflexivity.
  - apply Z.ltb_ge in E1.
    destruct (decide (Z.to_nat j < length a)%nat) as [Hlt|Hge].
    + rewrite lookup_app_l by lia. reflexivity.
    + rewrite (lookup_ge_None_2 a) by lia.
      rewrite lookup_app_r by lia.
      destruct (decide (Z.to_nat j - length a < Z.to_nat i - length a)%nat).
      * rewrite lookup_app_l by (rewrite length_replicate; lia).
        rewrite (proj2 (lookup_replicate _ None None _)) by (split; [done|lia]).
        reflexivity.
      * rewrite lookup_app_r by (rewrite length_replicate; lia).
        rewrite length_replicate.
        rewrite lookup_ge_None_2; [reflexivity|]. simpl. lia.
Qed.

(** ** The sorted ordinals *)

Lemma sortedPages_sorted (m : gmap Z PageData) :
  StronglySorted Z.le (sortedPages m).
Proof.
  apply Sorted_StronglySorted; [apply _|].
  apply Sorted_merge_sort. apply _.
Qed.

Lemma sortedPages_perm (m : gmap Z PageData) :
  sortedPages m ≡ₚ (map_to_list m).*1.
Proof. apply merge_sort_Permutation. Qed.

Lemma sortedPages_NoDup (m : gmap Z PageData) : NoDup (sortedPages m).
Proof. rewrite sortedPages_perm. apply NoDup_fst_map_to_list. Qed.

Lemma elem_of_sortedPages (m : gmap Z PageData) (k : Z) :
  k ∈ sortedPages m <-> is_Some (m !! k).
Proof.
  rewrite sortedPages_perm, list_elem_of_fmap. split.
  - intros [[k' d] [-> Hin]]. apply elem_of_map_to_list in Hin. by exists d.
  - intros [d Hd]. exists (k, d). split; [done|].
    by apply elem_of_map_to_list.
Qed.

Lemma sortedPages_empty : sortedPages ∅ = [].
Proof. reflexivity. Qed.

(** ** The loop of [rebuildAggregatedContent] *)

(** The tokens a page contributes. *)
Definition words_of (m : gmap Z PageData) (k : Z) : list Token :=
  match m !! k with
  | Some d => words d
  | None => []
  end.

Definition words_upto (m : gmap Z PageData) (ks : list Z) : list Token :=
  concat (map (words_of m) ks).

(** The number of tokens in front of page [k] when the pages [ks] are
    concatenated in this order. *)
Fixpoint offset (m : gmap Z PageData) (ks : list Z) (k : Z) : nat :=
  match ks with
  | [] => 0
  | x :: rest =>
      if bool_decide (x = k) then 0
      else (length (words_of m x) + offset m rest k)%nat
  end.

Lemma fold_words (m : gmap Z PageData) (ks : list Z) (acc : Aggregate) :
  agg_words (fold_left (rebuild_step m) ks acc)
  = agg_words acc ++ words_upto m ks.
Proof.
  revert acc. induction ks as [|k ks IH]; intros acc; simpl.
  - by rewrite app_nil_r.
  - rewrite IH. unfold rebuild_step, words_upto, words_of. simpl.
    destruct (m !! k) as [d|]; simpl; [by rewrite <- app_assoc | done].
Qed.

Lemma fold_ranges_other (m : gmap Z PageData) (ks : list Z)
    (acc : Aggregate) (j : Z) :
  j ∉ ks ->
  array_get (agg_ranges (fold_left (rebuild_step m) ks acc)) (j - 1)
  = array_get (agg_ranges acc) (j - 1).
Proof.
  revert acc. induction ks as [|k ks IH]; intros acc Hj; [reflexivity|].
  apply not_elem_of_cons in Hj as [Hjk Hj]. simpl. rewrite IH by exact Hj.
  unfold rebuild_step. destruct (m !! k) as [d|]; [|reflexivity]. simpl.
  apply array_get_set_ne. lia.
Qed.

Lemma fold_ranges (m : gmap Z PageData) (ks : list Z) (acc : Aggregate)
    (k : Z) (d : PageData) :
  NoDup ks -> k ∈ ks -> 1 <= k -> m !! k = Some d ->
  array_get (agg_ranges (fold_left (rebuild_step m) ks acc)) (k - 1)
  = Some {| range_start :=
              Z.of_nat (length (agg_words acc) + offset m ks k);
            range_end :=
              Z.of_nat (length (agg_words acc) + offset m ks k
                        + length (words d)) - 1 |}.
Proof.
  intros Hnd Hin Hk Hd. revert acc.
  induction ks as [|x ks IH]; intros acc; [by apply elem_of_nil in Hin|].
  apply NoDup_cons in Hnd as [Hx Hnd]. simpl.
  destruct (bool_decide (x = k)) eqn:E.
  - apply bool_decide_eq_true in E. subst x.
    rewrite fold_ranges_other by exact Hx.
    unfold rebuild_step. rewrite Hd. simpl.
    rewrite array_get_set_eq by lia.
    rewrite length_app, Nat.add_0_r. reflexivity.
  - apply bool_decide_eq_false in E.
    apply elem_of_cons in Hin as [->|Hin]; [done|].
    rewrite (IH Hnd Hin). unfold rebuild_step, words_of.
    destruct (m !! x) as [dx|]; simpl.
    + rewrite length_app. do 2 f_equal; lia.
    + reflexivity.
Qed.

(** In a sorted list the page with the smaller ordinal comes first, and
    the tokens of the later one start after its last token. *)
Lemma offset_sorted (m : gmap Z PageData) (ks : list Z) (p q : Z) :
  StronglySorted Z.le ks -> p ∈ ks -> q ∈ ks -> p < q ->
  (offset m ks p + length (words_of m p) <= offset m ks q)%nat.
Proof.
  intros Hs Hp Hq Hpq.
  induction Hs as [|x ks Hs IH Hall]; [by apply elem_of_nil in Hp|].
  simpl. rewrite Forall_forall in Hall.
  destruct (bool_decide (x = p)) eqn:Ep, (bool_decide (x = q)) eqn:Eq.
  - apply bool_decide_eq_true in Ep, Eq. lia.
  - apply bool_decide_eq_true in Ep. subst x. lia.
  - apply bool_decide_eq_true in Eq. apply bool_decide_eq_false in Ep.
    subst x. apply elem_of_cons in Hp as [->|Hp]; [lia|].
    specialize (Hall p Hp). lia.
  - apply bool_decide_eq_false in Ep, Eq.
    apply elem_of_cons in Hp as [->|Hp]; [done|].
    apply elem_of_cons in Hq as [->|Hq]; [done|].
    specialize (IH Hp Hq). lia.
Qed.

(** The tokens of page [k] sit at its offset. *)
Lemma words_at_offset (m : gmap Z PageData) (ks : list Z) (k : Z) :
  k ∈ ks ->
  take (length (words_of m k)) (drop (offset m ks k) (words_upto m ks))
  = words_of m k.
Proof.
  induction ks as [|x ks IH]; intros Hin; [by apply elem_of_nil in Hin|].
  unfold words_upto. simpl.
  destruct (bool_decide (x = k)) eqn:E.
  - apply bool_decide_eq_true in E. subst x. simpl.
    apply take_app_length.
  - apply bool_decide_eq_false in E.
    apply elem_of_cons in Hin as [->|Hin]; [done|].
    rewrite drop_app_add'; [|reflexivity]. apply IH, Hin.
Qed.

Lemma offset_bound (m : gmap Z PageData) (ks : list Z) (k : Z) :
  k ∈ ks ->
  (offset m ks k + length (words_of m k) <= length (words_upto m ks))%nat.
Proof.
  induction ks as [|x ks IH]; intros Hin; [by apply elem_of_nil in Hin|].
  unfold words_upto in *. simpl. rewrite length_app.
  destruct (bool_decide (x = k)) eqn:E.
  - apply bool_decide_eq_true in E. subst x. lia.
  - apply bool_decide_eq_false in E.
    apply elem_of_cons in Hin as [->|Hin]; [done|].
    specialize (IH Hin). lia.
Qed.

Lemma aggregate_words (m : gmap Z PageData) :
  agg_words (aggregate m) = words_upto m (sortedPages m).
Proof. unfold aggregate. by rewrite fold_words. Qed.

Lemma aggregate_ranges (m : gmap Z PageData) (k : Z) (d : PageData) :
  1 <= k -> m !! k = Some d ->
  array_get (agg_ranges (aggregate m)) (k - 1)
  = Some {| range_start := Z.of_nat (offset m (sortedPages m) k);
            range_end := Z.of_nat (offset m (sortedPages m) k
                                   + length (words d)) - 1 |}.
Proof.
  intros Hk Hd. unfold aggregate.
  rewrite (fold_ranges m _ _ k d); first reflexivity;
    auto using sortedPages_NoDup.
  apply elem_of_sortedPages. by exists d.
Qed.

(** ** One more page *)

(** The sorted ordinals below [p], and the others. *)
Fixpoint below (p : Z) (ks : list Z) : list Z :=
  match ks with
  | [] => []
  | x :: rest => if decide (x < p) then x :: below p rest else []
  end.

Fixpoint above (p : Z) (ks : list Z) : list Z :=
  match ks with
  | [] => []
  | x :: rest => if decide (x < p) then above p rest else ks
  end.

(** The number of tokens of the loaded pages whose ordinal is below [p]:
    the index at which the tokens of page [p] enter the sequence. *)
Definition tokens_before (m : gmap Z PageData) (p : Z) : nat :=
  length (words_upto m (below p (sortedPages m))).

Lemma below_above (p : Z) (ks : list Z) : ks = below p ks ++ above p ks.
Proof.
  induction ks as [|x ks IH]; [reflexivity|]. simpl.
  destruct (decide (x < p)); [simpl; by rewrite <- IH | reflexivity].
Qed.

Lemma below_all (p : Z) (ks : list Z) :
  Forall (fun x => x < p) ks -> below p ks = ks.
Proof.
  induction 1 as [|x ks Hx Hks IH]; [reflexivity|]. simpl.
  destruct (decide (x < p)); [by rewrite IH | done].
Qed.

Lemma insert_sorted (p : Z) (ks : list Z) :
  StronglySorted Z.le ks ->
  StronglySorted Z.le (below p ks ++ p :: above p ks).
Proof.
  induction 1 as [|x ks Hs IH Hall]; simpl.
  - repeat constructor.
  - destruct (decide (x < p)) as [Hlt|Hge]; simpl.
    + constructor; [exact IH|].
      rewrite (below_above p ks) in Hall.
      apply Forall_app in Hall as [Hb Ha].
      apply Forall_app; split; [exact Hb|].
      constructor; [lia | exact Ha].
    + constructor; [by constructor|].
      constructor; [lia|].
      eapply Forall_impl; [exact Hall|]. simpl. intros y Hy. lia.
Qed.

Lemma sortedPages_insert (m : gmap Z PageData) (p : Z) (d : PageData) :
  m !! p = None ->
  sortedPages (<[p := d]> m)
  = below p (sortedPages m) ++ p :: above p (sortedPages m).
Proof.
  intros Hp. apply (Sorted_unique Z.le).
  - apply StronglySorted_Sorted, sortedPages_sorted.
  - apply StronglySorted_Sorted, insert_sorted, sortedPages_sorted.
  - rewrite sortedPages_perm, (map_to_list_insert m p d Hp).
    rewrite fmap_cons. simpl. rewrite <- Permutation_middle.
    rewrite <- below_above. by rewrite sortedPages_perm.
Qed.

Lemma words_upto_app (m : gmap Z PageData) (ks1 ks2 : list Z) :
  words_upto m (ks1 ++ ks2) = words_upto m ks1 ++ words_upto m ks2.
Proof. unfold words_upto. by rewrite map_app, concat_app. Qed.

Lemma words_upto_insert (m : gmap Z PageData) (p : Z) (d : PageData)
    (ks : list Z) :
  p ∉ ks -> words_upto (<[p := d]> m) ks = words_upto m ks.
Proof.
  intros Hp. unfold words_upto. f_equal.
  induction ks as [|x ks IH]; [reflexivity|].
  apply not_elem_of_cons in Hp as [Hx Hp]. simpl.
  rewrite IH by exact Hp. f_equal.
  unfold words_of. by rewrite lookup_insert_ne.
Qed.

(** Loading page [p] puts its tokens at index [tokens_before m p] and
    leaves the other tokens in their order. *)
Lemma aggregate_insert (m : gmap Z PageData) (p : Z) (d : PageData) :
  m !! p = None ->
  (tokens_before m p <= length (agg_words (aggregate m)))%nat /\
  agg_words (aggregate (<[p := d]> m))
  = take (tokens_before m p) (agg_words (aggregate m))
    ++ words d
    ++ drop (tokens_before m p) (agg_words (aggregate m)).
Proof.
  intros Hp. rewrite !aggregate_words, (sortedPages_insert m p d Hp).
  unfold tokens_before.
  assert (Hnot : p ∉ sortedPages m).
  { rewrite elem_of_sortedPages, Hp. by intros [? ?]. }
  rewrite (below_above p (sortedPages m)) in Hnot.
  apply not_elem_of_app in Hnot as [Hb Ha].
  assert (Hold : words_upto m (sortedPages m)
                 = words_upto m (below p (sortedPages m))
                   ++ words_upto m (above p (sortedPages m))).
  { rewrite <- words_upto_app. by rewrite <- below_above. }
  rewrite Hold, length_app.
  split; [lia|].
  rewrite take_app_length, drop_app_length, words_upto_app.
  rewrite (words_upto_insert m p d _ Hb).
  f_equal.
  change (p :: above p (sortedPages m))
    with ([p] ++ above p (sortedPages m)).
  rewrite words_upto_app, (words_upto_insert m p d _ Ha).
  f_equal. unfold words_upto, words_of. simpl.
  rewrite lookup_insert_eq, app_nil_r. reflexivity.
Qed.

Lemma tokens_before_last (m : gmap Z PageData) (p : Z) :
  (forall q, is_Some (m !! q) -> q < p) ->
  tokens_before m p = length (agg_words (aggregate m)).
Proof.
  intros Hall. unfold tokens_before. rewrite aggregate_words, below_all.
  - reflexivity.
  - apply Forall_forall. intros q Hq. by apply Hall, elem_of_sortedPages.
Qed.

End AggregateFacts.

(* ================================================================== *)
(** * Properties: the loader under every interleaving *)
(* ================================================================== *)

Module LoaderFacts.
Import Loader Interleaving AggregateFacts.

(** What holds of the loader and its suspended callers after every
    event. *)
Record Inv (w : World) : Prop := {
  inv_keys : forall k, is_Some (loadedPages (loader w) !! k) ->
             1 <= k <= totalPages (loader w);
  inv_words : allWords (loader w)
              = agg_words (aggregate (loadedPages (loader w)));
  inv_ranges : pageWordRanges (loader w)
               = agg_ranges (aggregate (loadedPages (loader w)));
  inv_fetch_once : NoDup (fetching w).*1;
  inv_fetch_loading : forall p, p ∈ (fetching w).*1 <-> p ∈ loadingPages (loader w);
  inv_loading_range : forall p, p ∈ loadingPages (loader w) ->
                      1 <= p <= totalPages (loader w);
  inv_loading_fresh : forall p, p ∈ loadingPages (loader w) ->
                      loadedPages (loader w) !! p = None;
  inv_waiters : queued (trace w)
                = released (trace w) ++ contentWaiters (loader w)
}.

Lemma queued_snoc (tr : list Obs) (o : Obs) :
  queued (tr ++ [o])
  = queued tr ++ match o with WaitQueued x => [x] | _ => [] end.
Proof. unfold queued. rewrite omap_app. by destruct o. Qed.

Lemma released_snoc (tr : list Obs) (o : Obs) :
  released (tr ++ [o])
  = released tr ++ match o with WaitReleased x => [x] | _ => [] end.
Proof. unfold released. rewrite omap_app. by destruct o. Qed.

Lemma queued_of_releases (ws : list Waiter) :
  queued (map WaitReleased ws) = [].
Proof. induction ws as [|x ws IH]; [reflexivity | exact IH]. Qed.

Lemma released_of_releases (ws : list Waiter) :
  released (map WaitReleased ws) = ws.
Proof.
  induction ws as [|x ws IH]; [reflexivity|].
  change (x :: released (map WaitReleased ws) = x :: ws). by rewrite IH.
Qed.

Lemma queued_released_waiters (tr : list Obs) (ws : list Waiter) :
  queued (tr ++ map WaitReleased ws) = queued tr /\
  released (tr ++ map WaitReleased ws) = released tr ++ ws.
Proof.
  split.
  - unfold queued. rewrite omap_app. fold (queued (map WaitReleased ws)).
    by rewrite queued_of_releases, app_nil_r.
  - unfold released. rewrite omap_app.
    fold (released (map WaitReleased ws)).
    by rewrite released_of_releases.
Qed.

Lemma drain_all (queue called : list Waiter) :
  drain queue called = ([], called ++ queue).
Proof.
  revert called. induction queue as [|x queue IH]; intros called; simpl.
  - by rewrite app_nil_r.
  - rewrite IH. by rewrite <- app_assoc.
Qed.

(** [resolveWaiters] calls every queued waiter, first queued first, and
    leaves the queue empty. *)
Lemma resolveWaiters_all (st : PdfLoader) :
  resolveWaiters st = (with_contentWaiters [] st, contentWaiters st).
Proof. unfold resolveWaiters. by rewrite drain_all. Qed.

Lemma Inv_start (n : Z) : Inv (start n).
Proof.
  split; simpl; try done.
  - intros k [d Hd]. by rewrite lookup_empty in Hd.
  - constructor.
  - intros p. rewrite elem_of_nil. set_solver.
Qed.

Lemma Inv_settle (w : World) (c : Caller) (p : Z) (o : Outcome) :
  Inv w -> Inv (settle w c p o).
Proof.
  intros [].
  destruct c; split; simpl; try done;
    rewrite queued_snoc, released_snoc; simpl; by rewrite !app_nil_r.
Qed.

Lemma Inv_call_loadPage (w : World) (c : Caller) (p : Z) :
  Inv w -> Inv (call_loadPage w c p).
Proof.
  intros HI. unfold call_loadPage, loadPage_enter.
  destruct ((p <? 1) || (totalPages (loader w) <? p)) eqn:Hrange;
    [by apply Inv_settle|].
  apply orb_false_iff in Hrange as [H1 H2].
  apply Z.ltb_ge in H1, H2.
  destruct (loadedPages (loader w) !! p) as [d|] eqn:Hd;
    [by apply Inv_settle|].
  destruct HI.
  destruct (bool_decide (p ∈ loadingPages (loader w))) eqn:Hl.
  - split; simpl; done.
  - apply bool_decide_eq_false in Hl.
    split; simpl; try done.
    + rewrite fmap_app. simpl. apply NoDup_app. split; [done|]. split.
      * intros q Hq Hq'. apply list_elem_of_singleton in Hq'. subst q.
        by apply Hl, inv_fetch_loading0.
      * apply NoDup_singleton.
    + intros q. rewrite fmap_app, elem_of_app. simpl.
      rewrite list_elem_of_singleton, inv_fetch_loading0. set_solver.
    + intros q Hq. apply elem_of_union in Hq as [Hq|Hq]; [|by auto].
      apply elem_of_singleton in Hq. subst q. lia.
    + intros q Hq. apply elem_of_union in Hq as [Hq|Hq]; [|by auto].
      apply elem_of_singleton in Hq. by subst q.
    + rewrite queued_snoc, released_snoc. simpl. by rewrite !app_nil_r.
Qed.

Lemma Inv_run_cycle (w : World) : Inv w -> Inv (run_cycle w).
Proof.
  intros HI. unfold run_cycle, loadNextPageInBackground_enter.
  destruct (negb (isBackgroundLoading (loader w))); [done|].
  destruct (totalPages (loader w) <? nextPageToLoad (loader w)).
  - destruct HI. split; simpl; try done.
    rewrite queued_snoc, released_snoc. simpl. by rewrite !app_nil_r.
  - by apply Inv_call_loadPage.
Qed.

(** The caller found by [fetcher] is suspended on that page. *)
Lemma fetcher_elem (p : Z) (l : list (Z * Caller)) (c : Caller) :
  fetcher p l = Some c -> (p, c) ∈ l.
Proof.
  induction l as [|[q c'] l IH]; [done|]. simpl.
  destruct (bool_decide (q = p)) eqn:E.
  - apply bool_decide_eq_true in E. intros [= ->]. subst q. left.
  - intros Hf. right. by apply IH.
Qed.

Lemma fetcher_none (p : Z) (l : list (Z * Caller)) :
  fetcher p l = None -> p ∉ l.*1.
Proof.
  induction l as [|[q c'] l IH]; [intros _; apply not_elem_of_nil|]. simpl.
  destruct (bool_decide (q = p)) eqn:E; [done|].
  apply bool_decide_eq_false in E. intros Hf.
  apply not_elem_of_cons. split; [done | by apply IH].
Qed.

Lemma remove_first_fst (p : Z) (c : Caller) (l : list (Z * Caller)) :
  NoDup l.*1 -> (p, c) ∈ l ->
  NoDup (remove_first (p, c) l).*1 /\
  forall q, q ∈ (remove_first (p, c) l).*1 <-> q ∈ l.*1 /\ q <> p.
Proof.
  induction l as [|[q' c'] l IH]; intros Hnd Hin;
    [by apply elem_of_nil in Hin|].
  simpl in *. apply NoDup_cons in Hnd as [Hq' Hnd].
  destruct (bool_decide ((q', c') = (p, c))) eqn:E.
  - apply bool_decide_eq_true in E. injection E as -> ->.
    split; [done|]. intros q. rewrite elem_of_cons. split.
    + intros Hq. split; [by right|]. by intros ->.
    + intros [[->|Hq] Hne]; done.
  - apply bool_decide_eq_false in E.
    apply elem_of_cons in Hin as [Hin|Hin]; [by inversion Hin; subst|].
    destruct (IH Hnd Hin) as [IHnd IHq].
    assert (Hpq : q' <> p).
    { intros ->. apply Hq'. apply list_elem_of_fmap. by exists (p, c). }
    split.
    + simpl. apply NoDup_cons. split; [|done].
      rewrite IHq. by intros [? ?].
    + intros q. simpl. rewrite !elem_of_cons, IHq. naive_solver.
Qed.

Section WithTables.
Context `{UnicodeTables}.

Lemma Inv_step (w w' : World) (e : Event) :
  Inv w -> step w e = Some w' -> Inv w'.
Proof.
  intros HI Hstep. destruct e as [id p|p txt el|p|c p|x| | |]; simpl in Hstep.
  - injection Hstep as <-. by apply Inv_call_loadPage.
  - destruct (fetcher p (fetching w)) as [c|] eqn:Hf; [|done].
    unfold loadPage_loaded in Hstep. rewrite resolveWaiters_all in Hstep.
    injection Hstep as <-. apply Inv_settle.
    pose proof (fetcher_elem _ _ _ Hf) as Hin.
    destruct HI.
    destruct (remove_first_fst p c (fetching w) inv_fetch_once0 Hin)
      as [Hnd Hq].
    assert (Hp : p ∈ loadingPages (loader w)).
    { apply inv_fetch_loading0, list_elem_of_fmap. by exists (p, c). }
    split; simpl; try done.
    + intros k [d Hd].
      destruct (decide (k = p)) as [->|Hne]; [by apply inv_loading_range0|].
      rewrite lookup_insert_ne in Hd by done. apply inv_keys0. by exists d.
    + intros q. rewrite Hq, inv_fetch_loading0. set_solver.
    + intros q Hq'. apply inv_loading_range0. set_solver.
    + intros q Hq'. apply elem_of_difference in Hq' as [Hq1 Hq2].
      rewrite lookup_insert_ne by set_solver. by apply inv_loading_fresh0.
    + destruct (queued_released_waiters (trace w) (contentWaiters (loader w)))
        as [-> ->].
      by rewrite app_nil_r.
  - destruct (fetcher p (fetching w)) as [c|] eqn:Hf; [|done].
    injection Hstep as <-. apply Inv_settle.
    pose proof (fetcher_elem _ _ _ Hf) as Hin.
    destruct HI.
    destruct (remove_first_fst p c (fetching w) inv_fetch_once0 Hin)
      as [Hnd Hq].
    split; simpl; try done.
    + intros q. rewrite Hq, inv_fetch_loading0. set_solver.
    + intros q Hq'. apply inv_loading_range0. set_solver.
    + intros q Hq'. apply inv_loading_fresh0. set_solver.
    + rewrite queued_snoc, released_snoc. simpl. by rewrite !app_nil_r.
  - destruct (bool_decide ((p, c) ∈ polling w)); [|done].
    destruct (poll (loader w) p) as [t|].
    + injection Hstep as <-. apply Inv_settle. destruct HI. by split.
    + by injection Hstep as <-.
  - unfold waitForContent in Hstep.
    destruct ((0 <? size (loadingPages (loader w)))%nat
              || isBackgroundLoading (loader w));
      injection Hstep as <-; destruct HI; split; simpl; try done;
      rewrite queued_snoc, released_snoc; simpl.
    + rewrite inv_waiters0. by rewrite app_nil_r, app_assoc.
    + by rewrite !app_nil_r.
  - unfold startBackgroundLoading in Hstep.
    destruct (isBackgroundLoading (loader w) || allPagesLoaded (loader w));
      injection Hstep as <-.
    + destruct HI. by split.
    + apply Inv_run_cycle. destruct HI. by split.
  - destruct (cycleTimer w); [|done]. injection Hstep as <-.
    apply Inv_run_cycle. destruct HI. by split.
  - injection Hstep as <-. destruct HI. by split.
Qed.

Lemma Inv_run (es : list Event) (w w' : World) :
  Inv w -> run w es = Some w' -> Inv w'.
Proof.
  revert w. induction es as [|e es IH]; intros w HI Hrun; simpl in Hrun.
  - by injection Hrun as <-.
  - destruct (step w e) as [w1|] eqn:Hs; [|done].
    eapply IH; [|exact Hrun]. eapply Inv_step; eauto.
Qed.

Lemma Inv_reachable (n : Z) (es : list Event) (w : World) :
  run (start n) es = Some w -> Inv w.
Proof. apply Inv_run, Inv_start. Qed.

(** What the arrival of a page does to the loader. *)
Lemma page_arrives (w w' : World) (p : Z) (txt : jsstring) (el : Z) :
  Inv w -> step w (PageArrives p txt el) = Some w' ->
  1 <= p /\
  loadedPages (loader w) !! p = None /\
  loadedPages (loader w')
  = <[p := {| text := txt; words := Tokenizer.tokenizePage txt;
              loadTime := el |}]> (loadedPages (loader w)) /\
  contentWaiters (loader w') = [] /\
  released (trace w') = released (trace w) ++ contentWaiters (loader w).
Proof.
  intros HI Hstep. simpl in Hstep.
  destruct (fetcher p (fetching w)) as [c|] eqn:Hf; [|done].
  unfold loadPage_loaded in Hstep. rewrite resolveWaiters_all in Hstep.
  injection Hstep as <-.
  pose proof (fetcher_elem _ _ _ Hf) as Hin.
  assert (Hp : p ∈ loadingPages (loader w)).
  { apply (inv_fetch_loading w HI), list_elem_of_fmap. by exists (p, c). }
  split; [apply (inv_loading_range w HI p Hp)|].
  split; [apply (inv_loading_fresh w HI p Hp)|].
  destruct c; simpl; rewrite released_snoc; simpl; rewrite app_nil_r;
    by destruct (queued_released_waiters (trace w)
                   (contentWaiters (loader w))) as [_ ->].
Qed.

(** Only the arrival of a page changes the loaded pages and the
    aggregated sequence, and only it releases waiters. *)
Lemma other_events (w w' : World) (e : Event) :
  step w e = Some w' ->
  match e with
  | PageArrives _ _ _ => True
  | _ => loadedPages (loader w') = loadedPages (loader w) /\
         allWords (loader w') = allWords (loader w) /\
         pageWordRanges (loader w') = pageWordRanges (loader w) /\
         released (trace w') = released (trace w)
  end.
Proof.
  assert (Hsettle : forall v c p o,
    loadedPages (loader (settle v c p o)) = loadedPages (loader v) /\
    allWords (loader (settle v c p o)) = allWords (loader v) /\
    pageWordRanges (loader (settle v c p o)) = pageWordRanges (loader v) /\
    released (trace (settle v c p o)) = released (trace v)).
  { intros v c p o. destruct c; simpl; rewrite released_snoc; simpl;
      by rewrite app_nil_r. }
  assert (Hcall : forall v c p,
    loadedPages (loader (call_loadPage v c p)) = loadedPages (loader v) /\
    allWords (loader (call_loadPage v c p)) = allWords (loader v) /\
    pageWordRanges (loader (call_loadPage v c p)) = pageWordRanges (loader v) /\
    released (trace (call_loadPage v c p)) = released (trace v)).
  { intros v c p. unfold call_loadPage, loadPage_enter.
    destruct ((p <? 1) || (totalPages (loader v) <? p)); [apply Hsettle|].
    destruct (loadedPages (loader v) !! p); [apply Hsettle|].
    destruct (bool_decide (p ∈ loadingPages (loader v))); simpl; [done|].
    rewrite released_snoc. simpl. by rewrite app_nil_r. }
  assert (Hcycle : forall v,
    loadedPages (loader (run_cycle v)) = loadedPages (loader v) /\
    allWords (loader (run_cycle v)) = allWords (loader v) /\
    pageWordRanges (loader (run_cycle v)) = pageWordRanges (loader v) /\
    released (trace (run_cycle v)) = released (trace v)).
  { intros v. unfold run_cycle, loadNextPageInBackground_enter.
    destruct (negb (isBackgroundLoading (loader v))); [done|].
    destruct (totalPages (loader v) <? nextPageToLoad (loader v)).
    - simpl. rewrite released_snoc. simpl. by rewrite app_nil_r.
    - apply Hcall. }
  intros Hstep. destruct e as [id p|p txt el|p|c p|x| | |]; simpl in Hstep;
    [|done| | | | | |by injection Hstep as <-].
  - injection Hstep as <-. apply Hcall.
  - destruct (fetcher p (fetching w)); [|done]. injection Hstep as <-.
    destruct (Hsettle
      {| loader := loadPage_failed (loader w) p;
         fetching := remove_first (p, c) (fetching w);
         polling := polling w; cycleTimer := cycleTimer w;
         trace := trace w ++ [ErrorReported p] |} c p Thrown)
      as (-> & -> & -> & ->).
    simpl. rewrite released_snoc. simpl. by rewrite app_nil_r.
  - destruct (bool_decide ((p, c) ∈ polling w)); [|done].
    destruct (poll (loader w) p) as [t|].
    + injection Hstep as <-.
      exact (Hsettle
        {| loader := loader w; fetching := fetching w;
           polling := remove_first (p, c) (polling w);
           cycleTimer := cycleTimer w; trace := trace w |}
        c p (Fulfilled (Some t))).
    + by injection Hstep as <-.
  - unfold waitForContent in Hstep.
    destruct ((0 <? size (loadingPages (loader w)))%nat
              || isBackgroundLoading (loader w));
      injection Hstep as <-; simpl; rewrite released_snoc; simpl;
      by rewrite app_nil_r.
  - unfold startBackgroundLoading in Hstep.
    destruct (isBackgroundLoading (loader w) || allPagesLoaded (loader w));
      injection Hstep as <-; [done|].
    apply (Hcycle
      {| loader := with_background true (allPagesLoaded (loader w)) (loader w);
         fetching := fetching w; polling := polling w;
         cycleTimer := cycleTimer w; trace := trace w |}).
  - destruct (cycleTimer w); [|done]. injection Hstep as <-.
    apply (Hcycle
      {| loader := loader w; fetching := fetching w; polling := polling w;
         cycleTimer := false; trace := trace w |}).
Qed.

End WithTables.
End LoaderFacts.

(* ================================================================== *)
(** * Properties: the aggregated sequence and its ranges *)
(* ================================================================== *)

Module SequenceFacts.
Import Loader Interleaving AggregateFacts LoaderFacts.

(** After a rebuild the recorded range of a loaded page is the place of
    its tokens in the sequence, and the ranges follow the ordinals. *)
Lemma rebuild_ranges (st : PdfLoader) (p q : Z) (dp dq : PageData) :
  (forall k, is_Some (loadedPages st !! k) -> 1 <= k) ->
  loadedPages st !! p = Some dp -> loadedPages st !! q = Some dq -> p < q ->
  let st' := rebuildAggregatedContent st in
  exists rp rq,
    array_get (pageWordRanges st') (p - 1) = Some rp /\
    array_get (pageWordRanges st') (q - 1) = Some rq /\
    0 <= range_start rp /\
    range_end rp = range_start rp + Z.of_nat (length (words dp)) - 1 /\
    range_end rp < range_start rq /\
    range_end rq = range_start rq + Z.of_nat (length (words dq)) - 1 /\
    range_end rq < Z.of_nat (length (allWords st')) /\
    take (length (words dp)) (drop (Z.to_nat (range_start rp)) (allWords st'))
    = words dp /\
    take (length (words dq)) (drop (Z.to_nat (range_start rq)) (allWords st'))
    = words dq.
Proof.
  intros Hkeys Hp Hq Hpq st'. subst st'. simpl.
  set (m := loadedPages st) in *. set (ks := sortedPages m).
  assert (Hp1 : 1 <= p) by (apply Hkeys; by exists dp).
  assert (Hq1 : 1 <= q) by (apply Hkeys; by exists dq).
  assert (Hpin : p ∈ ks) by (apply elem_of_sortedPages; by exists dp).
  assert (Hqin : q ∈ ks) by (apply elem_of_sortedPages; by exists dq).
  assert (Hwp : words_of m p = words dp) by (unfold words_of; by rewrite Hp).
  assert (Hwq : words_of m q = words dq) by (unfold words_of; by rewrite Hq).
  pose proof (offset_sorted m ks p q (sortedPages_sorted m) Hpin Hqin Hpq)
    as Hord.
  pose proof (offset_bound m ks q Hqin) as Hbound.
  pose proof (words_at_offset m ks p Hpin) as Hsp.
  pose proof (words_at_offset m ks q Hqin) as Hsq.
  rewrite Hwp in Hord, Hsp. rewrite Hwq in Hbound, Hsq.
  eexists _, _.
  split; [apply (aggregate_ranges m p dp Hp1 Hp)|].
  split; [apply (aggregate_ranges m q dq Hq1 Hq)|].
  rewrite aggregate_words. simpl. fold ks. rewrite !Nat2Z.id.
  repeat split; try lia; assumption.
Qed.

(** C2.  In every state the loader reaches, whatever the order in which
    the pages arrived, each loaded page has a recorded range, the range
    is the contiguous slice of the sequence holding exactly that page's
    tokens, and of two loaded pages the one with the smaller ordinal
    ends before the other starts. *)
Theorem word_ranges_follow_ordinals `{UnicodeTables} (n : Z)
    (es : list Event) (w : World) (p q : Z) (dp dq : PageData) :
  run (start n) es = Some w ->
  loadedPages (loader w) !! p = Some dp ->
  loadedPages (loader w) !! q = Some dq ->
  p < q ->
  exists rp rq,
    array_get (pageWordRanges (loader w)) (p - 1) = Some rp /\
    array_get (pageWordRanges (loader w)) (q - 1) = Some rq /\
    0 <= range_start rp /\
    range_end rp = range_start rp + Z.of_nat (length (words dp)) - 1 /\
    range_end rp < range_start rq /\
    range_end rq = range_start rq + Z.of_nat (length (words dq)) - 1 /\
    range_end rq < Z.of_nat (length (allWords (loader w))) /\
    take (length (words dp))
      (drop (Z.to_nat (range_start rp)) (allWords (loader w))) = words dp /\
    take (length (words dq))
      (drop (Z.to_nat (range_start rq)) (allWords (loader w))) = words dq.
Proof.
  intros Hrun Hp Hq Hpq.
  pose proof (Inv_reachable n es w Hrun) as HI.
  assert (Hkeys : forall k, is_Some (loadedPages (loader w) !! k) -> 1 <= k).
  { intros k Hk. apply (inv_keys w HI k Hk). }
  pose proof (rebuild_ranges (loader w) p q dp dq Hkeys Hp Hq Hpq) as Hr.
  simpl in Hr. rewrite <- (inv_ranges w HI), <- (inv_words w HI) in Hr.
  exact Hr.
Qed.

(** Pages 2 then 1 of a three-page document. *)
Definition out_of_order : list Event :=
  [CallLoadPage 0 2; PageArrives 2 (js "gamma delta") 5;
   CallLoadPage 1 1; PageArrives 1 (js "alpha beta.") 7].

Definition after_both : World :=
  default (start 3) (run (start 3) out_of_order).

Lemma word_ranges_follow_ordinals_witness :
  exists rp rq,
    array_get (pageWordRanges (loader after_both)) (1 - 1) = Some rp /\
    array_get (pageWordRanges (loader after_both)) (2 - 1) = Some rq /\
    0 <= range_start rp /\
    range_end rp = range_start rp + Z.of_nat (length (Tokenizer.tokenizePage (js "alpha beta."))) - 1 /\
    range_end rp < range_start rq /\
    range_end rq = range_start rq + Z.of_nat (length (Tokenizer.tokenizePage (js "gamma delta"))) - 1 /\
    range_end rq < Z.of_nat (length (allWords (loader after_both))) /\
    take (length (Tokenizer.tokenizePage (js "alpha beta.")))
      (drop (Z.to_nat (range_start rp)) (allWords (loader after_both)))
    = Tokenizer.tokenizePage (js "alpha beta.") /\
    take (length (Tokenizer.tokenizePage (js "gamma delta")))
      (drop (Z.to_nat (range_start rq)) (allWords (loader after_both)))
    = Tokenizer.tokenizePage (js "gamma delta").
Proof.
  apply (word_ranges_follow_ordinals 3 out_of_order after_both 1 2
           {| text := js "alpha beta.";
              words := Tokenizer.tokenizePage (js "alpha beta.");
              loadTime := 7 |}
           {| text := js "gamma delta";
              words := Tokenizer.tokenizePage (js "gamma delta");
              loadTime := 5 |}).
  - vm_compute. reflexivity.
  - vm_compute. reflexivity.
  - vm_compute. reflexivity.
  - lia.
Defined.

(** C1, as the code has it.  Only the arrival of a page changes the
    aggregated sequence.  When page [p] arrives its tokens are inserted
    at the index [k] that is the number of tokens of the loaded pages
    with a smaller ordinal: the sequence never shrinks, the tokens in
    front of [k] keep their index, the tokens from [k] on move up by
    the number of tokens of the page; when [p] is larger than every
    loaded ordinal the old sequence is a prefix of the new one and every
    assigned index keeps its token. *)
Theorem page_load_inserts_tokens `{UnicodeTables} (n : Z) (es : list Event)
    (w w' : World) (e : Event) :
  run (start n) es = Some w -> step w e = Some w' ->
  match e with
  | PageArrives p txt el =>
      let old := allWords (loader w) in
      let new := allWords (loader w') in
      let page := Tokenizer.tokenizePage txt in
      let k := tokens_before (loadedPages (loader w)) p in
      (k <= length old)%nat /\
      new = take k old ++ page ++ drop k old /\
      length new = (length old + length page)%nat /\
      (forall i tok, (i < k)%nat -> old !! i = Some tok ->
                     new !! i = Some tok) /\
      (forall i tok, (k <= i)%nat -> old !! i = Some tok ->
                     new !! (i + length page)%nat = Some tok) /\
      ((forall q, is_Some (loadedPages (loader w) !! q) -> q < p) ->
       new = old ++ page /\
       forall i tok, old !! i = Some tok -> new !! i = Some tok)
  | _ => allWords (loader w') = allWords (loader w)
  end.
Proof.
  intros Hrun Hstep.
  pose proof (Inv_reachable n es w Hrun) as HI.
  assert (HI' : Inv w') by (eapply Inv_step; eauto).
  pose proof (other_events w w' e Hstep) as Hother.
  destruct e as [id p|p txt el|p|c p|x| | |]; try apply Hother.
  destruct (page_arrives w w' p txt el HI Hstep) as (_ & Hfresh & Hm & _).
  simpl.
  rewrite (inv_words w' HI'), Hm, (inv_words w HI).
  destruct (aggregate_insert (loadedPages (loader w)) p
              {| text := txt; words := Tokenizer.tokenizePage txt;
                 loadTime := el |} Hfresh) as [Hk Hnew].
  simpl in Hnew. rewrite Hnew.
  set (old := agg_words (aggregate (loadedPages (loader w)))) in *.
  set (k := tokens_before (loadedPages (loader w)) p) in *.
  set (page := Tokenizer.tokenizePage txt).
  split; [exact Hk|]. split; [reflexivity|].
  split.
  { rewrite !length_app, length_take, length_drop. lia. }
  split.
  { intros i tok Hi Hold.
    rewrite lookup_app_l by (rewrite length_take; lia).
    rewrite lookup_take_lt by exact Hi. exact Hold. }
  split.
  { intros i tok Hi Hold.
    rewrite lookup_app_r by (rewrite length_take; lia).
    rewrite length_take, Nat.min_l by exact Hk.
    rewrite lookup_app_r by lia.
    rewrite lookup_drop. rewrite <- Hold. f_equal. lia. }
  intros Hlast.
  assert (Hkk : k = length old)
    by (apply (tokens_before_last (loadedPages (loader w)) p Hlast)).
  rewrite Hkk, firstn_all, drop_all, app_nil_r.
  split; [reflexivity|].
  intros i tok Hold. apply lookup_app_l_Some. exact Hold.
Qed.

(** The same run cut after the first arrival, and before the second. *)
Definition after_page2 : World :=
  default (start 3) (run (start 3) (take 2 out_of_order)).

Definition before_page1 : World :=
  default (start 3) (run (start 3) (take 3 out_of_order)).

Lemma page_load_inserts_tokens_witness :
  (tokens_before (loadedPages (loader before_page1)) 1
   <= length (allWords (loader before_page1)))%nat /\
  allWords (loader after_both)
  = take (tokens_before (loadedPages (loader before_page1)) 1)
      (allWords (loader before_page1))
    ++ Tokenizer.tokenizePage (js "alpha beta.")
    ++ drop (tokens_before (loadedPages (loader before_page1)) 1)
         (allWords (loader before_page1)) /\
  length (allWords (loader after_both))
  = (length (allWords (loader before_page1))
     + length (Tokenizer.tokenizePage (js "alpha beta.")))%nat.
Proof.
  pose proof (page_load_inserts_tokens 3 (take 3 out_of_order)
                before_page1 after_both (PageArrives 1 (js "alpha beta.") 7))
    as Hw.
  simpl in Hw.
  destruct Hw as (Hk & Hnew & Hlen & _).
  - vm_compute. reflexivity.
  - vm_compute. reflexivity.
  - split; [exact Hk|]. split; [exact Hnew | exact Hlen].
Defined.

(** C1 as the specification states it fails.  Page 2 arrives first and
    its first token is assigned index 0; when page 1 arrives afterwards
    the token at index 0 is another one, and the token that was there
    is found at index 2. *)
Lemma lower_ordinal_moves_tokens :
  run (start 3) (take 2 out_of_order) = Some after_page2 /\
  run (start 3) out_of_order = Some after_both /\
  allWords (loader after_page2) !! 0%nat = Some (mkToken (js "gamma") false) /\
  allWords (loader after_both) !! 0%nat = Some (mkToken (js "alpha") false) /\
  allWords (loader after_both) !! 2%nat = Some (mkToken (js "gamma") false).
Proof. vm_compute. repeat split; reflexivity. Qed.

End SequenceFacts.

(* ================================================================== *)
(** * Properties: waiters and concurrent calls of [loadPage] *)
(* ================================================================== *)

Module WaitFacts.
Import Loader Interleaving AggregateFacts LoaderFacts.

Section WithTables.
Context `{UnicodeTables}.

(** [waitForContent] resolves at once exactly when no page is being
    fetched and the background cycle is off; otherwise the waiter goes
    to the end of the queue. *)
Lemma waitForContent_cases (w w' : World) (x : Waiter) :
  step w (CallWaitForContent x) = Some w' ->
  (size (loadingPages (loader w)) = 0%nat /\
   isBackgroundLoading (loader w) = false ->
   trace w' = trace w ++ [WaitResolved x] /\
   contentWaiters (loader w') = contentWaiters (loader w)) /\
  (size (loadingPages (loader w)) <> 0%nat \/
   isBackgroundLoading (loader w) = true ->
   trace w' = trace w ++ [WaitQueued x] /\
   contentWaiters (loader w') = contentWaiters (loader w) ++ [x]).
Proof.
  simpl. unfold waitForContent. intros Hstep.
  destruct (0 <? size (loadingPages (loader w)))%nat eqn:Hsize;
    destruct (isBackgroundLoading (loader w)) eqn:Hbg;
    injection Hstep as <-; simpl;
    [apply Nat.ltb_lt in Hsize | apply Nat.ltb_lt in Hsize
     | apply Nat.ltb_ge in Hsize | apply Nat.ltb_ge in Hsize];
    (split; [intros [? ?] | intros [?|?]]); try done; lia.
Qed.

(** A caller that joined a fetch stays suspended as long as the page is
    not in [loadedPages]: its interval fires and nothing happens. *)
Lemma poll_waits (w : World) (c : Caller) (p : Z) :
  (p, c) ∈ polling w -> loadedPages (loader w) !! p = None ->
  step w (PollFires c p) = Some w.
Proof.
  intros Hin Hp. simpl. rewrite bool_decide_eq_true_2 by exact Hin.
  unfold poll. by rewrite Hp.
Qed.

(** The parts of the contract of [loadPage] that hold: a loaded page is
    answered at once with the stored text; for a page whose fetch is
    outstanding no second fetch is issued and the caller is suspended;
    there is at most one outstanding fetch per ordinal; and a suspended
    caller gets the text at the first poll after the page has arrived. *)
Lemma loadPage_coalesces (n : Z) (es : list Event) (w : World) :
  run (start n) es = Some w ->
  NoDup (fetching w).*1 /\
  (forall id p d, loadedPages (loader w) !! p = Some d ->
     step w (CallLoadPage id p)
     = Some (settle w (External id) p (Fulfilled (Some (text d))))) /\
  (forall id p, p ∈ (fetching w).*1 ->
     step w (CallLoadPage id p)
     = Some {| loader := loader w; fetching := fetching w;
               polling := polling w ++ [(p, External id)];
               cycleTimer := cycleTimer w; trace := trace w |}) /\
  (forall c p d, (p, c) ∈ polling w ->
     loadedPages (loader w) !! p = Some d ->
     step w (PollFires c p)
     = Some (settle {| loader := loader w; fetching := fetching w;
                       polling := remove_first (p, c) (polling w);
                       cycleTimer := cycleTimer w; trace := trace w |}
               c p (Fulfilled (Some (text d))))).
Proof.
  intros Hrun. pose proof (Inv_reachable n es w Hrun) as HI.
  split; [apply (inv_fetch_once w HI)|]. split; [|split].
  - intros id p d Hd. simpl. unfold call_loadPage, loadPage_enter.
    destruct (inv_keys w HI p (ex_intro _ d Hd)) as [H1 H2].
    rewrite (proj2 (Z.ltb_ge p 1)), (proj2 (Z.ltb_ge _ p)) by lia.
    simpl. by rewrite Hd.
  - intros id p Hp. apply (inv_fetch_loading w HI) in Hp.
    simpl. unfold call_loadPage, loadPage_enter.
    destruct (inv_loading_range w HI p Hp) as [H1 H2].
    rewrite (proj2 (Z.ltb_ge p 1)), (proj2 (Z.ltb_ge _ p)) by lia.
    simpl. rewrite (inv_loading_fresh w HI p Hp).
    by rewrite bool_decide_eq_true_2.
  - intros c p d Hin Hd. simpl.
    rewrite bool_decide_eq_true_2 by exact Hin.
    unfold poll. by rewrite Hd.
Qed.

(** C3, as the code has it.  A promise of [waitForContent] is resolved
    at once when no page is being fetched and the background cycle is
    off; otherwise its waiter is queued behind the earlier ones.  The
    next arrival of a page, whatever else is still in flight, releases
    every queued waiter, in the order they were queued, and leaves the
    queue empty.  So over a whole run the waiters released are, in
    order, the waiters queued, up to those in the queue. *)
Theorem waiters_released_by_page_arrival (n : Z) (es : list Event)
    (w : World) :
  run (start n) es = Some w ->
  queued (trace w) = released (trace w) ++ contentWaiters (loader w) /\
  (forall x w', step w (CallWaitForContent x) = Some w' ->
     (size (loadingPages (loader w)) = 0%nat /\
      isBackgroundLoading (loader w) = false ->
      trace w' = trace w ++ [WaitResolved x] /\
      contentWaiters (loader w') = contentWaiters (loader w)) /\
     (size (loadingPages (loader w)) <> 0%nat \/
      isBackgroundLoading (loader w) = true ->
      trace w' = trace w ++ [WaitQueued x] /\
      contentWaiters (loader w') = contentWaiters (loader w) ++ [x])) /\
  (forall p txt el w', step w (PageArrives p txt el) = Some w' ->
     contentWaiters (loader w') = [] /\
     released (trace w')
     = released (trace w) ++ contentWaiters (loader w)).
Proof.
  intros Hrun. pose proof (Inv_reachable n es w Hrun) as HI.
  split; [apply (inv_waiters w HI)|].
  split; [intros x w'; apply waitForContent_cases|].
  intros p txt el w' Hstep.
  destruct (page_arrives w w' p txt el HI Hstep) as (_ & _ & _ & Hq & Hr).
  by split.
Qed.

End WithTables.

(** A reader waits while the background cycle loads page 1 of three and
    another caller fetches page 3. *)
Definition starved_reader : list Event :=
  [CallStartBackgroundLoading; CallLoadPage 0 3; CallWaitForContent 7%nat;
   PageArrives 1 (js "alpha") 5].

Definition reader_waiting : World :=
  default (start 3) (run (start 3) (take 3 starved_reader)).

Definition reader_released : World :=
  default (start 3) (run (start 3) starved_reader).

Lemma waiters_released_by_page_arrival_witness :
  queued (trace reader_released)
  = released (trace reader_released)
    ++ contentWaiters (loader reader_released).
Proof.
  apply (waiters_released_by_page_arrival 3 starved_reader reader_released).
  vm_compute. reflexivity.
Defined.

(** C3 as the specification states it fails: the waiter queued while
    page 1 was being fetched is released when page 1 arrives, with the
    fetch of page 3 still outstanding and the background cycle still
    active (two of the three pages are yet to come). *)
Lemma waiter_released_while_loading :
  run (start 3) (take 3 starved_reader) = Some reader_waiting /\
  contentWaiters (loader reader_waiting) = [7%nat] /\
  step reader_waiting (PageArrives 1 (js "alpha") 5) = Some reader_released /\
  released (trace reader_released) = [7%nat] /\
  fetching reader_released = [(3, External 0)] /\
  size (loadingPages (loader reader_released)) = 1%nat /\
  isBackgroundLoading (loader reader_released) = true /\
  allPagesLoaded (loader reader_released) = false.
Proof. vm_compute. repeat split; reflexivity. Qed.

(** The only page of a document fails while a reader waits: the
    background cycle ends and the waiter is still in the queue, with no
    fetch outstanding whose arrival could release it. *)
Definition last_page_fails : list Event :=
  [CallStartBackgroundLoading; CallWaitForContent 7%nat; PageFails 1;
   CycleTimerFires].

Remark waiter_left_in_queue :
  exists w, run (start 1) last_page_fails = Some w /\
    contentWaiters (loader w) = [7%nat] /\ released (trace w) = [] /\
    fetching w = [] /\ cycleTimer w = false /\
    isBackgroundLoading (loader w) = false /\
    allPagesLoaded (loader w) = true.
Proof. eexists. vm_compute. repeat split; reflexivity. Qed.

(** Two callers ask for page 1 of two; the fetch fails. *)
Definition joined_then_failed : list Event :=
  [CallLoadPage 0 1; CallLoadPage 1 1; PageFails 1].

Definition after_failure : World :=
  default (start 2) (run (start 2) joined_then_failed).

(** C4, where the code departs from it.  The caller that issued the
    fetch is released with the failure; the caller that joined the
    fetch is not: it is still suspended after the failure, no fetch is
    outstanding, and its poll changes nothing, now and for as long as
    the page is not loaded. *)
Theorem joined_caller_never_released :
  run (start 2) joined_then_failed = Some after_failure /\
  trace after_failure
  = [FetchStarted 1; ErrorReported 1; Settled (External 0) 1 Thrown] /\
  polling after_failure = [(1, External 1)] /\
  fetching after_failure = [] /\
  loadingPages (loader after_failure) = ∅ /\
  step after_failure (PollFires (External 1) 1) = Some after_failure.
Proof. vm_compute. repeat split; reflexivity. Qed.

(** The same defect seen from the background cycle: when the cycle
    joins a fetch that another caller started and the fetch fails, the
    code after its [await] never runs: the cycle stays active with no
    timer set and no fetch outstanding, and page 2 is never asked for. *)
Definition cycle_joins_failed_fetch : list Event :=
  [CallLoadPage 0 1; CallStartBackgroundLoading; PageFails 1].

Remark background_cycle_hangs :
  exists w, run (start 2) cycle_joins_failed_fetch = Some w /\
    polling w = [(1, Background)] /\ fetching w = [] /\
    cycleTimer w = false /\
    isBackgroundLoading (loader w) = true /\
    nextPageToLoad (loader w) = 1 /\
    step w (PollFires Background 1) = Some w.
Proof. eexists. vm_compute. repeat split; reflexivity. Qed.

End WaitFacts.

(* ================================================================== *)
(** * Properties: blank pages *)
(* ================================================================== *)

Module BlankPageFacts.
Import Tokenizer TokenizerFacts Loader Interleaving AggregateFacts LoaderFacts.

(** C10.  For a page text that is empty or holds only white space
    [tokenizePage] returns the empty sequence where [tokenize] returns
    the single blank token; so when such a page arrives the aggregated
    sequence is unchanged and the range recorded for the page is
    empty. *)
Theorem blank_page_adds_no_tokens `{UnicodeTables} `{!UnicodeLaws}
    (txt : jsstring) :
  Forall (fun c => isS c = true) txt ->
  tokenizePage txt = [] /\
  tokenize txt = [mkToken [SPACE] false] /\
  forall n es w p el w',
    run (start n) es = Some w ->
    step w (PageArrives p txt el) = Some w' ->
    allWords (loader w') = allWords (loader w) /\
    exists r, array_get (pageWordRanges (loader w')) (p - 1) = Some r /\
              range_end r = range_start r - 1.
Proof.
  intros Hblank.
  assert (Hpage : tokenizePage txt = [])
    by (apply tokenizePage_plain, space_is_plain, Hblank).
  split; [exact Hpage|]. split.
  { unfold tokenizePage in Hpage. unfold tokenize. by rewrite Hpage. }
  intros n es w p el w' Hrun Hstep.
  pose proof (Inv_reachable n es w Hrun) as HI.
  assert (HI' : Inv w') by (eapply Inv_step; eauto).
  destruct (page_arrives w w' p txt el HI Hstep) as (Hp1 & Hfresh & Hm & _).
  split.
  - rewrite (inv_words w' HI'), Hm, (inv_words w HI).
    destruct (aggregate_insert (loadedPages (loader w)) p
                {| text := txt; words := tokenizePage txt; loadTime := el |}
                Hfresh) as [_ ->].
    simpl. rewrite Hpage. simpl. apply take_drop.
  - rewrite (inv_ranges w' HI'), Hm.
    eexists. split.
    + apply aggregate_ranges; [exact Hp1 | apply lookup_insert_eq].
    + simpl. rewrite Hpage. simpl. lia.
Qed.

(** A document of two pages whose second page is blank. *)
Definition blank_second_page : list Event :=
  [CallLoadPage 0 1; PageArrives 1 (js "alpha beta") 5; CallLoadPage 0 2].

Definition before_blank : World :=
  default (start 2) (run (start 2) blank_second_page).

Definition after_blank : World :=
  default (start 2)
    (run (start 2)
       (blank_second_page ++ [PageArrives 2 [SPACE; LF; LF; SPACE] 5])).

Lemma blank_page_adds_no_tokens_witness :
  Forall (fun c => isS c = true) [SPACE; LF; LF; SPACE] /\
  tokenizePage [SPACE; LF; LF; SPACE] = [] /\
  tokenize [SPACE; LF; LF; SPACE] = [mkToken [SPACE] false] /\
  allWords (loader after_blank) = allWords (loader before_blank).
Proof.
  assert (Hb : Forall (fun c => isS c = true) [SPACE; LF; LF; SPACE])
    by (repeat constructor).
  destruct (blank_page_adds_no_tokens [SPACE; LF; LF; SPACE] Hb)
    as (Hp & Ht & Hload).
  split; [exact Hb|]. split; [exact Hp|]. split; [exact Ht|].
  apply (Hload 2 blank_second_page before_blank 2 5 after_blank).
  - vm_compute. reflexivity.
  - vm_compute. reflexivity.
Defined.

End BlankPageFacts.

(* ================================================================== *)
(** * Properties: word runs *)
(* ================================================================== *)

Module WordRunFacts.
Import Tokenizer TokenizerFacts.

(** ** Prefixes and runs *)

Lemma strip_prefix_app (p s r : jsstring) :
  strip_prefix p s = Some r -> s = p ++ r.
Proof.
  revert s. induction p as [|a p IH]; intros s; simpl.
  - by intros [= ->].
  - destruct s as [|b s]; [done|].
    destruct (N.eqb a b) eqn:E; [|done].
    apply N.eqb_eq in E. subst b. intros Hr. by rewrite (IH s Hr).
Qed.

Lemma take_while_all (p : char -> bool) (s : jsstring) :
  Forall (fun c => p c = true) s -> take_while p s = s.
Proof.
  induction 1 as [|c s Hc Hs IH]; [reflexivity|]. simpl.
  by rewrite Hc, IH.
Qed.

(** A string that is empty or starts with a character failing [p]. *)
Definition halts (p : char -> bool) (s : jsstring) : Prop :=
  match s with
  | [] => True
  | c :: _ => p c = false
  end.

Lemma take_while_app_halts (p : char -> bool) (a b : jsstring) :
  Forall (fun c => p c = true) a -> halts p b -> take_while p (a ++ b) = a.
Proof.
  intros Ha Hb. induction Ha as [|c a Hc Ha IH]; simpl.
  - destruct b as [|d b]; [reflexivity|]. simpl in *. by rewrite Hb.
  - by rewrite Hc, IH.
Qed.

Lemma drop_while_halts (p : char -> bool) (s : jsstring) :
  halts p s -> drop_while p s = s.
Proof. destruct s as [|c s]; [reflexivity|]. simpl. by intros ->. Qed.

(** ** Text without line breaks *)

Lemma replace_crlf_id (s : jsstring) :
  Forall (fun c => c <> CR) s -> replace_crlf s = s.
Proof.
  induction 1 as [|c s Hc Hs IH]; [reflexivity|].
  destruct s as [|d s]; [reflexivity|].
  change (replace_crlf (c :: d :: s))
    with (if N.eqb c CR && N.eqb d LF then LF :: replace_crlf s
          else c :: replace_crlf (d :: s)).
  rewrite (proj2 (N.eqb_neq c CR) Hc). simpl andb. by rewrite IH.
Qed.

Lemma replace_cr_id (s : jsstring) :
  Forall (fun c => c <> CR) s -> replace_cr s = s.
Proof.
  unfold replace_cr. induction 1 as [|c s Hc Hs IH]; [reflexivity|]. simpl.
  by rewrite (proj2 (N.eqb_neq c CR) Hc), IH.
Qed.

Lemma collapse_newlines_id (s : jsstring) (seen : nat) :
  Forall (fun c => c <> LF) s -> collapse_newlines seen s = s.
Proof.
  intros Hs. revert seen.
  induction Hs as [|c s Hc Hs IH]; intros seen; [reflexivity|]. simpl.
  by rewrite (proj2 (N.eqb_neq c LF) Hc), IH.
Qed.

Lemma split_paragraphs_from_single (s cur : jsstring) :
  Forall (fun c => c <> LF) s ->
  split_paragraphs_from cur false s = [cur ++ s].
Proof.
  intros Hs. revert cur.
  induction Hs as [|c s Hc Hs IH]; intros cur; simpl.
  - by rewrite app_nil_r.
  - rewrite (proj2 (N.eqb_neq c LF) Hc), IH. by rewrite <- app_assoc.
Qed.

Section WordRuns.
Context `{UnicodeTables} `{!UnicodeLaws}.

Local Abbreviation solid := (Forall (fun c => isS c = false)).

Lemma solid_not_LF (c : char) : isS c = false -> c <> LF.
Proof. intros Hc ->. rewrite S_line_feed in Hc. discriminate. Qed.

Lemma solid_not_CR (c : char) : isS c = false -> c <> CR.
Proof. intros Hc ->. rewrite S_carriage_return in Hc. discriminate. Qed.

Lemma LN_solid (c : char) : isLN c = true -> isS c = false.
Proof.
  intros Hc. destruct (isS c) eqn:E; [|reflexivity].
  rewrite (S_not_LN c E) in Hc. discriminate.
Qed.

Lemma punct_solid (c : char) : is_punct c = true -> isS c = false.
Proof.
  unfold is_punct. intros Hc. apply andb_true_iff in Hc as [_ Hc].
  by apply negb_true_iff.
Qed.

Lemma punct_plain (c : char) : is_punct c = true -> isLN c = false.
Proof.
  unfold is_punct. intros Hc. apply andb_true_iff in Hc as [Hc _].
  by apply negb_true_iff.
Qed.

Lemma normalize_solid (s : jsstring) : solid s -> normalize s = s.
Proof.
  intros Hs. unfold normalize.
  assert (Hcr : Forall (fun c => c <> CR) s)
    by (eapply Forall_impl; [exact Hs | exact solid_not_CR]).
  assert (Hlf : Forall (fun c => c <> LF) s)
    by (eapply Forall_impl; [exact Hs | exact solid_not_LF]).
  by rewrite replace_crlf_id, replace_cr_id, collapse_newlines_id.
Qed.

Lemma split_paragraphs_solid (s : jsstring) :
  solid s -> split_paragraphs s = [s].
Proof.
  intros Hs. unfold split_paragraphs.
  apply split_paragraphs_from_single.
  eapply Forall_impl; [exact Hs | exact solid_not_LF].
Qed.

Lemma trim_solid (s : jsstring) : solid s -> trim s = s.
Proof.
  intros Hs. unfold trim.
  assert (Hh : forall l, solid l -> halts isS l).
  { intros l Hl. destruct Hl; simpl; done. }
  rewrite (drop_while_halts isS s (Hh s Hs)).
  rewrite (drop_while_halts isS (rev s)) by (apply Hh, Forall_rev, Hs).
  apply rev_involutive.
Qed.

(** ** The scanner *)

Lemma match_all_skip (a b : jsstring) :
  match_all (length a) (a ++ b) = match_all 0 b.
Proof. induction a as [|c a IH]; [reflexivity | exact IH]. Qed.

(** A match [c :: m] at the start of the text: the scanner records it
    and resumes after it. *)
Lemma match_all_hit (c : char) (m b : jsstring) :
  re_exec (c :: m ++ b) = Some (c :: m) ->
  match_all 0 (c :: m ++ b) = (c :: m) :: match_all 0 b.
Proof.
  intros Hm.
  change (match_all 0 (c :: m ++ b))
    with (match re_exec (c :: m ++ b) with
          | Some x => x :: match_all (length x - 1) (m ++ b)
          | None => match_all 0 (m ++ b)
          end).
  rewrite Hm.
  replace (length (c :: m) - 1)%nat with (length m) by (simpl; lia).
  by rewrite match_all_skip.
Qed.

(** On text without white space a URL alternative takes everything. *)
Lemma url_tail_solid (pre r m : jsstring) :
  solid r -> url_tail pre r = Some m -> m = pre ++ r.
Proof.
  intros Hr. unfold url_tail.
  destruct (strip_prefix (js "://") r) as [r'|] eqn:E; [|done].
  apply strip_prefix_app in E. subst r.
  apply Forall_app in Hr as [_ Hr'].
  rewrite take_while_all.
  - destruct r' as [|c r']; [done|]. by intros [= <-].
  - eapply Forall_impl; [exact Hr'|]. intros c Hc. unfold non_space.
    by rewrite Hc.
Qed.

Lemma match_url_solid (s m : jsstring) :
  solid s -> match_url s = Some m -> m = s.
Proof.
  intros Hs. unfold match_url.
  destruct (strip_prefix (js "http") s) as [r|] eqn:E; [|done].
  apply strip_prefix_app in E. subst s.
  apply Forall_app in Hs as [_ Hr].
  destruct r as [|c r']; [done|].
  destruct (N.eqb c 115) eqn:Ec.
  - apply N.eqb_eq in Ec. subst c.
    destruct (url_tail (js "https") r') as [m'|] eqn:E1.
    + intros [= <-]. apply Forall_cons in Hr as [_ Hr'].
      by rewrite (url_tail_solid _ _ _ Hr' E1).
    + intros E2. by rewrite (url_tail_solid _ _ _ Hr E2).
  - intros E2. by rewrite (url_tail_solid _ _ _ Hr E2).
Qed.

Lemma match_www_solid (s m : jsstring) :
  solid s -> match_www s = Some m -> m = s.
Proof.
  intros Hs. unfold match_www.
  destruct (strip_prefix (js "www.") s) as [r|] eqn:E; [|done].
  apply strip_prefix_app in E. subst s.
  apply Forall_app in Hs as [_ Hr].
  rewrite take_while_all.
  - destruct r as [|c r]; [done|]. by intros [= <-].
  - eapply Forall_impl; [exact Hr|]. intros c Hc. unfold non_space.
    by rewrite Hc.
Qed.

(** ** Runs of letters joined by a separator *)

(** A non-empty run of letters and digits. *)
Definition letters (g : jsstring) : Prop :=
  g <> [] /\ Forall (fun c => isLN c = true) g.

(** The groups [gs], each one led by the separator [sep]. *)
Definition joined (sep : char) (gs : list jsstring) : jsstring :=
  concat (map (fun g => sep :: g) gs).

(** What ends the groups of separator [sep]: the end of the text, or a
    character that is no letter and does not open one more group. *)
Definition closes (sep : char) (s : jsstring) : Prop :=
  match s with
  | [] => True
  | c :: rest => isLN c = false /\ (c = sep -> starts_LN rest = false)
  end.

Lemma sep_groups_run (sep : char) (g rest : jsstring) :
  Forall (fun c => isLN c = true) g ->
  sep_groups sep true (g ++ rest) = g ++ sep_groups sep true rest.
Proof.
  induction 1 as [|c g Hc Hg IH]; [reflexivity|]. simpl.
  by rewrite Hc, IH.
Qed.

Lemma sep_groups_closes (sep : char) (b : bool) (s : jsstring) :
  closes sep s -> sep_groups sep b s = [].
Proof.
  destruct s as [|c rest]; [reflexivity|]. simpl. intros [Hc Hsep].
  rewrite Hc, andb_false_r.
  destruct (N.eqb c sep) eqn:E; [|reflexivity].
  apply N.eqb_eq in E. by rewrite (Hsep E).
Qed.

Lemma sep_groups_joined (sep : char) (gs : list jsstring) (b : bool)
    (rest : jsstring) :
  isLN sep = false -> Forall letters gs -> closes sep rest ->
  sep_groups sep b (joined sep gs ++ rest) = joined sep gs.
Proof.
  intros Hsep Hgs Hrest. revert b.
  induction Hgs as [|g gs [Hne Hg] Hgs IH]; intros b.
  - simpl. by apply sep_groups_closes.
  - unfold joined. simpl. fold (joined sep gs).
    rewrite Hsep, andb_false_r, N.eqb_refl.
    rewrite <- !app_assoc.
    assert (Hstart : starts_LN (g ++ joined sep gs ++ rest) = true).
    { destruct Hg as [|c g Hc Hg]; [done | exact Hc]. }
    rewrite Hstart. simpl. f_equal.
    by rewrite sep_groups_run, IH.
Qed.

Lemma joined_solid (sep : char) (gs : list jsstring) :
  isS sep = false -> Forall letters gs -> solid (joined sep gs).
Proof.
  intros Hsep Hgs. unfold joined.
  induction Hgs as [|g gs [_ Hg] Hgs IH]; [constructor|]. simpl.
  constructor; [exact Hsep|]. apply Forall_app. split; [|exact IH].
  eapply Forall_impl; [exact Hg | exact LN_solid].
Qed.

Lemma joined_halts (sep : char) (gs : list jsstring) (rest : jsstring) :
  isLN sep = false -> halts isLN rest -> halts isLN (joined sep gs ++ rest).
Proof. intros Hsep Hrest. destruct gs as [|g gs]; [exact Hrest | exact Hsep]. Qed.

Lemma punct_halts (trail : jsstring) :
  Forall (fun c => is_punct c = true) trail -> halts isLN trail.
Proof. destruct 1 as [|c trail Hc _]; [done | by apply punct_plain]. Qed.

Lemma punct_closes (sep : char) (trail : jsstring) :
  Forall (fun c => is_punct c = true) trail -> closes sep trail.
Proof.
  destruct 1 as [|c trail Hc Ht]; [done|]. split; [by apply punct_plain|].
  intros _. destruct Ht as [|d trail Hd _]; [done | by apply punct_plain].
Qed.

(** The third alternative on a run followed by punctuation: it matches
    the run and stops. *)
Lemma match_word_run (head : jsstring) (ags dgs : list jsstring)
    (trail : jsstring) :
  letters head -> Forall letters ags -> Forall letters dgs ->
  Forall (fun c => is_punct c = true) trail ->
  match_word (head ++ joined APOS ags ++ joined DOT dgs ++ trail)
  = Some (head ++ joined APOS ags ++ joined DOT dgs).
Proof.
  intros [Hne Hhead] Hags Hdgs Htrail. unfold match_word.
  rewrite take_while_app_halts; [|exact Hhead|].
  2:{ apply joined_halts; [exact apos_not_LN|].
      apply joined_halts; [exact dot_not_LN | by apply punct_halts]. }
  destruct head as [|c head]; [done|].
  rewrite drop_app_length.
  rewrite sep_groups_joined; [|exact apos_not_LN | exact Hags|].
  2:{ destruct dgs as [|g dgs].
      - by apply punct_closes.
      - split; [exact dot_not_LN | done]. }
  rewrite drop_app_length.
  rewrite sep_groups_joined;
    [reflexivity | exact dot_not_LN | exact Hdgs | by apply punct_closes].
Qed.

Lemma update_last_snoc (f : Token -> Token) (output : list Token)
    (x : Token) :
  update_last f (output ++ [x]) = output ++ [f x].
Proof.
  induction output as [|y output IH]; [reflexivity|]. simpl.
  destruct (output ++ [x]) eqn:E; [by destruct output|].
  by rewrite IH.
Qed.

(** Punctuation goes to the token pushed last. *)
Lemma push_punctuation (output : list Token) (x : Token) (t : jsstring) :
  isWordLike t = false ->
  push_token (output ++ [x]) t = output ++ [append_word t x].
Proof.
  intros Ht. unfold push_token. rewrite Ht.
  destruct (output ++ [x]) eqn:E; [by destruct output|].
  rewrite <- E. apply update_last_snoc.
Qed.

(** The matches of the scanner on such a text, pushed on any output:
    one new token that holds the run and the punctuation after it. *)
Lemma push_word_run (head : jsstring) (ags dgs : list jsstring)
    (trail : jsstring) (output : list Token) :
  letters head -> Forall letters ags -> Forall letters dgs ->
  Forall (fun c => is_punct c = true) trail ->
  fold_left push_token
    (str_match (head ++ joined APOS ags ++ joined DOT dgs ++ trail)) output
  = output
    ++ [mkToken (head ++ joined APOS ags ++ joined DOT dgs ++ trail) false].
Proof.
  intros Hhead Hags Hdgs Htrail.
  pose proof (match_word_run head ags dgs trail Hhead Hags Hdgs Htrail)
    as Hword.
  set (w := head ++ joined APOS ags ++ joined DOT dgs) in *.
  assert (Hs : head ++ joined APOS ags ++ joined DOT dgs ++ trail
               = w ++ trail) by (unfold w; by rewrite <- !app_assoc).
  rewrite Hs in *.
  assert (Hsolid : solid (w ++ trail)).
  { unfold w. destruct Hhead as [_ Hh].
    repeat apply Forall_app_2.
    - eapply Forall_impl; [exact Hh | exact LN_solid].
    - apply joined_solid; [exact apos_not_S | exact Hags].
    - apply joined_solid; [exact dot_not_S | exact Hdgs].
    - eapply Forall_impl; [exact Htrail | exact punct_solid]. }
  assert (Hw : exists c w', w = c :: w' /\ isLN c = true).
  { unfold w. destruct Hhead as [Hne Hh].
    destruct Hh as [|c head Hc Hh]; [done|]. by eexists _, _. }
  destruct Hw as (c & w' & Hcw & Hc).
  assert (Hlike : forall t, isWordLike (c :: t) = true).
  { intros t. unfold isWordLike. simpl. by rewrite Hc. }
  unfold str_match.
  assert (Hcases : re_exec (w ++ trail) = Some (w ++ trail) \/
                   re_exec (w ++ trail) = Some w).
  { unfold re_exec.
    destruct (match_url (w ++ trail)) as [m|] eqn:E1.
    { left. by rewrite (match_url_solid _ _ Hsolid E1). }
    destruct (match_www (w ++ trail)) as [m|] eqn:E2.
    { left. by rewrite (match_www_solid _ _ Hsolid E2). }
    right. by rewrite Hword. }
  destruct Hcases as [Hall | Hrun].
  - rewrite Hcw in *. simpl app in *.
    rewrite <- (app_nil_r (w' ++ trail)) at 1.
    rewrite match_all_hit by (by rewrite app_nil_r).
    simpl. unfold push_token. by rewrite Hlike.
  - rewrite Hcw in *. simpl app in *.
    rewrite match_all_hit by exact Hrun.
    simpl. unfold push_token at 2. rewrite Hlike.
    destruct Htrail as [|d trail Hd Htrail]; [by rewrite app_nil_r|].
    assert (Hplain : Forall (fun x => plain x = true) (d :: trail)).
    { constructor.
      - unfold plain. by rewrite (punct_plain d Hd).
      - eapply Forall_impl; [exact Htrail|]. intros x Hx. unfold plain.
        by rewrite (punct_plain x Hx). }
    rewrite <- (app_nil_r trail) at 1.
    rewrite match_all_hit.
    2:{ rewrite app_nil_r, (re_exec_plain _ Hplain). unfold match_punct.
        rewrite take_while_all; [reflexivity|]. by constructor. }
    simpl. by rewrite push_punctuation by (apply isWordLike_plain, Hplain).
Qed.

(** ** White space separates the matches *)

Lemma take_while_before (p : char -> bool) (a b : jsstring) (c : char) :
  p c = false -> take_while p (a ++ c :: b) = take_while p a.
Proof.
  intros Hc. induction a as [|x a IH]; simpl; [by rewrite Hc|].
  destruct (p x); [by rewrite IH | reflexivity].
Qed.

Lemma take_while_prefix (p : char -> bool) (s : jsstring) :
  exists r, s = take_while p s ++ r.
Proof.
  induction s as [|c s [r IH]]; [by exists []|]. simpl.
  destruct (p c); [exists r; simpl; by rewrite <- IH | by eexists].
Qed.

Lemma strip_prefix_before (p a b : jsstring) (sp : char) :
  isS sp = true -> Forall (fun c => isS c = false) p ->
  strip_prefix p (a ++ sp :: b) = (fun r => r ++ sp :: b) <$> strip_prefix p a.
Proof.
  intros Hsp Hp. revert a.
  induction Hp as [|x p Hx Hp IH]; intros a; [reflexivity|].
  destruct a as [|y a]; simpl.
  - destruct (N.eqb x sp) eqn:E; [|reflexivity].
    apply N.eqb_eq in E. subst x. congruence.
  - destruct (N.eqb x y); [apply IH | reflexivity].
Qed.

Lemma letter_solid (c : char) : is_ascii_alpha c = true -> isS c = false.
Proof. intros Hc. apply LN_solid. unfold isLN. by rewrite (L_ascii_alpha c Hc). Qed.

Lemma http_solid : solid (js "http").
Proof. repeat constructor; by apply letter_solid. Qed.

Lemma www_solid : solid (js "www.").
Proof.
  repeat constructor; try (by apply letter_solid). exact dot_not_S.
Qed.

Lemma scheme_solid : solid (js "://").
Proof.
  repeat constructor; [exact colon_not_S | exact slash_not_S | exact slash_not_S].
Qed.

Lemma url_tail_before (pre r b : jsstring) (sp : char) :
  isS sp = true -> url_tail pre (r ++ sp :: b) = url_tail pre r.
Proof.
  intros Hsp. unfold url_tail.
  rewrite (strip_prefix_before _ _ _ _ Hsp scheme_solid).
  destruct (strip_prefix (js "://") r) as [r'|]; [|reflexivity]. simpl.
  rewrite take_while_before; [reflexivity|]. unfold non_space. by rewrite Hsp.
Qed.

Lemma match_url_before (a b : jsstring) (sp : char) :
  isS sp = true -> match_url (a ++ sp :: b) = match_url a.
Proof.
  intros Hsp. unfold match_url.
  rewrite (strip_prefix_before _ _ _ _ Hsp http_solid).
  destruct (strip_prefix (js "http") a) as [r|]; [|reflexivity]. simpl.
  destruct r as [|c r']; simpl.
  - assert (Hs : N.eqb sp 115 = false).
    { apply N.eqb_neq. intros ->.
      rewrite (letter_solid 115%N) in Hsp by reflexivity. discriminate. }
    rewrite Hs. apply (url_tail_before (js "http") [] b sp Hsp).
  - rewrite (url_tail_before _ r' b sp Hsp).
    by rewrite (url_tail_before _ (c :: r') b sp Hsp).
Qed.

Lemma match_www_before (a b : jsstring) (sp : char) :
  isS sp = true -> match_www (a ++ sp :: b) = match_www a.
Proof.
  intros Hsp. unfold match_www.
  rewrite (strip_prefix_before _ _ _ _ Hsp www_solid).
  destruct (strip_prefix (js "www.") a) as [r|]; [|reflexivity]. simpl.
  rewrite take_while_before; [reflexivity|]. unfold non_space. by rewrite Hsp.
Qed.

Lemma starts_LN_before (a b : jsstring) (sp : char) :
  isS sp = true -> starts_LN (a ++ sp :: b) = starts_LN a.
Proof. intros Hsp. destruct a; [exact (S_not_LN sp Hsp) | reflexivity]. Qed.

Lemma sep_groups_before (sep : char) (in_run : bool) (a b : jsstring)
    (sp : char) :
  isS sp = true -> isS sep = false ->
  sep_groups sep in_run (a ++ sp :: b) = sep_groups sep in_run a.
Proof.
  intros Hsp Hsep. revert in_run.
  induction a as [|c a IH]; intros in_run; simpl.
  - rewrite (S_not_LN sp Hsp), andb_false_r.
    destruct (N.eqb sp sep) eqn:E; [|reflexivity].
    apply N.eqb_eq in E. congruence.
  - rewrite (starts_LN_before a b sp Hsp), !IH. reflexivity.
Qed.

Lemma sep_groups_prefix (sep : char) (in_run : bool) (s : jsstring) :
  exists r, s = sep_groups sep in_run s ++ r.
Proof.
  revert in_run. induction s as [|c s IH]; intros in_run; [by exists []|].
  simpl. destruct (in_run && isLN c).
  - destruct (IH true) as [r Hr]. exists r. simpl. by rewrite <- Hr.
  - destruct (N.eqb c sep && starts_LN s); [|by eexists].
    destruct (IH true) as [r Hr]. exists r. simpl. by rewrite <- Hr.
Qed.

Lemma drop_prefix_before {A} (m r b : list A) :
  drop (length m) ((m ++ r) ++ b) = drop (length m) (m ++ r) ++ b.
Proof. by rewrite <- app_assoc, !drop_app_length. Qed.

Lemma match_word_before (a b : jsstring) (sp : char) :
  isS sp = true -> match_word (a ++ sp :: b) = match_word a.
Proof.
  intros Hsp. unfold match_word.
  rewrite take_while_before by exact (S_not_LN sp Hsp).
  destruct (take_while_prefix isLN a) as [r1 Hr1].
  destruct (take_while isLN a) as [|c run] eqn:Erun; [reflexivity|].
  rewrite Hr1, drop_prefix_before, drop_app_length.
  rewrite (sep_groups_before APOS false r1 b sp Hsp apos_not_S).
  destruct (sep_groups_prefix APOS false r1) as [r2 Hr2].
  remember (sep_groups APOS false r1) as g1 eqn:Eg1. clear Eg1.
  rewrite Hr2, drop_prefix_before, drop_app_length.
  by rewrite (sep_groups_before DOT false r2 b sp Hsp dot_not_S).
Qed.

Lemma match_punct_before (a b : jsstring) (sp : char) :
  isS sp = true -> match_punct (a ++ sp :: b) = match_punct a.
Proof.
  intros Hsp. unfold match_punct.
  rewrite take_while_before; [reflexivity|].
  unfold is_punct. by rewrite Hsp, andb_false_r.
Qed.

Lemma re_exec_before (a b : jsstring) (sp : char) :
  isS sp = true -> re_exec (a ++ sp :: b) = re_exec a.
Proof.
  intros Hsp. unfold re_exec.
  by rewrite match_url_before, match_www_before, match_word_before,
    match_punct_before.
Qed.

(** Computes the lengths of the literals of the pattern. *)
Ltac literal_lengths :=
  cbn [length] in *;
  repeat match goal with
         | |- context [length (js ?x)] =>
             let n := eval vm_compute in (length (js x)) in
             change (length (js x)) with n
         | H : context [length (js ?x)] |- _ =>
             let n := eval vm_compute in (length (js x)) in
             change (length (js x)) with n in H
         end.

(** A match is never longer than the text it starts. *)
Lemma re_exec_length (s m : jsstring) :
  re_exec s = Some m -> (length m <= length s)%nat.
Proof.
  unfold re_exec.
  assert (Htail : forall pre r x, url_tail pre r = Some x ->
            (length x <= length pre + length r)%nat).
  { intros pre r x. unfold url_tail.
    destruct (strip_prefix (js "://") r) as [r'|] eqn:E; [|done].
    apply strip_prefix_app in E. subst r.
    destruct (take_while_prefix non_space r') as [t Ht].
    destruct (take_while non_space r'); [done|]. intros [= <-].
    rewrite Ht, !length_app. literal_lengths. lia. }
  destruct (match_url s) as [x|] eqn:E1.
  { intros [= <-]. unfold match_url in E1.
    destruct (strip_prefix (js "http") s) as [r|] eqn:E; [|done].
    apply strip_prefix_app in E. subst s. rewrite length_app.
    destruct r as [|c r']; [done|].
    destruct (N.eqb c 115).
    - destruct (url_tail (js "https") r') eqn:E2.
      + injection E1 as <-. apply Htail in E2. literal_lengths. lia.
      + apply Htail in E1. literal_lengths. lia.
    - apply Htail in E1. literal_lengths. lia. }
  destruct (match_www s) as [x|] eqn:E2.
  { intros [= <-]. unfold match_www in E2.
    destruct (strip_prefix (js "www.") s) as [r|] eqn:E; [|done].
    apply strip_prefix_app in E. subst s.
    destruct (take_while_prefix non_space r) as [t Ht].
    destruct (take_while non_space r); [done|]. injection E2 as <-.
    rewrite Ht, !length_app. literal_lengths. lia. }
  destruct (match_word s) as [x|] eqn:E3.
  { intros [= <-]. unfold match_word in E3.
    destruct (take_while_prefix isLN s) as [r1 Hr1].
    destruct (take_while isLN s) as [|c run]; [done|]. injection E3 as <-.
    assert (Hd : drop (S (length run)) s = r1)
      by (rewrite Hr1; apply (drop_app_length (c :: run))).
    rewrite Hd, Hr1.
    destruct (sep_groups_prefix APOS false r1) as [r2 Hr2].
    remember (sep_groups APOS false r1) as g1 eqn:Eg1. clear Eg1.
    rewrite Hr2, drop_app_length.
    destruct (sep_groups_prefix DOT false r2) as [r3 Hr3].
    remember (sep_groups DOT false r2) as g2 eqn:Eg2. clear Eg2.
    rewrite Hr3. literal_lengths. rewrite !length_app. literal_lengths. lia. }
  unfold match_punct.
  destruct (take_while_prefix is_punct s) as [t Ht].
  destruct (take_while is_punct s); [done|]. intros [= <-].
  rewrite Ht, length_app. lia.
Qed.

Lemma match_all_before (a b : jsstring) (sp : char) (skip : nat) :
  isS sp = true -> (skip <= length a)%nat ->
  match_all skip (a ++ sp :: b) = match_all skip a ++ match_all 0 b.
Proof.
  intros Hsp. revert skip.
  induction a as [|c a IH]; intros skip Hskip.
  - assert (skip = 0%nat) as -> by (simpl in Hskip; lia).
    change (match_all 0 ([] ++ sp :: b))
      with (match re_exec ([] ++ sp :: b) with
            | Some m => m :: match_all (length m - 1) b
            | None => match_all 0 b
            end).
    by rewrite (re_exec_before [] b sp Hsp).
  - destruct skip as [|k]; [|apply IH; simpl in Hskip; lia].
    change (match_all 0 ((c :: a) ++ sp :: b))
      with (match re_exec ((c :: a) ++ sp :: b) with
            | Some m => m :: match_all (length m - 1) (a ++ sp :: b)
            | None => match_all 0 (a ++ sp :: b)
            end).
    change (match_all 0 (c :: a))
      with (match re_exec (c :: a) with
            | Some m => m :: match_all (length m - 1) a
            | None => match_all 0 a
            end).
    rewrite (re_exec_before (c :: a) b sp Hsp).
    destruct (re_exec (c :: a)) as [m|] eqn:E.
    + apply re_exec_length in E. simpl in E.
      rewrite IH by lia. reflexivity.
    + apply IH. lia.
Qed.

Lemma str_match_before (a b : jsstring) (sp : char) :
  isS sp = true -> str_match (a ++ sp :: b) = str_match a ++ str_match b.
Proof. intros Hsp. apply match_all_before; [exact Hsp | lia]. Qed.

(** C9, as the code has it.  A run of letters and digits whose groups
    are joined first by apostrophes and then by single dots (every
    apostrophe before the first dot), together with the punctuation
    that follows it, is one token.  It is the only token when it is the
    whole input.  Within a paragraph the scanner pushes it as one new
    token, with the tokens of the text before it in front and those of
    the text after it behind, wherever it stands: between white space,
    as the first word (white space after it only), as the last word
    (white space before it only), and as the only word. *)
Theorem word_run_is_one_token (head : jsstring) (ags dgs : list jsstring)
    (trail : jsstring) :
  letters head -> Forall letters ags -> Forall letters dgs ->
  Forall (fun c => is_punct c = true) trail ->
  let run := head ++ joined APOS ags ++ joined DOT dgs ++ trail in
  tokenize run = [mkToken run false] /\
  (forall (pre post : jsstring) (sp1 sp2 : char) (output : list Token),
    isS sp1 = true -> isS sp2 = true ->
    fold_left push_token
      (str_match (pre ++ sp1 :: run ++ sp2 :: post)) output
    = fold_left push_token (str_match post)
        (fold_left push_token (str_match pre) output
         ++ [mkToken run false])%list) /\
  (forall (post : jsstring) (sp2 : char) (output : list Token),
    isS sp2 = true ->
    fold_left push_token (str_match (run ++ sp2 :: post)) output
    = fold_left push_token (str_match post)
        (output ++ [mkToken run false])%list) /\
  (forall (pre : jsstring) (sp1 : char) (output : list Token),
    isS sp1 = true ->
    fold_left push_token (str_match (pre ++ sp1 :: run)) output
    = (fold_left push_token (str_match pre) output
       ++ [mkToken run false])%list) /\
  (forall output : list Token,
    fold_left push_token (str_match run) output
    = (output ++ [mkToken run false])%list).
Proof.
  intros Hhead Hags Hdgs Htrail run.
  pose proof (fun out =>
    push_word_run head ags dgs trail out Hhead Hags Hdgs Htrail) as Hpush.
  fold run in Hpush.
  assert (Hsolid : solid run).
  { unfold run. destruct Hhead as [_ Hh].
    repeat apply Forall_app_2.
    - eapply Forall_impl; [exact Hh | exact LN_solid].
    - apply joined_solid; [exact apos_not_S | exact Hags].
    - apply joined_solid; [exact dot_not_S | exact Hdgs].
    - eapply Forall_impl; [exact Htrail | exact punct_solid]. }
  assert (Hne : run <> []).
  { unfold run. destruct Hhead as [Hne _]. by destruct head. }
  clearbody run. split; [|split; [|split; [|split]]].
  - unfold tokenize.
    rewrite (normalize_solid run Hsolid), (split_paragraphs_solid run Hsolid).
    change (paragraphs_loop (length [run]) 0 [run] [])
      with (paragraph_step 1 [] 0 run).
    unfold paragraph_step. rewrite (trim_solid run Hsolid).
    specialize (Hpush []). destruct run as [|c l]; [done|].
    rewrite Hpush. reflexivity.
  - intros pre post sp1 sp2 output H1 H2.
    rewrite (str_match_before pre _ sp1 H1).
    rewrite (str_match_before run post sp2 H2).
    by rewrite !fold_left_app, Hpush.
  - intros post sp2 output H2.
    rewrite (str_match_before run post sp2 H2).
    by rewrite fold_left_app, Hpush.
  - intros pre sp1 output H1.
    rewrite (str_match_before pre run sp1 H1).
    by rewrite fold_left_app, Hpush.
  - exact Hpush.
Qed.

End WordRuns.

(** "don't" and "e.g." alone, and "don't" as the first and as the last
    word of a paragraph. *)
Lemma word_run_is_one_token_witness :
  tokenize (js "don't") = [mkToken (js "don't") false] /\
  tokenize (js "e.g.") = [mkToken (js "e.g.") false] /\
  fold_left push_token (str_match (js "don't stop")) []
  = fold_left push_token (str_match (js "stop")) [mkToken (js "don't") false] /\
  fold_left push_token (str_match (js "they don't")) []
  = (fold_left push_token (str_match (js "they")) []
     ++ [mkToken (js "don't") false])%list.
Proof.
  assert (Hs : isS SPACE = true) by reflexivity.
  split; [|split; [|split]].
  - apply (word_run_is_one_token (js "don") [js "t"] [] []);
      repeat constructor; discriminate.
  - apply (word_run_is_one_token (js "e") [] [js "g"] (js "."));
      repeat constructor; discriminate.
  - refine (proj1 (proj2 (proj2 (word_run_is_one_token (js "don") [js "t"] [] []
              _ _ _ _))) (js "stop") SPACE [] Hs);
      repeat constructor; discriminate.
  - refine (proj1 (proj2 (proj2 (proj2 (word_run_is_one_token (js "don")
              [js "t"] [] [] _ _ _ _)))) (js "they") SPACE [] Hs);
      repeat constructor; discriminate.
Defined.

(** C9 as the specification states it fails: in "U.S.A's" and in
    "a.b'c" the letters are joined by single dots and then by an
    apostrophe, and each is split after the apostrophe. *)
Lemma dot_then_apostrophe_splits :
  tokenize (js "U.S.A's")
  = [mkToken (js "U.S.A'") false; mkToken (js "s") false] /\
  tokenize (js "a.b'c")
  = [mkToken (js "a.b'") false; mkToken (js "c") false].
Proof. vm_compute. split; reflexivity. Qed.

End WordRunFacts.

(* ================================================================== *)
(** * More properties: bounds of the pacing engine *)
(* ================================================================== *)

Module PacingBounds.
Import Pacing.

Lemma Qmax_ge_l (a b : Q) : (a <= Qmax a b)%Q.
Proof.
  unfold Qmax. destruct (Qle_bool a b) eqn:E; [|apply Qle_refl].
  by apply Qle_bool_iff.
Qed.

Lemma Qmax_le (x a b : Q) : (a <= x)%Q -> (b <= x)%Q -> (Qmax a b <= x)%Q.
Proof. unfold Qmax. by destruct (Qle_bool a b). Qed.

(** A boost of the multiplier keeps it between 1 and 4 when the
    profile's factor is at most 4. *)
Lemma boost_bounds (b : bool) (x f : Q) :
  (1 <= x)%Q /\ (x <= 4)%Q -> (f <= 4)%Q ->
  (1 <= (if b then Qmax x f else x))%Q /\
  ((if b then Qmax x f else x) <= 4)%Q.
Proof.
  intros [H1 H4] Hf. destruct b; [|by split]. split.
  - eapply Qle_trans; [exact H1 | apply Qmax_ge_l].
  - by apply Qmax_le.
Qed.

(** The factors of the three profiles are at most 4 and their minimum
    times at most 400 ms. *)
Definition tame (p : PauseProfile) : Prop :=
  (sentence p <= 4)%Q /\ (comma p <= 4)%Q /\ (paragraph p <= 4)%Q /\
  (longWord p <= 4)%Q /\ (number p <= 4)%Q /\
  0 <= minSentenceMs p <= 400 /\ 0 <= minCommaMs p <= 400.

Lemma active_profile_cases (key : string) :
  getActiveProfile key = relaxed \/ getActiveProfile key = normal \/
  getActiveProfile key = speed.
Proof.
  unfold getActiveProfile, PAUSE_PROFILES.
  destruct (decide (key = "relaxed")) as [->|H1];
    [left; by rewrite lookup_insert_eq|].
  rewrite lookup_insert_ne by done.
  destruct (decide (key = "normal")) as [->|H2];
    [right; left; by rewrite lookup_insert_eq|].
  rewrite lookup_insert_ne by done.
  destruct (decide (key = "speed")) as [->|H3];
    [right; right; by rewrite lookup_insert_eq|].
  rewrite lookup_insert_ne by done. rewrite lookup_empty. by right; left.
Qed.

Lemma active_profile_tame (key : string) : tame (getActiveProfile key).
Proof.
  destruct (active_profile_cases key) as [-> | [-> | ->]];
    unfold tame, Qle; simpl; lia.
Qed.

Section WithTables.
Context `{UnicodeTables}.

Lemma multiplier_bounds (p : PauseProfile) (token : Token) :
  tame p ->
  (1 <= multiplierFor p token)%Q /\ (multiplierFor p token <= 4)%Q.
Proof.
  intros (Hs & Hc & Hp & Hl & Hn & _). unfold multiplierFor.
  apply boost_bounds; [|exact Hp].
  apply boost_bounds; [|exact Hn].
  apply boost_bounds; [|exact Hl].
  destruct (ends_sentence (word token)).
  - apply (boost_bounds true); [|exact Hs]. split; unfold Qle; simpl; lia.
  - destruct (ends_comma (word token)).
    + apply (boost_bounds true); [|exact Hc]. split; unfold Qle; simpl; lia.
    + split; unfold Qle; simpl; lia.
Qed.

(** The dwell as a function of the base interval. *)
Definition dwell_of (profile : PauseProfile) (token : Token) (base : Z) : Z :=
  let dwell := Qfloor (inject_Z base * multiplierFor profile token) in
  if ends_sentence (word token) then Z.max dwell (minSentenceMs profile)
  else if ends_comma (word token) then Z.max dwell (minCommaMs profile)
  else dwell.

Lemma dwellMsForToken_dwell_of (rate : Q) (key : string) (token : Token) :
  dwellMsForToken rate key token
  = dwell_of (getActiveProfile key) token <$> baseIntervalMs rate.
Proof.
  unfold dwellMsForToken. by destruct (baseIntervalMs rate).
Qed.

Lemma floor_scaled (base : Z) (m : Q) :
  0 <= base -> (1 <= m)%Q -> (m <= 4)%Q ->
  base <= Qfloor (inject_Z base * m) <= 4 * base.
Proof.
  intros Hb H1 H4.
  assert (Hb' : (0 <= inject_Z base)%Q) by (unfold Qle; simpl; lia).
  split.
  - rewrite <- (Qfloor_Z base) at 1. apply Qfloor_resp_le.
    rewrite <- (Qmult_1_r (inject_Z base)) at 1.
    rewrite (Qmult_comm (inject_Z base) 1), (Qmult_comm (inject_Z base) m).
    by apply Qmult_le_compat_r.
  - rewrite <- (Qfloor_Z (4 * base)). apply Qfloor_resp_le.
    rewrite inject_Z_mult.
    rewrite (Qmult_comm (inject_Z base) m).
    by apply Qmult_le_compat_r.
Qed.

Lemma dwell_of_bounds (p : PauseProfile) (token : Token) (base : Z) :
  tame p -> 0 <= base ->
  base <= dwell_of p token base <= Z.max (4 * base) 400.
Proof.
  intros Hp Hb.
  destruct (multiplier_bounds p token Hp) as [H1 H4].
  pose proof (floor_scaled base _ Hb H1 H4) as Hf.
  destruct Hp as (_ & _ & _ & _ & _ & Hs & Hc).
  unfold dwell_of.
  destruct (ends_sentence (word token)); [lia|].
  destruct (ends_comma (word token)); lia.
Qed.

Lemma dwell_of_mono (p : PauseProfile) (token : Token) (b1 b2 : Z) :
  tame p -> b1 <= b2 -> dwell_of p token b1 <= dwell_of p token b2.
Proof.
  intros Hp Hb.
  destruct (multiplier_bounds p token Hp) as [H1 _].
  assert (Hf : Qfloor (inject_Z b1 * multiplierFor p token)
               <= Qfloor (inject_Z b2 * multiplierFor p token)).
  { apply Qfloor_resp_le, Qmult_le_compat_r.
    - by rewrite <- Zle_Qle.
    - eapply Qle_trans; [|exact H1]. unfold Qle; simpl; lia. }
  unfold dwell_of.
  destruct (ends_sentence (word token)); [lia|].
  destruct (ends_comma (word token)); lia.
Qed.

Lemma positive_rate (rate : Q) : (0 < rate)%Q -> Qle_bool rate 0 = false.
Proof.
  intros Hr. destruct (Qle_bool rate 0) eqn:E; [|reflexivity].
  apply Qle_bool_iff in E. exfalso. by apply (Qlt_not_le 0 rate).
Qed.

(** X1.  For a positive rate, every profile key that selects a profile
    (a key of [PAUSE_PROFILES], or a key found nowhere) and every token,
    the base interval is at least 1 ms and the dwell is defined, at
    least the base interval, and at most the larger of four base
    intervals and 400 ms. *)
Theorem dwell_bounds (rate : Q) (key : string) (token : Token) :
  own_or_absent key = true ->
  (0 < rate)%Q ->
  exists base d,
    baseIntervalMs rate = Some base /\
    dwellMsForToken rate key token = Some d /\
    1 <= base /\ base <= d /\ d <= Z.max (4 * base) 400.
Proof.
  intros _ Hr. rewrite dwellMsForToken_dwell_of. unfold baseIntervalMs.
  rewrite (positive_rate rate Hr).
  set (base := Z.max 1 (Qfloor (60000 / rate))).
  exists base, (dwell_of (getActiveProfile key) token base).
  split; [reflexivity|]. split; [reflexivity|].
  assert (Hb : 1 <= base) by (unfold base; lia).
  pose proof (dwell_of_bounds (getActiveProfile key) token base
                (active_profile_tame key)) as Hd.
  lia.
Qed.

Lemma base_interval_antitone (r1 r2 : Q) :
  (0 < r1)%Q -> (r1 <= r2)%Q ->
  Z.max 1 (Qfloor (60000 / r2)) <= Z.max 1 (Qfloor (60000 / r1)).
Proof.
  intros H1 H12.
  assert (H2 : (0 < r2)%Q) by (eapply Qlt_le_trans; eauto).
  apply Z.max_le_compat_l, Qfloor_resp_le.
  apply Qle_shift_div_r; [exact H2|].
  apply Qle_trans with (60000 / r1 * r1)%Q.
  - unfold Qdiv. rewrite <- Qmult_assoc, (Qmult_comm (/ r1) r1).
    rewrite Qmult_inv_r, Qmult_1_r; [apply Qle_refl|].
    intros E. rewrite E in H1. by apply (Qlt_irrefl 0).
  - rewrite (Qmult_comm (60000 / r1) r1), (Qmult_comm (60000 / r1) r2).
    apply Qmult_le_compat_r; [exact H12|].
    apply Qle_shift_div_l; [exact H1|]. unfold Qle; simpl; lia.
Qed.

(** X2.  A faster rate never lengthens the display of a token: for
    positive rates [r1 <= r2], the dwell at [r2] is at most the dwell at
    [r1], whatever the token and the profile the key selects (a key of
    [PAUSE_PROFILES], or a key found nowhere). *)
Theorem dwell_antitone_in_rate (r1 r2 : Q) (key : string) (token : Token) :
  own_or_absent key = true ->
  (0 < r1)%Q -> (r1 <= r2)%Q ->
  exists d1 d2,
    dwellMsForToken r1 key token = Some d1 /\
    dwellMsForToken r2 key token = Some d2 /\
    d2 <= d1.
Proof.
  intros _ H1 H12.
  assert (H2 : (0 < r2)%Q) by (eapply Qlt_le_trans; eauto).
  rewrite !dwellMsForToken_dwell_of. unfold baseIntervalMs.
  rewrite (positive_rate r1 H1), (positive_rate r2 H2).
  eexists _, _. split; [reflexivity|]. split; [reflexivity|].
  apply dwell_of_mono; [apply active_profile_tame|].
  by apply base_interval_antitone.
Qed.

End WithTables.

Lemma dwell_bounds_witness :
  exists base d,
    baseIntervalMs 333.3 = Some base /\
    dwellMsForToken 333.3 "speed" (mkToken (js "extraordinary,") true)
    = Some d /\
    1 <= base /\ base <= d /\ d <= Z.max (4 * base) 400.
Proof.
  apply (dwell_bounds 333.3 "speed" (mkToken (js "extraordinary,") true)).
  - reflexivity.
  - reflexivity.
Defined.

Lemma dwell_antitone_in_rate_witness :
  exists d1 d2,
    dwellMsForToken 250 "relaxed" (mkToken (js "2024.") false) = Some d1 /\
    dwellMsForToken 900 "relaxed" (mkToken (js "2024.") false) = Some d2 /\
    d2 <= d1.
Proof.
  apply (dwell_antitone_in_rate 250 900 "relaxed"
           (mkToken (js "2024.") false)).
  - reflexivity.
  - reflexivity.
  - unfold Qle; simpl; lia.
Defined.

End PacingBounds.


(* ================================================================== *)
(** * More properties: a session on a static text *)
(* ================================================================== *)

Module ControlsFacts.
Import Loader Pacing Scheduler Controls.

(** The cursor is inside a non-empty static text. *)
Record InText (a : App) : Prop := {
  in_static : isPdfMode a = false;
  in_words : words a <> [];
  in_index : 0 <= index a <= last_index a
}.

(** The state of a static-text session is sound: the cursor is inside
    the text; a timer is armed only while playing, and its delay is the
    dwell of the token under the cursor at the current rate and profile;
    and while playing at a positive rate a timer is armed. *)
Record Steady `{UnicodeTables} (a : App) : Prop := {
  st_text : InText a;
  st_timer : forall ms, timerId a = Some ms ->
             isPlaying a = true /\
             exists tok, word_at a (index a) = Some tok /\
                         dwellMsForToken (wpm a) (profileKey a) tok = Some ms;
  st_live : isPlaying a = true -> Qle_bool (wpm a) 0 = false ->
            timerId a <> None
}.

Lemma last_index_nonneg (a : App) : words a <> [] -> 0 <= last_index a.
Proof.
  unfold last_index. destruct (words a); [done|]. simpl. lia.
Qed.

Lemma word_at_inside (a : App) (i : Z) :
  0 <= i <= last_index a -> exists tok, word_at a i = Some tok.
Proof.
  unfold last_index, word_at. intros Hi.
  rewrite (proj2 (Z.ltb_ge i 0)) by lia.
  apply lookup_lt_is_Some. lia.
Qed.

Lemma advanceTo_index (i : Z) (a : App) :
  index (advanceTo i a) = Z.max 0 (Z.min (last_index a) i).
Proof. reflexivity. Qed.

Lemma advanceTo_InText (i : Z) (a : App) :
  isPdfMode a = false -> words a <> [] -> InText (advanceTo i a).
Proof.
  intros Hs Hw. pose proof (last_index_nonneg a Hw).
  split; simpl; [exact Hs | exact Hw|].
  unfold last_index in *. simpl. lia.
Qed.

Section WithTables.
Context `{UnicodeTables}.

Lemma dwell_defined (rate : Q) (key : string) (tok : Token) :
  Qle_bool rate 0 = false ->
  exists ms, dwellMsForToken rate key tok = Some ms.
Proof.
  intros Hr. unfold dwellMsForToken, baseIntervalMs. rewrite Hr. by eexists.
Qed.

Lemma dwell_undefined (rate : Q) (key : string) (tok : Token) :
  dwellMsForToken rate key tok = None -> Qle_bool rate 0 = true.
Proof.
  unfold dwellMsForToken, baseIntervalMs.
  by destruct (Qle_bool rate 0).
Qed.

(** [scheduleNext] on a static text with no timer armed. *)
Lemma scheduleNext_static (fresh : Waiter) (a : App) :
  InText a -> timerId a = None ->
  scheduleNext fresh a
  = if negb (isPlaying a) then (a, NotPlaying)
    else if negb (loopEnabled a) && (last_index a <=? index a)
    then (pause a, Stopped)
    else match word_at a (index a) with
         | Some token =>
             match dwellMsForToken (wpm a) (profileKey a) token with
             | Some ms => (with_timer (Some ms) a, Armed ms)
             | None => (a, NoDwell)
             end
         | None => (a, NoDwell)
         end.
Proof.
  intros [Hs Hw Hi] Ht. unfold scheduleNext. rewrite Hs.
  destruct (negb (isPlaying a)); [reflexivity|].
  destruct (negb (loopEnabled a) && (last_index a <=? index a));
    [reflexivity|].
  destruct (word_at_inside a (index a) Hi) as [tok ->]. reflexivity.
Qed.

Lemma scheduleNext_steady (fresh : Waiter) (a : App) :
  InText a -> timerId a = None -> Steady (fst (scheduleNext fresh a)).
Proof.
  intros Hin Ht. rewrite (scheduleNext_static fresh a Hin Ht).
  destruct (isPlaying a) eqn:Hp; simpl.
  2:{ split; [exact Hin | | ]; [intros ms; by rewrite Ht | by rewrite Hp]. }
  destruct (negb (loopEnabled a) && (last_index a <=? index a)); simpl.
  { destruct Hin. split; [by split | done | done]. }
  destruct (word_at_inside a (index a) (in_index a Hin)) as [tok Htok].
  rewrite Htok.
  destruct (dwellMsForToken (wpm a) (profileKey a) tok) as [ms|] eqn:Hd;
    simpl.
  - destruct Hin. split; [by split | | done].
    intros ms' [= <-]. split; [exact Hp|]. by exists tok.
  - split; [exact Hin | intros ms; by rewrite Ht|].
    intros _ Hr. apply dwell_undefined in Hd. congruence.
Qed.

Lemma Steady_no_timer (a : App) :
  InText a -> timerId a = None ->
  (isPlaying a = true -> Qle_bool (wpm a) 0 = true) -> Steady a.
Proof.
  intros Hin Ht Hp. split; [exact Hin | intros ms; by rewrite Ht|].
  intros Hplay Hr. rewrite (Hp Hplay) in Hr. discriminate.
Qed.

Lemma InText_stopLoop (a : App) : InText a -> InText (stopLoop a).
Proof. intros []. by split. Qed.

Lemma setPlaying_steady (fresh : Waiter) (v : bool) (a : App) :
  InText a -> Steady (fst (setPlaying fresh v a)).
Proof.
  intros Hin. unfold setPlaying.
  assert (Hin' : InText (stopLoop (with_playing v a)))
    by (destruct Hin; by split).
  destruct (v && negb (Qle_bool (wpm (stopLoop (with_playing v a))) 0))
    eqn:E.
  - by apply scheduleNext_steady.
  - apply Steady_no_timer; [exact Hin' | reflexivity|]. simpl. intros ->.
    simpl in E. by apply negb_false_iff in E.
Qed.

Lemma restartIfPlaying_steady (fresh : Waiter) (a : App) :
  InText a -> (isPlaying a = false -> timerId a = None) ->
  Steady (fst (restartIfPlaying fresh a)).
Proof.
  intros Hin Hidle. unfold restartIfPlaying.
  destruct (isPlaying a) eqn:Hp; simpl.
  - apply scheduleNext_steady; [by apply InText_stopLoop | reflexivity].
  - apply Steady_no_timer; [exact Hin | by apply Hidle | congruence].
Qed.

Lemma Steady_idle (a : App) :
  Steady a -> isPlaying a = false -> timerId a = None.
Proof.
  intros Hst Hp. destruct (timerId a) as [ms|] eqn:Ht; [|reflexivity].
  destruct (st_timer a Hst ms Ht) as [Hplay _]. congruence.
Qed.

Lemma tokenize_not_nil (text : jsstring) : Tokenizer.tokenize text <> [].
Proof.
  unfold Tokenizer.tokenize.
  destruct (Tokenizer.paragraphs_loop _ 0
              (Tokenizer.split_paragraphs (Tokenizer.normalize text)) []);
    discriminate.
Qed.

Lemma setText_steady (fresh : Waiter) (text : jsstring) (a : App) :
  Steady (setText fresh text a).
Proof.
  unfold setText. apply setPlaying_steady.
  apply advanceTo_InText; [reflexivity|]. simpl. apply tokenize_not_nil.
Qed.

Lemma exec_steady (fresh : Waiter) (c : Command) (a : App) :
  Steady a -> Steady (exec fresh c a).
Proof.
  intros Hst. pose proof (st_text a Hst) as Hin.
  destruct c as [| | | | |v|key| |text]; simpl.
  - by apply setPlaying_steady.
  - destruct (timerId a) as [ms|] eqn:Ht; [|exact Hst].
    destruct (st_timer a Hst ms Ht) as [Hp _].
    unfold timer_fired. simpl. rewrite Hp. simpl.
    destruct (index a <? last_index (with_timer None a)).
    + apply scheduleNext_steady; [|reflexivity].
      destruct Hin. by apply advanceTo_InText.
    + destruct (loopEnabled a).
      * apply scheduleNext_steady; [|reflexivity].
        destruct Hin. by apply advanceTo_InText.
      * apply Steady_no_timer; [destruct Hin; by split | done | done].
  - unfold resetToStart. apply restartIfPlaying_steady.
    + destruct Hin. by apply advanceTo_InText.
    + simpl. by apply Steady_idle.
  - unfold stepBack. destruct (isPlaying a) eqn:Hp; [exact Hst|].
    apply Steady_no_timer.
    + destruct Hin. by apply advanceTo_InText.
    + simpl. by apply Steady_idle.
    + simpl. congruence.
  - unfold stepForward. destruct (isPlaying a) eqn:Hp; [exact Hst|].
    apply Steady_no_timer.
    + destruct Hin. by apply advanceTo_InText.
    + simpl. by apply Steady_idle.
    + simpl. congruence.
  - unfold applyWpm. apply restartIfPlaying_steady.
    + destruct Hin. by split.
    + simpl. by apply Steady_idle.
  - unfold setProfile. destruct (PAUSE_PROFILES !! key); [|exact Hst].
    apply restartIfPlaying_steady.
    + destruct Hin. by split.
    + simpl. by apply Steady_idle.
  - unfold toggleLoop. destruct Hst as [[] Ht Hl]. split; [by split | | ].
    + exact Ht.
    + exact Hl.
  - apply setText_steady.
Qed.

(** X3.  Once a text has been set, whatever the user does next (play or
    pause, reset, step, change the rate, the profile or the loop flag,
    set another text) and whenever the timer fires, the state stays
    sound: the cursor is inside the text, an armed timer means that the
    scheduler is playing and its delay is the dwell of the token under
    the cursor at the current rate and profile, and a scheduler that is
    playing at a positive rate has its timer armed. *)
Theorem session_stays_steady (fresh : Waiter) (text : jsstring)
    (cs : list Command) (a : App) :
  Steady (session fresh cs (setText fresh text a)).
Proof.
  assert (Hsteady : forall cs b, Steady b -> Steady (session fresh cs b)).
  { clear. intros cs. induction cs as [|c cs IH]; intros b Hb; [exact Hb|].
    apply IH. by apply exec_steady. }
  apply Hsteady, setText_steady.
Qed.

(** What [scheduleNext] leaves alone on a static text, and whether it
    keeps playing. *)
Lemma scheduleNext_static_fields (fresh : Waiter) (a : App) :
  InText a -> timerId a = None ->
  words (fst (scheduleNext fresh a)) = words a /\
  index (fst (scheduleNext fresh a)) = index a /\
  wpm (fst (scheduleNext fresh a)) = wpm a /\
  profileKey (fst (scheduleNext fresh a)) = profileKey a /\
  loopEnabled (fst (scheduleNext fresh a)) = loopEnabled a /\
  (isPlaying a = true ->
   isPlaying (fst (scheduleNext fresh a))
   = negb (negb (loopEnabled a) && (last_index a <=? index a))).
Proof.
  intros Hin Ht. rewrite (scheduleNext_static fresh a Hin Ht).
  destruct (isPlaying a) eqn:Hp; simpl; [|by repeat split].
  destruct (negb (loopEnabled a) && (last_index a <=? index a)); simpl;
    [by repeat split|].
  destruct (word_at a (index a)) as [tok|]; [|by repeat split].
  destruct (dwellMsForToken (wpm a) (profileKey a) tok);
    by repeat split.
Qed.

(** One timer callback while playing: the cursor moves to the next
    token, or from the last token back to the first when looping; at
    the last token without looping the scheduler pauses where it is. *)
Lemma fire_step (fresh : Waiter) (a : App) :
  Steady a -> isPlaying a = true -> Qle_bool (wpm a) 0 = false ->
  words (exec fresh TimerFires a) = words a /\
  wpm (exec fresh TimerFires a) = wpm a /\
  loopEnabled (exec fresh TimerFires a) = loopEnabled a /\
  index (exec fresh TimerFires a)
  = (if index a <? last_index a then index a + 1
     else if loopEnabled a then 0 else index a) /\
  isPlaying (exec fresh TimerFires a)
  = (if index a <? last_index a
     then negb (negb (loopEnabled a) && (last_index a <=? index a + 1))
     else loopEnabled a).
Proof.
  intros Hst Hp Hr. pose proof (st_text a Hst) as Hin.
  destruct (timerId a) as [ms|] eqn:Ht;
    [|by destruct (st_live a Hst Hp Hr)].
  simpl. rewrite Ht. unfold timer_fired. simpl. rewrite Hp. simpl.
  change (last_index (with_timer None a)) with (last_index a).
  destruct Hin as [Hs Hw [Hi0 Hi1]].
  destruct (index a <? last_index a) eqn:Hlt.
  - apply Z.ltb_lt in Hlt.
    set (b := advanceTo (index a + 1) (with_timer None a)).
    assert (Hb : InText b) by (by apply advanceTo_InText).
    assert (Hbi : index b = index a + 1).
    { unfold b. rewrite advanceTo_index.
      change (last_index (with_timer None a)) with (last_index a). lia. }
    destruct (scheduleNext_static_fields fresh b Hb eq_refl)
      as (-> & -> & -> & _ & -> & Hplay).
    rewrite (Hplay Hp), Hbi. by repeat split.
  - apply Z.ltb_ge in Hlt. destruct (loopEnabled a) eqn:Hl.
    + set (b := advanceTo 0 (with_timer None a)).
      assert (Hb : InText b) by (by apply advanceTo_InText).
      assert (Hbi : index b = 0).
      { unfold b. rewrite advanceTo_index.
        change (last_index (with_timer None a)) with (last_index a). lia. }
      destruct (scheduleNext_static_fields fresh b Hb eq_refl)
        as (-> & -> & -> & _ & -> & Hplay).
      rewrite (Hplay Hp), Hbi. simpl. rewrite Hl. by repeat split.
    + by repeat split.
Qed.

(** X4.  Playing a static text without looping shows every token once,
    in order: after [k] timer callbacks the cursor has moved by exactly
    [k]; before the last token the scheduler is still playing, and on
    reaching the last token it pauses with no timer armed. *)
Theorem plays_each_token_once (fresh : Waiter) (k : nat) (a : App) :
  Steady a -> isPlaying a = true -> Qle_bool (wpm a) 0 = false ->
  loopEnabled a = false -> index a + Z.of_nat k <= last_index a ->
  words (fires fresh k a) = words a /\
  index (fires fresh k a) = index a + Z.of_nat k /\
  (index a + Z.of_nat k < last_index a ->
   isPlaying (fires fresh k a) = true /\ timerId (fires fresh k a) <> None) /\
  ((0 < k)%nat -> index a + Z.of_nat k = last_index a ->
   isPlaying (fires fresh k a) = false /\ timerId (fires fresh k a) = None).
Proof.
  revert a. induction k as [|k IH]; intros a Hst Hp Hr Hl Hk.
  - simpl. rewrite Z.add_0_r. repeat split; [done| |lia|lia].
    by apply (st_live a Hst).
  - destruct (fire_step fresh a Hst Hp Hr) as (Hw & Hrate & Hloop & Hi & Hplay).
    assert (Hlt : index a < last_index a) by lia.
    rewrite (proj2 (Z.ltb_lt _ _) Hlt) in Hi, Hplay.
    rewrite Hl in Hplay. simpl in Hplay.
    pose proof (exec_steady fresh TimerFires a Hst) as Hst'.
    assert (Hlast : last_index (exec fresh TimerFires a) = last_index a)
      by (unfold last_index; by rewrite Hw).
    change (fires fresh (S k) a)
      with (fires fresh k (exec fresh TimerFires a)).
    destruct (decide (index a + 1 < last_index a)) as [Hmore|Hend].
    + rewrite (proj2 (Z.leb_gt _ _) Hmore) in Hplay.
      destruct (IH (exec fresh TimerFires a) Hst' Hplay) as (Hw' & Hi' & Hgo & Hstop).
      * by rewrite Hrate.
      * by rewrite Hloop.
      * rewrite Hi, Hlast. lia.
      * rewrite Hw', Hw, Hi', Hi, Hlast in *.
        split; [done|]. split; [lia|]. split.
        -- intros Hbefore. apply Hgo. lia.
        -- intros _ Hat. destruct k as [|k]; [lia|]. apply Hstop; lia.
    + assert (k = 0)%nat as -> by lia. cbn [fires].
      rewrite (proj2 (Z.leb_le _ _)) in Hplay by lia.
      rewrite Hw, Hi. split; [done|]. split; [lia|]. split; [lia|].
      intros _ _. split; [exact Hplay|]. by apply Steady_idle.
Qed.

(** X5.  With looping on, playing never stops by itself and the cursor
    goes round the text: after [k] timer callbacks it is at
    [(index + k) mod length]. *)
Theorem looping_wraps_around (fresh : Waiter) (k : nat) (a : App) :
  Steady a -> isPlaying a = true -> Qle_bool (wpm a) 0 = false ->
  loopEnabled a = true ->
  index (fires fresh k a)
  = (index a + Z.of_nat k) mod Z.of_nat (length (words a)) /\
  isPlaying (fires fresh k a) = true /\
  timerId (fires fresh k a) <> None.
Proof.
  revert a. induction k as [|k IH]; intros a Hst Hp Hr Hl.
  - destruct (st_text a Hst) as [_ _ Hi]. unfold last_index in Hi. simpl.
    rewrite Z.add_0_r, Z.mod_small by lia.
    split; [done|]. split; [done|]. by apply (st_live a Hst).
  - destruct (fire_step fresh a Hst Hp Hr) as (Hw & Hrate & Hloop & Hi & Hplay).
    rewrite Hl in Hi, Hplay.
    assert (Hplay' : isPlaying (exec fresh TimerFires a) = true)
      by (rewrite Hplay; by destruct (index a <? last_index a)).
    pose proof (exec_steady fresh TimerFires a Hst) as Hst'.
    change (fires fresh (S k) a)
      with (fires fresh k (exec fresh TimerFires a)).
    destruct (IH (exec fresh TimerFires a) Hst' Hplay') as (Hi' & Hgo & Harm).
    + by rewrite Hrate.
    + by rewrite Hloop.
    + split; [|by split]. rewrite Hi', Hw, Hi.
      destruct (st_text a Hst) as [_ _ Hin]. unfold last_index in *.
      set (n := Z.of_nat (length (words a))) in *.
      replace (index a + Z.of_nat (S k)) with ((index a + 1) + Z.of_nat k)
        by lia.
      rewrite <- (Zplus_mod_idemp_l (index a + 1)). f_equal. f_equal.
      destruct (index a <? n - 1) eqn:E.
      * apply Z.ltb_lt in E. rewrite Z.mod_small; lia.
      * apply Z.ltb_ge in E. replace (index a + 1) with n by lia.
        symmetry. apply Z_mod_same_full.
Qed.

End WithTables.

(** "Speed reading works well." at 600 words per minute, first token
    on display. *)
Definition five_words : App :=
  setText 0%nat (js "Speed reading works. Try it!")
    {| words := []; index := 0; currentWord := [SPACE]; totalWords := 0;
       isPlaying := false; timerId := None; wpm := 600;
       profileKey := "normal"; loopEnabled := false; isPdfMode := false;
       pdfLoader := None; loadingOverlay := false |}.

Lemma plays_each_token_once_witness :
  words (fires 0%nat 4 five_words) = words five_words /\
  index (fires 0%nat 4 five_words) = index five_words + Z.of_nat 4 /\
  isPlaying (fires 0%nat 4 five_words) = false /\
  timerId (fires 0%nat 4 five_words) = None.
Proof.
  destruct (plays_each_token_once 0%nat 4 five_words)
    as (Hw & Hi & _ & Hstop).
  - apply setText_steady.
  - vm_compute. reflexivity.
  - vm_compute. reflexivity.
  - vm_compute. reflexivity.
  - vm_compute. discriminate.
  - split; [exact Hw|]. split; [exact Hi|].
    apply Hstop; [lia | vm_compute; reflexivity].
Defined.

Lemma looping_wraps_around_witness :
  index (fires 0%nat 7 (exec 0%nat ToggleLoop five_words))
  = (index (exec 0%nat ToggleLoop five_words) + Z.of_nat 7)
    mod Z.of_nat (length (words (exec 0%nat ToggleLoop five_words))) /\
  isPlaying (fires 0%nat 7 (exec 0%nat ToggleLoop five_words)) = true /\
  timerId (fires 0%nat 7 (exec 0%nat ToggleLoop five_words)) <> None.
Proof.
  apply (looping_wraps_around 0%nat 7 (exec 0%nat ToggleLoop five_words)).
  - apply exec_steady, setText_steady.
  - vm_compute. reflexivity.
  - vm_compute. reflexivity.
  - vm_compute. reflexivity.
Defined.

End ControlsFacts.

(* ================================================================== *)
(** * Properties: the rate a session can hold *)
(* ================================================================== *)

Module RateFacts.
Import Loader Pacing Scheduler Controls PacingFacts PacingBounds ControlsFacts.

(** The value of [loadNum] is positive when the fallback is. *)
Lemma loadNum_positive (stored : option Q) (fallback : Q) :
  Qle_bool fallback 0 = false -> Qle_bool (loadNum stored fallback) 0 = false.
Proof.
  intros Hf. unfold loadNum. destruct stored as [v|]; [|exact Hf].
  by destruct (Qle_bool v 0) eqn:E.
Qed.

Lemma Qle_bool_lt (x : Q) : Qle_bool x 0 = false -> (0 < x)%Q.
Proof.
  intros E. apply Qnot_le_lt. intros Hle. apply Qle_bool_iff in Hle.
  congruence.
Qed.

(** A request that is not positive is clamped to 50. *)
Lemma clamp_not_positive (v : Q) :
  (v <= 0)%Q -> Qmax 50 (Qmin 1500 v) = 50%Q.
Proof.
  intros Hv. unfold Qmax, Qmin.
  assert (E1 : Qle_bool 1500 v = false).
  { destruct (Qle_bool 1500 v) eqn:E; [|reflexivity].
    apply Qle_bool_iff in E.
    assert (Hc : (1500 <= 0)%Q) by (eapply Qle_trans; eassumption).
    exfalso. revert Hc. unfold Qle. simpl. lia. }
  rewrite E1.
  destruct (Qle_bool 50 v) eqn:E; [|reflexivity].
  apply Qle_bool_iff in E.
  assert (Hc : (50 <= 0)%Q) by (eapply Qle_trans; eassumption).
  exfalso. revert Hc. unfold Qle. simpl. lia.
Qed.

(** The base interval at a rate between 50 and 1500. *)
Lemma base_in_range (rate : Q) :
  (50 <= rate)%Q -> (rate <= 1500)%Q ->
  exists base, baseIntervalMs rate = Some base /\ 40 <= base <= 1200.
Proof.
  intros Hlo Hhi. unfold baseIntervalMs.
  rewrite (valid_rate_has_interval rate Hlo).
  eexists; split; [reflexivity|].
  assert (H50 : (0 < 50)%Q) by reflexivity.
  assert (Hr : (0 < rate)%Q) by (eapply Qlt_le_trans; eauto).
  pose proof (base_interval_antitone 50 rate H50 Hlo) as H1.
  pose proof (base_interval_antitone rate 1500 Hr Hhi) as H2.
  change (Z.max 1 (Qfloor (60000 / 50))) with 1200 in H1.
  change (Z.max 1 (Qfloor (60000 / 1500))) with 40 in H2.
  lia.
Qed.

Section WithTables.
Context `{UnicodeTables}.

Lemma setPlaying_rate (fresh : Waiter) (v : bool) (a : App) :
  wpm (fst (setPlaying fresh v a)) = wpm a.
Proof.
  unfold setPlaying. case_match; [|reflexivity].
  by rewrite scheduleNext_keeps_rate.
Qed.

Lemma restartIfPlaying_rate (fresh : Waiter) (a : App) :
  wpm (fst (restartIfPlaying fresh a)) = wpm a.
Proof.
  unfold restartIfPlaying. case_match; [reflexivity|].
  by rewrite scheduleNext_keeps_rate.
Qed.

Lemma timer_fired_rate (fresh : Waiter) (a : App) :
  wpm (fst (timer_fired fresh a)) = wpm a.
Proof.
  unfold timer_fired.
  repeat case_match; rewrite ?scheduleNext_keeps_rate; reflexivity.
Qed.

Lemma applyWpm_rate (fresh : Waiter) (v : Q) (a : App) :
  wpm (fst (applyWpm fresh v a)) = Qmax 50 (Qmin 1500 v).
Proof. unfold applyWpm. by rewrite restartIfPlaying_rate. Qed.

(** Of the handlers only [applyWpm] writes the rate. *)
Lemma exec_rate (fresh : Waiter) (c : Command) (a : App) :
  wpm (exec fresh c a)
  = match c with SetRate v => Qmax 50 (Qmin 1500 v) | _ => wpm a end.
Proof.
  destruct c as [| | | | |v|key| |text]; simpl.
  - apply setPlaying_rate.
  - case_match; [apply timer_fired_rate | reflexivity].
  - unfold resetToStart. by rewrite restartIfPlaying_rate.
  - unfold stepBack. by case_match.
  - unfold stepForward. by case_match.
  - apply applyWpm_rate.
  - unfold setProfile. case_match; [|reflexivity].
    by rewrite restartIfPlaying_rate.
  - reflexivity.
  - unfold setText. by rewrite setPlaying_rate.
Qed.

Lemma clamp_range (v : Q) :
  (50 <= Qmax 50 (Qmin 1500 v))%Q /\ (Qmax 50 (Qmin 1500 v) <= 1500)%Q.
Proof.
  unfold Qmax, Qmin.
  destruct (Qle_bool 1500 v) eqn:E1.
  - split; [|apply Qle_refl]. vm_compute. discriminate.
  - destruct (Qle_bool 50 v) eqn:E2.
    + split; [by apply Qle_bool_iff|].
      apply Qnot_lt_le. intros Hlt. apply Qlt_le_weak in Hlt.
      apply Qle_bool_iff in Hlt. congruence.
    + split; [apply Qle_refl | vm_compute; discriminate].
Qed.

Lemma session_positive (fresh : Waiter) (cs : list Command) (a : App) :
  Qle_bool (wpm a) 0 = false -> Qle_bool (wpm (session fresh cs a)) 0 = false.
Proof.
  revert a. induction cs as [|c cs IH]; intros a Ha; [exact Ha|].
  apply IH. rewrite exec_rate. destruct c; try exact Ha.
  apply valid_rate_has_interval, clamp_range.
Qed.

Lemma session_in_range (fresh : Waiter) (cs : list Command) (a : App) :
  (50 <= wpm a)%Q /\ (wpm a <= 1500)%Q ->
  (50 <= wpm (session fresh cs a))%Q /\ (wpm (session fresh cs a) <= 1500)%Q.
Proof.
  revert a. induction cs as [|c cs IH]; intros a Ha; [exact Ha|].
  apply IH. rewrite exec_rate. destruct c; try exact Ha.
  apply clamp_range.
Qed.

Lemma session_steady (fresh : Waiter) (cs : list Command) (a : App) :
  Steady a -> Steady (session fresh cs a).
Proof.
  revert a. induction cs as [|c cs IH]; intros a Ha; [exact Ha|].
  apply IH. by apply exec_steady.
Qed.

Lemma boot_steady (storedWpm : option Q) (storedProfile : string)
    (storedLoop : bool) (lastText : jsstring) (overlay : bool) :
  Steady (boot storedWpm storedProfile storedLoop lastText overlay).
Proof.
  apply Steady_no_timer; [|reflexivity|discriminate].
  split; [reflexivity|apply tokenize_not_nil|].
  simpl. pose proof (tokenize_not_nil lastText) as Hne.
  unfold last_index. simpl.
  destruct (Tokenizer.tokenize lastText); [done|]. simpl. lia.
Qed.

Lemma startApp_steady (fresh : Waiter) (a : App) :
  Steady a -> Steady (startApp fresh a).
Proof.
  intros Ha. unfold startApp. apply setPlaying_steady.
  apply (st_text _ (exec_steady fresh (SetRate (wpm a)) a Ha)).
Qed.

(** What a state with a positive rate offers the scheduler. *)
Lemma positive_rate_paces (a : App) :
  Steady a -> Qle_bool (wpm a) 0 = false ->
  baseIntervalMs (wpm a) <> None /\
  (forall token, dwellMsForToken (wpm a) (profileKey a) token <> None) /\
  (isPlaying a = true -> timerId a <> None).
Proof.
  intros Hst Hr. split; [|split].
  - unfold baseIntervalMs. by rewrite Hr.
  - intros token. destruct (dwell_defined (wpm a) (profileKey a) token Hr)
      as [ms ->]. discriminate.
  - intros Hp. by apply (st_live a Hst).
Qed.

(** C5, as the code has it.  An invalid rate never takes effect.  The
    rate read from storage is used only when it is a positive finite
    number, and is 300 otherwise; [applyWpm] clamps every number it is
    asked for to between 50 and 1500, so that a request of 0 or less
    sets the rate to 50.  Hence in every state a session reaches, before
    [startApp] has run ([b]) and after it ([a]), the rate is positive
    (after [startApp]: between 50 and 1500, with a base interval between
    40 and 1200 ms), the base interval and the dwell of every token are
    not null, and a scheduler that is playing has its timer armed.
    (The stored profile key is not validated; the dwell is stated to be
    not null only, which holds of the code for every key.) *)
Theorem rate_is_never_invalid (fresh : Waiter) (storedWpm : option Q)
    (storedProfile : string) (storedLoop : bool) (lastText : jsstring)
    (overlay : bool) (pre post : list Command) :
  let b := session fresh pre
             (boot storedWpm storedProfile storedLoop lastText overlay) in
  let a := session fresh post (startApp fresh b) in
  ((0 < wpm b)%Q /\
   baseIntervalMs (wpm b) <> None /\
   (forall token, dwellMsForToken (wpm b) (profileKey b) token <> None) /\
   (isPlaying b = true -> timerId b <> None)) /\
  ((50 <= wpm a)%Q /\ (wpm a <= 1500)%Q /\
   (exists base, baseIntervalMs (wpm a) = Some base /\ 40 <= base <= 1200) /\
   (forall token, dwellMsForToken (wpm a) (profileKey a) token <> None) /\
   (isPlaying a = true -> timerId a <> None)) /\
  (forall v, (v <= 0)%Q -> wpm (exec fresh (SetRate v) a) = 50%Q).
Proof.
  intros b a.
  assert (Hb : Steady b) by apply session_steady, boot_steady.
  assert (Hrb : Qle_bool (wpm b) 0 = false)
    by (apply session_positive; simpl; by apply loadNum_positive).
  assert (Ha : Steady a) by by apply session_steady, startApp_steady.
  assert (Hra : (50 <= wpm a)%Q /\ (wpm a <= 1500)%Q).
  { apply session_in_range. unfold startApp.
    rewrite setPlaying_rate, applyWpm_rate. apply clamp_range. }
  split; [|split].
  - split; [by apply Qle_bool_lt|]. by apply positive_rate_paces.
  - destruct Hra as [Hlo Hhi].
    destruct (positive_rate_paces a Ha (valid_rate_has_interval _ Hlo))
      as (_ & Hd & Hp).
    split; [exact Hlo|]. split; [exact Hhi|].
    split; [by apply base_in_range|]. by split.
  - intros v Hv. rewrite exec_rate. by apply clamp_not_positive.
Qed.

End WithTables.

(** A session that asks twice for the rate 0: from storage and through
    the rate field. *)
Definition zero_rate_session : App :=
  session 0%nat [SetRate 0; TogglePlay]
    (startApp 0%nat (boot (Some 0%Q) "normal" false (js "one two") false)).

(** The same session, in the terms of the theorem. *)
Lemma rate_is_never_invalid_witness :
  (50 <= wpm zero_rate_session)%Q /\
  (wpm zero_rate_session <= 1500)%Q /\
  (isPlaying zero_rate_session = true -> timerId zero_rate_session <> None).
Proof.
  destruct (rate_is_never_invalid 0%nat (Some 0%Q) "normal" false
              (js "one two") false [] [SetRate 0; TogglePlay])
    as (_ & (Hlo & Hhi & _ & _ & Hp) & _).
  split; [exact Hlo|]. split; [exact Hhi | exact Hp].
Defined.

(** The rate 0 is configured twice, and the scheduler plays at 50 words
    per minute: it is not paused, the dwell is not null, and the timer is
    armed. *)
Lemma zero_rate_plays :
  wpm zero_rate_session = 50%Q /\
  isPlaying zero_rate_session = true /\
  baseIntervalMs (wpm zero_rate_session) = Some 1200 /\
  dwellMsForToken (wpm zero_rate_session) (profileKey zero_rate_session)
    (mkToken (js "one") false) = Some 1200 /\
  timerId zero_rate_session = Some 1200.
Proof. vm_compute. repeat split; reflexivity. Qed.

End RateFacts.

(* ================================================================== *)
(** * Properties: what the tokens of a text are made of *)
(* ================================================================== *)

Module ContentFacts.
Import Tokenizer TokenizerFacts WordRunFacts.

Section Content.
Context `{UnicodeTables} `{!UnicodeLaws}.

Local Abbreviation solid := (Forall (fun c => isS c = false)).

(** What one match of the pattern of [tokenizePage] is: not empty,
    without white space, and either led by a letter or a digit or made
    of punctuation only. *)
Record Lexeme (m : jsstring) : Prop := {
  lex_nonempty : m <> [];
  lex_solid : solid m;
  lex_kind : starts_LN m = true \/ Forall (fun c => is_punct c = true) m
}.

Lemma take_while_Forall (p : char -> bool) (s : jsstring) :
  Forall (fun c => p c = true) (take_while p s).
Proof.
  induction s as [|c s IH]; simpl; [constructor|].
  destruct (p c) eqn:E; [by constructor | constructor].
Qed.

Lemma non_space_solid (s : jsstring) :
  Forall (fun c => non_space c = true) s -> solid s.
Proof.
  intros Hs. eapply Forall_impl; [exact Hs|].
  intros c Hc. by apply negb_true_iff in Hc.
Qed.

Lemma starts_LN_app (a b : jsstring) :
  starts_LN a = true -> starts_LN (a ++ b) = true.
Proof. by destruct a. Qed.

Lemma starts_LN_nonempty (a : jsstring) : starts_LN a = true -> a <> [].
Proof. by destruct a. Qed.

Lemma url_tail_match (pre r m : jsstring) :
  solid pre -> starts_LN pre = true -> url_tail pre r = Some m ->
  exists rest, pre ++ r = m ++ rest /\ Lexeme m.
Proof.
  intros Hpre Hstart. unfold url_tail.
  destruct (strip_prefix (js "://") r) as [r'|] eqn:E; [|done].
  apply strip_prefix_app in E. subst r.
  destruct (take_while_prefix non_space r') as [rest Hrest].
  pose proof (take_while_Forall non_space r') as Hrun.
  destruct (take_while non_space r') as [|c run]; [done|].
  intros [= <-]. exists rest. split.
  - rewrite Hrest at 1. by rewrite <- !app_assoc.
  - split.
    + by apply starts_LN_nonempty, starts_LN_app.
    + apply Forall_app_2; [exact Hpre|].
      apply (Forall_app_2 _ (js "://") (c :: run));
        [exact scheme_solid | by apply non_space_solid].
    + left. by apply starts_LN_app.
Qed.

Lemma letter_LN (c : char) : is_ascii_alpha c = true -> isLN c = true.
Proof. intros Hc. unfold isLN. by rewrite (L_ascii_alpha c Hc). Qed.

Lemma match_url_match (s m : jsstring) :
  match_url s = Some m -> exists rest, s = m ++ rest /\ Lexeme m.
Proof.
  unfold match_url.
  destruct (strip_prefix (js "http") s) as [r|] eqn:E; [|done].
  apply strip_prefix_app in E. subst s.
  assert (Hhttp : starts_LN (js "http") = true) by (by apply letter_LN).
  assert (Hhttps : starts_LN (js "https") = true) by (by apply letter_LN).
  assert (Hs : solid (js "https"))
    by (repeat constructor; by apply letter_solid).
  destruct r as [|c r']; [done|].
  destruct (N.eqb c 115) eqn:Ec.
  - apply N.eqb_eq in Ec. subst c.
    destruct (url_tail (js "https") r') as [x|] eqn:E2.
    + intros [= <-].
      exact (url_tail_match (js "https") r' x Hs Hhttps E2).
    + apply url_tail_match; [exact http_solid | exact Hhttp].
  - apply url_tail_match; [exact http_solid | exact Hhttp].
Qed.

Lemma match_www_match (s m : jsstring) :
  match_www s = Some m -> exists rest, s = m ++ rest /\ Lexeme m.
Proof.
  unfold match_www.
  destruct (strip_prefix (js "www.") s) as [r|] eqn:E; [|done].
  apply strip_prefix_app in E. subst s.
  destruct (take_while_prefix non_space r) as [rest Hrest].
  pose proof (take_while_Forall non_space r) as Hrun.
  destruct (take_while non_space r) as [|c run]; [done|].
  intros Hm. replace m with (js "www." ++ c :: run) by congruence.
  exists rest. split.
  - rewrite Hrest at 1. by rewrite <- !app_assoc.
  - assert (Hwww : starts_LN (js "www.") = true) by (by apply letter_LN).
    split.
    + by apply starts_LN_nonempty, starts_LN_app.
    + apply Forall_app_2; [exact www_solid | by apply non_space_solid].
    + left. by apply starts_LN_app.
Qed.

Lemma sep_groups_solid (sep : char) (in_run : bool) (s : jsstring) :
  isS sep = false -> solid (sep_groups sep in_run s).
Proof.
  intros Hsep. revert in_run.
  induction s as [|c s IH]; intros in_run; simpl; [constructor|].
  destruct (in_run && isLN c) eqn:E1.
  - apply andb_true_iff in E1 as [_ Hc].
    constructor; [by apply LN_solid | apply IH].
  - destruct (N.eqb c sep && starts_LN s) eqn:E2; [|constructor].
    apply andb_true_iff in E2 as [Hc _]. apply N.eqb_eq in Hc. subst c.
    constructor; [exact Hsep | apply IH].
Qed.

Lemma match_word_match (s m : jsstring) :
  match_word s = Some m -> exists rest, s = m ++ rest /\ Lexeme m.
Proof.
  unfold match_word.
  destruct (take_while_prefix isLN s) as [r1 Hr1].
  pose proof (take_while_Forall isLN s) as Hrun.
  destruct (take_while isLN s) as [|c run]; [done|]. intros [= <-].
  assert (Hd : drop (S (length run)) s = r1)
    by (rewrite Hr1; apply (drop_app_length (c :: run))).
  rewrite Hd.
  destruct (sep_groups_prefix APOS false r1) as [r2 Hr2].
  pose proof (sep_groups_solid APOS false r1 apos_not_S) as Hg1.
  remember (sep_groups APOS false r1) as g1 eqn:Eg1. clear Eg1.
  assert (Hd2 : drop (length g1) r1 = r2)
    by (rewrite Hr2; apply drop_app_length).
  rewrite Hd2.
  destruct (sep_groups_prefix DOT false r2) as [r3 Hr3].
  pose proof (sep_groups_solid DOT false r2 dot_not_S) as Hg2.
  remember (sep_groups DOT false r2) as g2 eqn:Eg2. clear Eg2.
  exists r3. split.
  - rewrite Hr1, Hr2, Hr3. simpl. by rewrite <- !app_assoc.
  - inversion Hrun as [|? ? Hc Hrest]; subst. split.
    + discriminate.
    + apply (Forall_app_2 _ (c :: run)); [|by apply Forall_app_2].
      eapply Forall_impl; [exact Hrun|]. intros x. apply LN_solid.
    + left. exact Hc.
Qed.

Lemma match_punct_match (s m : jsstring) :
  match_punct s = Some m -> exists rest, s = m ++ rest /\ Lexeme m.
Proof.
  unfold match_punct.
  destruct (take_while_prefix is_punct s) as [rest Hrest].
  pose proof (take_while_Forall is_punct s) as Hrun.
  destruct (take_while is_punct s) as [|c run]; [done|]. intros [= <-].
  exists rest. split; [exact Hrest|]. split.
  - discriminate.
  - eapply Forall_impl; [exact Hrun|]. intros x. apply punct_solid.
  - by right.
Qed.

(** A match is a prefix of the text it is tried on. *)
Lemma re_exec_match (s m : jsstring) :
  re_exec s = Some m -> exists rest, s = m ++ rest /\ Lexeme m.
Proof.
  unfold re_exec.
  destruct (match_url s) as [x|] eqn:E1;
    [intros [= <-]; by apply match_url_match|].
  destruct (match_www s) as [x|] eqn:E2;
    [intros [= <-]; by apply match_www_match|].
  destruct (match_word s) as [x|] eqn:E3;
    [intros [= <-]; by apply match_word_match|].
  apply match_punct_match.
Qed.

(** The pattern fails only in front of white space. *)
Lemma re_exec_none (c : char) (s : jsstring) :
  re_exec (c :: s) = None -> isS c = true.
Proof.
  unfold re_exec.
  destruct (match_url (c :: s)); [done|].
  destruct (match_www (c :: s)); [done|].
  unfold match_word, match_punct, is_punct. simpl.
  destruct (isLN c); [done|]. simpl.
  destruct (isS c); [done|]. done.
Qed.

Lemma filter_solid (s : jsstring) : solid s -> List.filter non_space s = s.
Proof.
  induction 1 as [|c s Hc Hs IH]; [reflexivity|]. simpl.
  unfold non_space at 1. rewrite Hc. simpl. by rewrite IH.
Qed.

(** The matches of a text, put end to end, are the text without its
    white space. *)
Lemma match_all_content (s : jsstring) (skip : nat) :
  solid (take skip s) ->
  concat (match_all skip s) = List.filter non_space (drop skip s).
Proof.
  revert skip. induction s as [|c s IH]; intros skip Hskip.
  - by destruct skip.
  - destruct skip as [|k].
    + simpl. destruct (re_exec (c :: s)) as [m|] eqn:E.
      * destruct (re_exec_match _ _ E) as [rest [Hs [Hne Hsolid _]]].
        destruct m as [|c' m]; [done|]. injection Hs as <- ->.
        simpl. rewrite Nat.sub_0_r.
        rewrite IH by (rewrite take_app_length; by inversion Hsolid).
        rewrite drop_app_length.
        inversion Hsolid as [|? ? Hc Hm]; subst.
        unfold non_space at 2. rewrite Hc. simpl.
        by rewrite List.filter_app, (filter_solid _ Hm).
      * apply re_exec_none in E. unfold non_space at 1. rewrite E. simpl.
        apply (IH 0%nat). constructor.
    + simpl. apply IH. simpl in Hskip. by inversion Hskip.
Qed.

Lemma match_all_lexemes (s : jsstring) (skip : nat) :
  Forall Lexeme (match_all skip s).
Proof.
  revert skip. induction s as [|c s IH]; intros skip; [constructor|].
  destruct skip as [|k]; simpl; [|apply IH].
  destruct (re_exec (c :: s)) as [m|] eqn:E; [|apply IH].
  destruct (re_exec_match _ _ E) as [rest [_ Hm]].
  constructor; [exact Hm | apply IH].
Qed.

(** The second and the third test of [isWordLike] add nothing: a text
    that starts like a URL starts with a letter. *)
Lemma isWordLike_starts (t : jsstring) : isWordLike t = starts_LN t.
Proof.
  unfold isWordLike. destruct (starts_LN t) eqn:E; [reflexivity|].
  destruct t as [|c t]; [reflexivity|]. simpl in E.
  assert (Hci : forall a p, is_ascii_alpha a = true ->
                strip_prefix_ci (a :: p) (c :: t) = None).
  { intros a p Ha. simpl.
    destruct (N.eqb (fold_case a) (fold_case c)) eqn:Ef; [|reflexivity].
    pose proof (fold_case_alpha a c Ha Ef) as Hal.
    apply letter_LN in Hal. congruence. }
  unfold test_url_ci, test_www_ci.
  change (js "http") with (104%N :: js "ttp").
  change (js "www.") with (119%N :: js "ww.").
  by rewrite !Hci.
Qed.

(** The characters of the tokens, in order. *)
Definition content (output : list Token) : jsstring :=
  concat (map word output).

(** The characters [output] will hold once the matches that make up [s]
    have been pushed: an empty [output] first loses what comes before
    the first letter or digit. *)
Definition glue (output : list Token) (s : jsstring) : jsstring :=
  match output with
  | [] => drop_while plain s
  | _ => content output ++ s
  end.

Lemma content_app (a b : list Token) :
  content (a ++ b) = content a ++ content b.
Proof. unfold content. by rewrite map_app, concat_app. Qed.

Lemma glue_nil (output : list Token) : glue output [] = content output.
Proof. destruct output; [reflexivity|]. simpl. by rewrite app_nil_r. Qed.

Lemma glue_filled (output : list Token) (s : jsstring) :
  output <> [] -> glue output s = content output ++ s.
Proof. by destruct output. Qed.

Lemma update_last_filled (f : Token -> Token) (output : list Token) :
  output <> [] -> update_last f output <> [].
Proof.
  destruct output as [|x [|y rest]]; [done| |]; intros _; discriminate.
Qed.

Lemma update_last_content (f : Token -> Token) (t : jsstring)
    (output : list Token) :
  (forall x, word (f x) = word x ++ t) -> output <> [] ->
  content (update_last f output) = content output ++ t.
Proof.
  intros Hf Hne.
  destruct (exists_last Hne) as [init [x ->]].
  rewrite update_last_snoc, !content_app. unfold content. simpl.
  by rewrite Hf, !app_nil_r, app_assoc.
Qed.

Lemma drop_while_plain_app (m s : jsstring) :
  Forall (fun c => is_punct c = true) m ->
  drop_while plain (m ++ s) = drop_while plain s.
Proof.
  induction 1 as [|c m Hc Hm IH]; [reflexivity|]. simpl.
  unfold plain at 1. by rewrite (punct_plain c Hc).
Qed.

Lemma drop_while_plain_word (m s : jsstring) :
  starts_LN m = true -> drop_while plain (m ++ s) = m ++ s.
Proof.
  destruct m as [|c m]; [done|]. simpl. intros Hc.
  unfold plain. by rewrite Hc.
Qed.

Lemma punct_not_word (m : jsstring) :
  Forall (fun c => is_punct c = true) m -> starts_LN m = false.
Proof. destruct 1 as [|c m Hc Hm]; [reflexivity|]. by apply punct_plain. Qed.

(** Pushing one match. *)
Lemma glue_push (output : list Token) (m s : jsstring) :
  Lexeme m -> glue (push_token output m) s = glue output (m ++ s).
Proof.
  intros [Hne Hsolid [Hw|Hp]]; unfold push_token; rewrite isWordLike_starts.
  - rewrite Hw. rewrite glue_filled by (by destruct output).
    rewrite content_app. unfold content at 2. simpl. rewrite app_nil_r.
    destruct output as [|x rest].
    + simpl. by rewrite drop_while_plain_word.
    + simpl. by rewrite <- !app_assoc.
  - rewrite (punct_not_word m Hp).
    destruct output as [|x rest].
    + simpl. by rewrite drop_while_plain_app.
    + rewrite glue_filled by (by apply update_last_filled).
      rewrite (update_last_content _ m) by done.
      simpl. by rewrite <- !app_assoc.
Qed.

Lemma glue_fold (ms : list jsstring) (output : list Token) (s : jsstring) :
  Forall Lexeme ms ->
  glue (fold_left push_token ms output) s = glue output (concat ms ++ s).
Proof.
  intros Hms. revert output.
  induction Hms as [|m ms Hm Hms IH]; intros output; [reflexivity|].
  simpl. rewrite IH, glue_push by exact Hm. by rewrite <- app_assoc.
Qed.

Lemma glue_mark (output : list Token) (s : jsstring) :
  glue (update_last mark_paragraph_end output) s = glue output s.
Proof.
  destruct output as [|x rest]; [reflexivity|].
  rewrite !glue_filled by (done || by apply update_last_filled).
  rewrite (update_last_content _ []) by (done || intros; by rewrite app_nil_r).
  by rewrite app_nil_r.
Qed.

Local Abbreviation squeeze := (List.filter non_space).

Lemma squeeze_cons (c : char) (s : jsstring) :
  squeeze (c :: s) = if non_space c then c :: squeeze s else squeeze s.
Proof. reflexivity. Qed.

Lemma squeeze_space (c : char) (s : jsstring) :
  isS c = true -> squeeze (c :: s) = squeeze s.
Proof. intros Hc. simpl. unfold non_space at 1. by rewrite Hc. Qed.

Lemma squeeze_drop_while (s : jsstring) :
  squeeze (drop_while isS s) = squeeze s.
Proof.
  induction s as [|c s IH]; [reflexivity|]. simpl.
  destruct (isS c) eqn:E; [|reflexivity].
  rewrite IH. unfold non_space at 2. by rewrite E.
Qed.

Lemma squeeze_rev (s : jsstring) : squeeze (rev s) = rev (squeeze s).
Proof.
  induction s as [|c s IH]; [reflexivity|]. simpl.
  rewrite List.filter_app, IH. simpl.
  destruct (non_space c); simpl; by rewrite ?app_nil_r.
Qed.

Lemma squeeze_trim (s : jsstring) : squeeze (trim s) = squeeze s.
Proof.
  unfold trim.
  by rewrite squeeze_rev, squeeze_drop_while, squeeze_rev, rev_involutive,
    squeeze_drop_while.
Qed.

Lemma squeeze_replace_crlf (s : jsstring) :
  squeeze (replace_crlf s) = squeeze s.
Proof.
  induction s as [|c|c d s IHs IHd] using two_step_ind; try reflexivity.
  change (replace_crlf (c :: d :: s))
    with (if N.eqb c CR && N.eqb d LF then LF :: replace_crlf s
          else c :: replace_crlf (d :: s)).
  destruct (N.eqb c CR && N.eqb d LF) eqn:E.
  - apply andb_true_iff in E as [Ec Ed]. reflect_leb. subst c d.
    rewrite !squeeze_space, IHs;
      [reflexivity | exact S_line_feed | exact S_carriage_return
      | exact S_line_feed].
  - change (squeeze (c :: replace_crlf (d :: s)))
      with (if non_space c then c :: squeeze (replace_crlf (d :: s))
            else squeeze (replace_crlf (d :: s))).
    rewrite IHd. reflexivity.
Qed.

Lemma squeeze_replace_cr (s : jsstring) : squeeze (replace_cr s) = squeeze s.
Proof.
  unfold replace_cr. induction s as [|c s IH]; [reflexivity|].
  rewrite map_cons. destruct (N.eqb c CR) eqn:E.
  - reflect_leb. subst c.
    rewrite !squeeze_space;
      [exact IH | exact S_carriage_return | exact S_line_feed].
  - rewrite !squeeze_cons. destruct (non_space c); [f_equal|]; exact IH.
Qed.

Lemma squeeze_collapse_newlines (s : jsstring) (seen : nat) :
  squeeze (collapse_newlines seen s) = squeeze s.
Proof.
  revert seen. induction s as [|c s IH]; intros seen; [reflexivity|].
  simpl collapse_newlines. destruct (N.eqb c LF) eqn:E.
  - reflect_leb. subst c. rewrite (squeeze_space LF s S_line_feed).
    destruct (seen <? 2)%nat; [|apply IH].
    rewrite (squeeze_space LF _ S_line_feed). apply IH.
  - by rewrite !squeeze_cons, IH.
Qed.

Lemma squeeze_normalize (s : jsstring) : squeeze (normalize s) = squeeze s.
Proof.
  unfold normalize.
  by rewrite squeeze_collapse_newlines, squeeze_replace_cr,
    squeeze_replace_crlf.
Qed.

Lemma squeeze_snoc_LF (cur : jsstring) : squeeze (cur ++ [LF]) = squeeze cur.
Proof.
  rewrite List.filter_app, (squeeze_space LF [] S_line_feed).
  apply app_nil_r.
Qed.

Lemma squeeze_split_paragraphs (s cur : jsstring) (in_sep : bool) :
  concat (map squeeze (split_paragraphs_from cur in_sep s))
  = squeeze cur ++ squeeze s.
Proof.
  revert cur in_sep.
  induction s as [|c|c d s IHs IHd] using two_step_ind; intros cur in_sep.
  - simpl. by rewrite !app_nil_r.
  - simpl split_paragraphs_from. destruct (N.eqb c LF) eqn:E.
    + reflect_leb. subst c. rewrite (squeeze_space LF [] S_line_feed).
      destruct in_sep; simpl; by rewrite ?squeeze_snoc_LF, !app_nil_r.
    + simpl. rewrite List.filter_app. simpl. by rewrite !app_nil_r.
  - change (split_paragraphs_from cur in_sep (c :: d :: s))
      with (if N.eqb c LF then
              if in_sep then split_paragraphs_from cur true (d :: s)
              else if N.eqb d LF
                   then cur :: split_paragraphs_from [] true s
                   else split_paragraphs_from (cur ++ [c]) false (d :: s)
            else split_paragraphs_from (cur ++ [c]) false (d :: s)).
    assert (Hsnoc : concat (map squeeze
                      (split_paragraphs_from (cur ++ [c]) false (d :: s)))
                    = squeeze cur ++ squeeze (c :: d :: s)).
    { rewrite IHd, List.filter_app, <- app_assoc.
      change (c :: d :: s) with ([c] ++ d :: s).
      by rewrite (List.filter_app _ [c]). }
    destruct (N.eqb c LF) eqn:Ec; [|exact Hsnoc].
    destruct in_sep.
    + reflect_leb. subst c. rewrite IHd.
      by rewrite (squeeze_space LF (d :: s) S_line_feed).
    + destruct (N.eqb d LF) eqn:Ed; [|exact Hsnoc].
      reflect_leb. subst c d. rewrite map_cons, concat_cons, IHs.
      by rewrite !(squeeze_space LF _ S_line_feed).
Qed.

Lemma glue_paragraph (n p : nat) (output : list Token) (raw s : jsstring) :
  glue (paragraph_step n output p raw) s = glue output (squeeze raw ++ s).
Proof.
  unfold paragraph_step. rewrite <- (squeeze_trim raw).
  destruct (trim raw) as [|c para]; [reflexivity|].
  set (output' := fold_left push_token (str_match (c :: para)) output).
  assert (Hout : glue output' s = glue output (squeeze (c :: para) ++ s)).
  { unfold output', str_match.
    rewrite glue_fold by apply match_all_lexemes.
    by rewrite (match_all_content (c :: para) 0) by constructor. }
  destruct ((0 <? length output')%nat && (p + 1 <? n)%nat);
    [by rewrite glue_mark | exact Hout].
Qed.

Lemma glue_paragraphs (n p : nat) (paragraphs : list jsstring)
    (output : list Token) (s : jsstring) :
  glue (paragraphs_loop n p paragraphs output) s
  = glue output (concat (map squeeze paragraphs) ++ s).
Proof.
  revert p output.
  induction paragraphs as [|raw rest IH]; intros p output; [reflexivity|].
  simpl. rewrite IH, glue_paragraph. by rewrite <- app_assoc.
Qed.

Lemma tokenizePage_content (text : jsstring) :
  content (tokenizePage text) = drop_while plain (squeeze text).
Proof.
  unfold tokenizePage, split_paragraphs.
  rewrite <- glue_nil, glue_paragraphs, squeeze_split_paragraphs.
  simpl. by rewrite app_nil_r, squeeze_normalize.
Qed.

Lemma drop_while_plain_letter (s : jsstring) :
  Exists (fun c => isLN c = true) s -> drop_while plain (squeeze s) <> [].
Proof.
  induction 1 as [c s Hc|c s Hs IH].
  - rewrite squeeze_cons. unfold non_space. rewrite (LN_solid c Hc). simpl.
    unfold plain. by rewrite Hc.
  - rewrite squeeze_cons. destruct (non_space c); [|exact IH]. simpl.
    destruct (plain c); [exact IH | discriminate].
Qed.

(** What every token of a page looks like. *)
Definition shaped (t : Token) : Prop :=
  starts_LN (word t) = true /\ solid (word t).

Lemma update_last_Forall (P : Token -> Prop) (f : Token -> Token)
    (output : list Token) :
  (forall x, P x -> P (f x)) -> Forall P output ->
  Forall P (update_last f output).
Proof.
  intros Hf. induction 1 as [|x rest Hx Hrest IH]; [constructor|].
  destruct rest as [|y rest]; [by repeat constructor; auto|].
  change (update_last f (x :: y :: rest))
    with (x :: update_last f (y :: rest)).
  by constructor.
Qed.

Lemma shaped_push (output : list Token) (m : jsstring) :
  Lexeme m -> Forall shaped output -> Forall shaped (push_token output m).
Proof.
  intros [Hne Hsolid Hkind] Hout. unfold push_token.
  rewrite isWordLike_starts. destruct (starts_LN m) eqn:E.
  - apply Forall_app_2; [exact Hout|]. by repeat constructor.
  - destruct output as [|x rest]; [constructor|].
    apply update_last_Forall; [|exact Hout].
    intros t [Ht1 Ht2]. split; simpl.
    + by apply starts_LN_app.
    + by apply Forall_app_2.
Qed.

Lemma shaped_fold (ms : list jsstring) (output : list Token) :
  Forall Lexeme ms -> Forall shaped output ->
  Forall shaped (fold_left push_token ms output).
Proof.
  intros Hms. revert output.
  induction Hms as [|m ms Hm Hms IH]; intros output Hout; [exact Hout|].
  simpl. by apply IH, shaped_push.
Qed.

Lemma shaped_paragraphs (n p : nat) (paragraphs : list jsstring)
    (output : list Token) :
  Forall shaped output ->
  Forall shaped (paragraphs_loop n p paragraphs output).
Proof.
  revert p output.
  induction paragraphs as [|raw rest IH]; intros p output Hout; [exact Hout|].
  simpl. apply IH. unfold paragraph_step.
  destruct (trim raw) as [|c para]; [exact Hout|].
  set (output' := fold_left push_token (str_match (c :: para)) output).
  assert (Hout' : Forall shaped output')
    by (apply shaped_fold; [apply match_all_lexemes | exact Hout]).
  destruct ((0 <? length output')%nat && (p + 1 <? n)%nat); [|exact Hout'].
  apply update_last_Forall; [|exact Hout']. by intros t Ht.
Qed.

(** X7.  The tokens of a page, put end to end, are the text of the page
    from its first letter or digit on, without the white space: no
    character is lost, added or moved, except the white space and what
    stands before the first letter or digit.  [tokenize] of app.js
    gives the same tokens as soon as the text has a letter or a
    digit. *)
Theorem tokens_keep_the_text (text : jsstring) :
  concat (map word (tokenizePage text))
  = drop_while (fun c => negb (isLN c)) (List.filter non_space text) /\
  (Exists (fun c => isLN c = true) text ->
   tokenizePage text <> [] /\ tokenize text = tokenizePage text).
Proof.
  split; [exact (tokenizePage_content text)|].
  intros Hl.
  assert (Hne : tokenizePage text <> []).
  { intros Hnil. apply (drop_while_plain_letter text Hl).
    rewrite <- tokenizePage_content. by rewrite Hnil. }
  split; [exact Hne|].
  unfold tokenize. unfold tokenizePage in *.
  destruct (paragraphs_loop _ 0 (split_paragraphs (normalize text)) []);
    [by destruct Hne | reflexivity].
Qed.

(** X8.  Every token of a page starts with a letter or a digit and
    holds no white space (so it is never empty).  For a text that has a
    letter or a digit [tokenize] of app.js returns the tokens of
    [tokenizePage], so that its tokens are of this kind as well; for a
    text that has neither, [tokenizePage] returns no token and
    [tokenize] the single blank token. *)
Theorem tokens_are_words (text : jsstring) :
  Forall (fun t => starts_LN (word t) = true
                   /\ Forall (fun c => isS c = false) (word t))
    (tokenizePage text) /\
  (Exists (fun c => isLN c = true) text ->
   tokenize text = tokenizePage text /\
   tokenize text <> [] /\
   Forall (fun t => starts_LN (word t) = true
                    /\ Forall (fun c => isS c = false) (word t))
     (tokenize text)) /\
  (Forall (fun c => isLN c = false) text ->
   tokenizePage text = [] /\
   tokenize text = [mkToken [SPACE] false]).
Proof.
  assert (Hshaped : Forall shaped (tokenizePage text)).
  { unfold tokenizePage. apply shaped_paragraphs. constructor. }
  split; [exact Hshaped|]. split.
  - intros Hl.
    assert (Hne : tokenizePage text <> []).
    { intros Hnil. apply (drop_while_plain_letter text Hl).
      rewrite <- tokenizePage_content. by rewrite Hnil. }
    assert (Heq : tokenize text = tokenizePage text).
    { unfold tokenize. unfold tokenizePage in Hne |- *.
      destruct (paragraphs_loop _ 0 (split_paragraphs (normalize text)) []);
        [by destruct Hne | reflexivity]. }
    rewrite Heq. by split.
  - intros Ht.
    assert (Hp : tokenizePage text = []).
    { apply tokenizePage_plain. eapply Forall_impl; [exact Ht|].
      intros c Hc. unfold plain. by rewrite Hc. }
    split; [exact Hp|].
    unfold tokenizePage in Hp. unfold tokenize. by rewrite Hp.
Qed.

End Content.

Lemma tokens_keep_the_text_witness :
  concat (map word (tokenizePage (js "-- Wait...  (no)")))
  = js "Wait...(no)" /\
  Exists (fun c => isLN c = true) (js "-- Wait...  (no)") /\
  tokenize (js "-- Wait...  (no)") = tokenizePage (js "-- Wait...  (no)").
Proof.
  assert (Hl : Exists (fun c => isLN c = true) (js "-- Wait...  (no)"))
    by (do 3 apply Exists_cons_tl; by apply Exists_cons_hd).
  destruct (tokens_keep_the_text (js "-- Wait...  (no)")) as [Hc Ht].
  split; [exact Hc|]. split; [exact Hl|]. exact (proj2 (Ht Hl)).
Defined.

(** A text with letters, and one without. *)
Lemma tokens_are_words_witness :
  (tokenize (js "see www.example.org, p. 12")
   = tokenizePage (js "see www.example.org, p. 12") /\
   Forall (fun t => starts_LN (word t) = true
                    /\ Forall (fun c => isS c = false) (word t))
     (tokenize (js "see www.example.org, p. 12"))) /\
  tokenizePage (js "?! ... --") = [] /\
  tokenize (js "?! ... --") = [mkToken [SPACE] false].
Proof.
  split.
  - destruct (tokens_are_words (js "see www.example.org, p. 12"))
      as (_ & Hl & _).
    destruct Hl as (He & _ & Hf); [by apply Exists_cons_hd|].
    by split.
  - destruct (tokens_are_words (js "?! ... --")) as (_ & _ & Hn).
    apply Hn. repeat constructor.
Defined.

End ContentFacts.


(* ================================================================== *)
(** * Properties: the text and the tokens of a PDF page *)
(* ================================================================== *)

Module PageTextFacts.
Import Tokenizer TokenizerFacts WordRunFacts ContentFacts PageText.

Lemma separator_cases (c : Cursor) (item : TextItem) :
  separator c item = [] \/ separator c item = [SPACE]
  \/ separator c item = [LF].
Proof.
  unfold separator. destruct (lastY c) as [y|]; [|by left].
  destruct (Qgt_bool _ 5); [by right; right|].
  destruct (lastX c) as [x|]; [|by left].
  destruct (Qgt_bool _ 10); [by right; left | by left].
Qed.

(** A text in which every line feed is followed by another character
    that is no line feed, and with no carriage return: it has no blank
    line and does not end in a line feed. *)
Fixpoint single_spaced (s : jsstring) : Prop :=
  match s with
  | [] => True
  | c :: rest =>
      c <> CR /\
      (c = LF -> match rest with [] => False | d :: _ => d <> LF end) /\
      single_spaced rest
  end.

Definition no_breaks (s : jsstring) : Prop :=
  Forall (fun c => c <> LF /\ c <> CR) s.

Lemma no_breaks_single_spaced (s : jsstring) :
  no_breaks s -> single_spaced s.
Proof.
  induction 1 as [|c s [H1 H2] Hs IH]; [exact I|]. simpl.
  split; [exact H2|]. split; [by intros ->|exact IH].
Qed.

Lemma single_spaced_app (a b : jsstring) :
  single_spaced a -> single_spaced b -> single_spaced (a ++ b).
Proof.
  intros Ha Hb. induction a as [|c a IH]; [exact Hb|].
  destruct Ha as (Hcr & Hlf & Ha). simpl.
  split; [exact Hcr|]. split; [|by apply IH].
  intros Hc. specialize (Hlf Hc). by destruct a.
Qed.

Lemma single_spaced_line (b : jsstring) :
  no_breaks b -> b <> [] -> single_spaced (LF :: b).
Proof.
  intros Hb Hne. simpl. split; [done|].
  split; [|by apply no_breaks_single_spaced].
  intros _. destruct Hb as [|d b [Hd _] _]; [done | exact Hd].
Qed.

(** Between items without a line break no blank line appears, whatever
    their coordinates are. *)
Lemma extract_single_spaced (items : list TextItem) (c : Cursor) :
  Forall (fun item => no_breaks (str item)) items ->
  single_spaced (pageText c) ->
  single_spaced (pageText (fold_left extract_step items c)).
Proof.
  intros Hitems. revert c.
  induction Hitems as [|item items Hitem Hitems IH]; intros c Hc;
    [exact Hc|].
  simpl. apply IH. unfold extract_step.
  destruct (str item) as [|d rest] eqn:E; [exact Hc|].
  cbn [pageText]. apply single_spaced_app; [exact Hc|].
  destruct (separator_cases c item) as [-> | [-> | ->]].
  - by apply no_breaks_single_spaced.
  - apply (no_breaks_single_spaced (SPACE :: d :: rest)).
    constructor; [by split | exact Hitem].
  - by apply single_spaced_line.
Qed.

Section Paragraphs.
Context `{UnicodeTables}.

Lemma single_spaced_no_CR (s : jsstring) :
  single_spaced s -> Forall (fun c => c <> CR) s.
Proof.
  induction s as [|c s IH]; [constructor|].
  intros (Hcr & _ & Hs). constructor; [exact Hcr | by apply IH].
Qed.

Lemma collapse_newlines_single (s : jsstring) (seen : nat) :
  single_spaced s ->
  (seen < 2)%nat \/ match s with [] => True | d :: _ => d <> LF end ->
  collapse_newlines seen s = s.
Proof.
  revert seen. induction s as [|c s IH]; intros seen Hs Hseen;
    [reflexivity|].
  destruct Hs as (_ & Hlf & Hs). simpl.
  destruct (N.eqb c LF) eqn:E.
  - reflect_leb. subst c. destruct Hseen as [Hseen|Hc]; [|done].
    apply Nat.ltb_lt in Hseen. rewrite Hseen. f_equal.
    apply IH; [exact Hs|]. right. specialize (Hlf eq_refl). by destruct s.
  - f_equal. apply IH; [exact Hs|]. left. lia.
Qed.

Lemma normalize_single (s : jsstring) : single_spaced s -> normalize s = s.
Proof.
  intros Hs. unfold normalize.
  rewrite replace_crlf_id, replace_cr_id by (by apply single_spaced_no_CR).
  apply collapse_newlines_single; [exact Hs|]. left. lia.
Qed.

Lemma split_paragraphs_single (s cur : jsstring) :
  single_spaced s -> split_paragraphs_from cur false s = [cur ++ s].
Proof.
  revert cur. induction s as [|c s IH]; intros cur Hs.
  - simpl. by rewrite app_nil_r.
  - destruct Hs as (_ & Hlf & Hs).
    assert (Hgo : split_paragraphs_from (cur ++ [c]) false s
                  = [cur ++ c :: s])
      by (rewrite IH by exact Hs; by rewrite <- app_assoc).
    simpl. destruct (N.eqb c LF) eqn:E; [|exact Hgo].
    reflect_leb. specialize (Hlf E). destruct s as [|d s]; [done|].
    apply N.eqb_neq in Hlf. rewrite Hlf. exact Hgo.
Qed.

Definition unmarked (t : Token) : Prop := isParagraphEnd t = false.

Lemma unmarked_update (t : jsstring) (output : list Token) :
  Forall unmarked output ->
  Forall unmarked (update_last (append_word t) output).
Proof.
  induction 1 as [|x rest Hx Hrest IH]; [constructor|].
  destruct rest as [|y rest]; [by repeat constructor|].
  change (update_last (append_word t) (x :: y :: rest))
    with (x :: update_last (append_word t) (y :: rest)).
  by constructor.
Qed.

Lemma unmarked_fold (ms : list jsstring) (output : list Token) :
  Forall unmarked output -> Forall unmarked (fold_left push_token ms output).
Proof.
  revert output. induction ms as [|m ms IH]; intros output Hout;
    [exact Hout|].
  simpl. apply IH. unfold push_token.
  destruct (isWordLike m).
  - apply Forall_app_2; [exact Hout | by repeat constructor].
  - destruct output as [|x rest]; [constructor|].
    by apply unmarked_update.
Qed.

(** A text without a blank line is one paragraph, and the last
    paragraph is never marked. *)
Lemma tokenizePage_single (text : jsstring) :
  single_spaced text -> Forall unmarked (tokenizePage text).
Proof.
  intros Ht. unfold tokenizePage, split_paragraphs.
  rewrite (normalize_single text Ht), (split_paragraphs_single text [] Ht).
  simpl. unfold paragraph_step.
  destruct (trim text) as [|c para]; [constructor|].
  rewrite andb_false_r. apply unmarked_fold. constructor.
Qed.

(** X9.  No token of a PDF page ends a paragraph: when the text items
    of the page hold no line break themselves, the text [loadPage]
    assembles from them has no blank line, whatever the coordinates of
    the items are, and [tokenizePage] marks no token. *)
Theorem pdf_page_has_no_paragraph_end (items : list TextItem) :
  Forall (fun item => Forall (fun c => c <> LF /\ c <> CR) (str item))
    items ->
  Forall (fun t => isParagraphEnd t = false) (tokenizePage (extract items)).
Proof.
  intros Hitems. apply tokenizePage_single.
  by apply extract_single_spaced.
Qed.

End Paragraphs.

Section Squeezed.
Context `{UnicodeTables} `{!UnicodeLaws}.
Hypothesis S_space : isS SPACE = true.

Local Abbreviation squeeze := (List.filter non_space).

Lemma squeeze_separator (c : Cursor) (item : TextItem) :
  squeeze (separator c item) = [].
Proof.
  destruct (separator_cases c item) as [-> | [-> | ->]]; [reflexivity| |].
  - simpl. unfold non_space. by rewrite S_space.
  - simpl. unfold non_space. by rewrite S_line_feed.
Qed.

Lemma extract_squeezed (items : list TextItem) (c : Cursor) :
  squeeze (pageText (fold_left extract_step items c))
  = squeeze (pageText c) ++ squeeze (concat (map str items)).
Proof.
  revert c. induction items as [|item items IH]; intros c.
  - simpl. by rewrite app_nil_r.
  - simpl. rewrite IH, List.filter_app, app_assoc. f_equal.
    unfold extract_step. destruct (str item) as [|d rest] eqn:E.
    + simpl. by rewrite app_nil_r.
    + cbn [pageText]. by rewrite !List.filter_app, squeeze_separator.
Qed.

(** X10.  The tokens of a PDF page, put end to end, are the characters
    of its text items in the order of the items, from the first letter
    or digit on and without the white space: the line feeds and blanks
    that [loadPage] puts between items never reach a token, and nothing
    of an item is lost or moved. *)
Theorem pdf_tokens_keep_the_items (items : list TextItem) :
  concat (map word (tokenizePage (extract items)))
  = drop_while (fun c => negb (isLN c))
      (List.filter non_space (concat (map str items))).
Proof.
  pose proof (tokenizePage_content (extract items)) as Hc.
  unfold extract in *. rewrite extract_squeezed in Hc. exact Hc.
Qed.

End Squeezed.

(** Three items on two lines: a gap of 13 between the first two, the
    third 14 below. *)
Definition two_lines : list TextItem :=
  [ {| str := js "Speed"; left_edge := 72; baseline := 700; width := 30 |};
    {| str := js "reading"; left_edge := 115; baseline := 700; width := 40 |};
    {| str := js "works."; left_edge := 72; baseline := 686; width := 35 |} ].

Lemma pdf_page_has_no_paragraph_end_witness :
  extract two_lines = js "Speed reading" ++ LF :: js "works." /\
  Forall (fun t => isParagraphEnd t = false)
    (tokenizePage (extract two_lines)).
Proof.
  split; [reflexivity|].
  apply (pdf_page_has_no_paragraph_end two_lines).
  repeat constructor; discriminate.
Defined.

Lemma pdf_tokens_keep_the_items_witness :
  isS SPACE = true /\
  concat (map word (tokenizePage (extract two_lines)))
  = js "Speedreadingworks.".
Proof.
  assert (Hs : isS SPACE = true) by reflexivity.
  split; [exact Hs|].
  exact (pdf_tokens_keep_the_items Hs two_lines).
Defined.

End PageTextFacts.


(* ================================================================== *)
(** * Properties: loading the pages in sequence *)
(* ================================================================== *)

Module StartupFacts.
Import Loader Interleaving AggregateFacts LoaderFacts Startup.

(** Fewer pages are loaded than the document has exactly when a page
    of the document is missing. *)
Lemma size_pages (st : PdfLoader) :
  (forall p, is_Some (loadedPages st !! p) -> 1 <= p <= totalPages st) ->
  (Z.of_nat (size (loadedPages st)) < totalPages st
   <-> exists p, 1 <= p <= totalPages st /\ loadedPages st !! p = None).
Proof.
  intros Hkeys.
  set (all := list_to_set (seqZ 1 (totalPages st)) : gset Z).
  assert (Hall : size all = Z.to_nat (totalPages st)).
  { unfold all. rewrite size_list_to_set by apply NoDup_seqZ.
    apply length_seqZ. }
  assert (Hin : forall p, p ∈ all <-> 1 <= p <= totalPages st).
  { intros p. unfold all. rewrite elem_of_list_to_set, elem_of_seqZ. lia. }
  assert (Hsub : dom (loadedPages st) ⊆ all).
  { intros p Hp. apply Hin, Hkeys. by apply elem_of_dom. }
  rewrite <- size_dom. split.
  - intros Hlt.
    assert (Hdec : forall p, {is_Some (loadedPages st !! p)}
                             + {loadedPages st !! p = None}).
    { intros p. destruct (loadedPages st !! p); [left; by eexists | by right]. }
    destruct (Forall_Exists_dec _ _ Hdec (seqZ 1 (totalPages st)))
      as [Hfull|Hmiss].
    + assert (Hsup : all ⊆ dom (loadedPages st)).
      { intros p Hp. apply elem_of_dom.
        rewrite Forall_forall in Hfull. apply Hfull.
        unfold all in Hp. by apply elem_of_list_to_set in Hp. }
      assert (Heq : size (dom (loadedPages st)) = size all)
        by (apply Nat.le_antisymm; by apply subseteq_size).
      lia.
    + apply Exists_exists in Hmiss as (p & Hp & Hnone).
      exists p. split; [|exact Hnone]. apply elem_of_seqZ in Hp. lia.
  - intros (p & Hp & Hnone).
    assert (Hstrict : dom (loadedPages st) ⊂ all).
    { split; [exact Hsub|]. intros Hall'.
      apply Hin, Hall', elem_of_dom in Hp. rewrite Hnone in Hp.
      by destruct Hp. }
    apply subset_size in Hstrict. lia.
Qed.


Section WithTables.
Context `{UnicodeTables}.

(** The page data and the tokens PDF.js's answer for page [p] gives. *)
Definition page_of (pdf : Z -> Answer) (p : Z) : option PageData :=
  match pdf p with
  | Some (pageText, elapsed) =>
      Some {| text := pageText; words := Tokenizer.tokenizePage pageText;
              loadTime := elapsed |}
  | None => None
  end.

Definition page_tokens (pdf : Z -> Answer) (p : Z) : list Token :=
  match pdf p with
  | Some (pageText, _) => Tokenizer.tokenizePage pageText
  | None => []
  end.

(** The loader holds the pages below [j] that PDF.js answered and no
    other, in order, and fetches nothing. *)
Record Upto (pdf : Z -> Answer) (j : Z) (st : PdfLoader) : Prop := {
  up_pages : forall p, loadedPages st !! p
                       = if decide (1 <= p < j) then page_of pdf p else None;
  up_idle : forall p, p ∉ loadingPages st;
  up_words : allWords st = concat (map (page_tokens pdf) (seqZ 1 (j - 1)));
  up_agg : agg_words (aggregate (loadedPages st)) = allWords st
}.

(** The fields a page load leaves alone. *)
Record Kept (st st' : PdfLoader) : Prop := {
  kept_total : totalPages st' = totalPages st;
  kept_next : nextPageToLoad st' = nextPageToLoad st;
  kept_running : isBackgroundLoading st' = isBackgroundLoading st;
  kept_done : allPagesLoaded st' = allPagesLoaded st
}.

Lemma Kept_refl (st : PdfLoader) : Kept st st.
Proof. by split. Qed.

Lemma Kept_trans (a b c : PdfLoader) : Kept a b -> Kept b c -> Kept a c.
Proof. intros [] []. split; congruence. Qed.

Lemma Upto_initial (pdf : Z -> Answer) (n : Z) : Upto pdf 1 (initial n).
Proof.
  split; simpl.
  - intros p. rewrite lookup_empty. destruct (decide (1 <= p < 1)); [lia|done].
  - intros p. apply not_elem_of_empty.
  - reflexivity.
  - unfold aggregate. by rewrite sortedPages_empty.
Qed.

Lemma seqZ_snoc (j : Z) : 1 <= j -> seqZ 1 j = seqZ 1 (j - 1) ++ [j].
Proof.
  intros Hj. replace j with ((j - 1) + 1) at 1 by lia.
  rewrite seqZ_app by lia. f_equal.
  replace (1 + (j - 1)) with j by lia. reflexivity.
Qed.

Lemma enter_fetches (pdf : Z -> Answer) (j : Z) (st : PdfLoader) :
  Upto pdf j st -> 1 <= j <= totalPages st ->
  loadPage_enter st j
  = (with_loadingPages ({[j]} ∪ loadingPages st) st, Fetches).
Proof.
  intros [Hp Hi _ _] Hj. unfold loadPage_enter.
  replace (j <? 1) with false by (symmetry; apply Z.ltb_ge; lia).
  replace (totalPages st <? j) with false by (symmetry; apply Z.ltb_ge; lia).
  simpl. rewrite Hp. destruct (decide (1 <= j < j)); [lia|].
  by rewrite bool_decide_eq_false_2 by apply Hi.
Qed.

Lemma loaded_upto (pdf : Z -> Answer) (j : Z) (st : PdfLoader)
    (pageText : jsstring) (elapsed : Z) :
  Upto pdf j st -> 1 <= j -> pdf j = Some (pageText, elapsed) ->
  let st' := fst (loadPage_loaded
                    (with_loadingPages ({[j]} ∪ loadingPages st) st)
                    j pageText elapsed) in
  Upto pdf (j + 1) st' /\ Kept st st'.
Proof.
  intros [Hp Hi Hw Ha] Hj Hpdf. unfold loadPage_loaded.
  rewrite resolveWaiters_all. cbn [fst]. split; [|by split].
  set (d := {| text := pageText; words := Tokenizer.tokenizePage pageText;
               loadTime := elapsed |}).
  assert (Hnone : loadedPages st !! j = None).
  { rewrite Hp. destruct (decide (1 <= j < j)); [lia|done]. }
  assert (Hbelow : forall q, is_Some (loadedPages st !! q) -> q < j).
  { intros q [x Hq]. rewrite Hp in Hq.
    destruct (decide (1 <= q < j)); [lia|done]. }
  assert (Hwords : agg_words (aggregate (<[j := d]> (loadedPages st)))
                   = concat (map (page_tokens pdf) (seqZ 1 (j + 1 - 1)))).
  { destruct (aggregate_insert (loadedPages st) j d Hnone) as [_ ->].
    rewrite (tokens_before_last _ _ Hbelow), take_ge, drop_ge, app_nil_r
      by lia.
    replace (j + 1 - 1) with j by lia.
    rewrite (seqZ_snoc j Hj), map_app, concat_app, Ha, Hw. simpl.
    assert (Hj' : page_tokens pdf j = Tokenizer.tokenizePage pageText)
      by (unfold page_tokens; by rewrite Hpdf).
    rewrite Hj'. by rewrite app_nil_r. }
  split; simpl.
  - intros p. destruct (decide (p = j)) as [->|Hne].
    + rewrite lookup_insert_eq. destruct (decide (1 <= j < j + 1)); [|lia].
      unfold page_of. by rewrite Hpdf.
    + rewrite lookup_insert_ne by done. rewrite Hp.
      destruct (decide (1 <= p < j)), (decide (1 <= p < j + 1));
        (done || lia).
  - intros p Hin. apply (Hi p). set_solver.
  - exact Hwords.
  - reflexivity.
Qed.

Lemma failed_upto (pdf : Z -> Answer) (j : Z) (st : PdfLoader) :
  Upto pdf j st -> 1 <= j -> pdf j = None ->
  let st' := loadPage_failed
               (with_loadingPages ({[j]} ∪ loadingPages st) st) j in
  Upto pdf (j + 1) st' /\ Kept st st'.
Proof.
  intros [Hp Hi Hw Ha] Hj Hpdf. split; [|by split]. split; simpl.
  - intros p. rewrite Hp.
    destruct (decide (1 <= p < j)), (decide (1 <= p < j + 1));
      try (done || lia).
    assert (p = j) as -> by lia. unfold page_of. by rewrite Hpdf.
  - intros p Hin. apply (Hi p). set_solver.
  - replace (j + 1 - 1) with j by lia.
    rewrite (seqZ_snoc j Hj), map_app, concat_app, Hw. simpl.
    assert (Hj' : page_tokens pdf j = [])
      by (unfold page_tokens; by rewrite Hpdf).
    rewrite Hj'. by rewrite !app_nil_r.
  - exact Ha.
Qed.

Lemma Upto_below (pdf : Z -> Answer) (j : Z) (st : PdfLoader) :
  j <= 1 -> Upto pdf 1 st -> Upto pdf j st.
Proof.
  intros Hj [Hp Hi Hw Ha]. split; try done.
  - intros p. rewrite Hp.
    destruct (decide (1 <= p < 1)), (decide (1 <= p < j)); (done || lia).
  - rewrite Hw. by rewrite !seqZ_nil by lia.
Qed.

Lemma await_upto (pdf : Z -> Answer) (j : Z) (st : PdfLoader) :
  Upto pdf j st -> 1 <= j <= totalPages st ->
  match await_loadPage pdf st j with
  | (st', Completed) => is_Some (pdf j) /\ Upto pdf (j + 1) st' /\ Kept st st'
  | (st', Failed f) =>
      f = j /\ pdf j = None /\ Upto pdf (j + 1) st' /\ Kept st st'
  | (_, Waiting _) => False
  end.
Proof.
  intros Hup Hj. unfold await_loadPage.
  rewrite (enter_fetches pdf j st Hup Hj).
  destruct (pdf j) as [[pageText elapsed]|] eqn:E.
  - split; [by eexists|].
    apply (loaded_upto pdf j st pageText elapsed Hup); [lia | exact E].
  - split; [reflexivity|]. split; [reflexivity|].
    apply (failed_upto pdf j st Hup); [lia | exact E].
Qed.

(** The loop over [k] pages from [j] on: it loads them as long as
    PDF.js answers and is left by the first error. *)
Lemma load_each_upto (pdf : Z -> Answer) (k : nat) (j : Z) (st : PdfLoader) :
  Upto pdf j st -> 1 <= j -> j + Z.of_nat k - 1 <= totalPages st ->
  match load_each pdf st (seqZ j (Z.of_nat k)) with
  | (st', Completed) =>
      (forall p, j <= p < j + Z.of_nat k -> is_Some (pdf p)) /\
      Upto pdf (j + Z.of_nat k) st' /\ Kept st st'
  | (st', Failed f) =>
      j <= f < j + Z.of_nat k /\ pdf f = None /\
      (forall p, j <= p < f -> is_Some (pdf p)) /\
      Upto pdf (f + 1) st' /\ Kept st st'
  | (_, Waiting _) => False
  end.
Proof.
  revert j st. induction k as [|k IH]; intros j st Hup Hj Hk.
  - simpl. split; [intros p Hp; lia|]. split; [|apply Kept_refl].
    by replace (j + Z.of_nat 0) with j by lia.
  - rewrite seqZ_cons by lia.
    replace (Z.pred (Z.of_nat (S k))) with (Z.of_nat k) by lia.
    cbn [load_each].
    pose proof (await_upto pdf j st Hup ltac:(lia)) as Hone.
    destruct (await_loadPage pdf st j) as [st1 [|f|f]]; [| |done].
    + destruct Hone as (Hans & Hup1 & Hk1).
      specialize (IH (Z.succ j) st1).
      replace (Z.succ j) with (j + 1) in IH by lia.
      specialize (IH Hup1 ltac:(lia)
                    ltac:(rewrite (kept_total _ _ Hk1); lia)).
      replace (Z.succ j) with (j + 1) by lia.
      destruct (load_each pdf st1 (seqZ (j + 1) (Z.of_nat k)))
        as [st2 [|f|f]]; [| |done].
      * destruct IH as (Hall & Hup2 & Hk2). split; [|split].
        -- intros p Hp. destruct (decide (p = j)) as [->|Hne];
             [exact Hans | apply Hall; lia].
        -- by replace (j + Z.of_nat (S k)) with (j + 1 + Z.of_nat k) by lia.
        -- by apply (Kept_trans _ st1).
      * destruct IH as (Hf & Hnone & Hall & Hup2 & Hk2).
        split; [lia|]. split; [exact Hnone|]. split; [|split].
        -- intros p Hp. destruct (decide (p = j)) as [->|Hne];
             [exact Hans | apply Hall; lia].
        -- exact Hup2.
        -- by apply (Kept_trans _ st1).
    + destruct Hone as (-> & Hnone & Hup1 & Hk1).
      split; [lia|]. split; [exact Hnone|]. split; [intros p Hp; lia|].
      by split.
Qed.

Lemma seqZ_to_nat (m n : Z) : seqZ m n = seqZ m (Z.of_nat (Z.to_nat n)).
Proof.
  destruct (decide (0 <= n)); [by rewrite Z2Nat.id|].
  by rewrite !seqZ_nil by lia.
Qed.

(** X11.  [loadInitialPages(count)] on a fresh loader of [n] pages,
    with nothing else running: when PDF.js answers for the first
    [min(count, n)] pages the loader holds exactly these pages, in order,
    the next page to load is the one after them, and background loading
    has not started. *)
Theorem initial_pages_loaded (pdf : Z -> Answer) (n count : Z) :
  0 <= n ->
  (forall p, 1 <= p <= Z.min count n -> is_Some (pdf p)) ->
  exists st,
    loadInitialPages pdf count (initial n) = (st, Completed) /\
    nextPageToLoad st = Z.min count n + 1 /\
    (forall p, loadedPages st !! p
               = if decide (1 <= p <= Z.min count n) then page_of pdf p
                 else None) /\
    allWords st = concat (map (page_tokens pdf) (seqZ 1 (Z.min count n))) /\
    Upto pdf (Z.min count n + 1) st /\
    totalPages st = n /\ isBackgroundLoading st = false /\
    allPagesLoaded st = false.
Proof.
  intros Hn0 Hall. unfold loadInitialPages. cbn [totalPages initial].
  remember (Z.min count n) as m eqn:Em. rewrite (seqZ_to_nat 1 m).
  pose proof (load_each_upto pdf (Z.to_nat m) 1 (initial n)
                (Upto_initial pdf n) ltac:(lia) ltac:(simpl; lia)) as Hloop.
  destruct (load_each pdf (initial n) (seqZ 1 (Z.of_nat (Z.to_nat m))))
    as [st [|f|f]]; [| |done].
  - destruct Hloop as (_ & Hup & [Ht Hn Hr Hd]).
    assert (Hup' : Upto pdf (m + 1) st).
    { destruct (decide (0 <= m)) as [Hm|Hm].
      - by replace (m + 1) with (1 + Z.of_nat (Z.to_nat m)) by lia.
      - apply Upto_below; [lia|].
        by replace 1 with (1 + Z.of_nat (Z.to_nat m)) at 1 by lia. }
    exists (with_nextPageToLoad (m + 1) st).
    split; [reflexivity|]. split; [reflexivity|].
    destruct Hup' as [Hp Hi Hw Ha]. split; [|split; [|split]].
    + intros p. cbn [loadedPages with_nextPageToLoad]. rewrite Hp.
      destruct (decide (1 <= p < m + 1)), (decide (1 <= p <= m));
        (done || lia).
    + cbn [allWords with_nextPageToLoad].
      rewrite Hw, <- (seqZ_to_nat 1 m).
      by replace (m + 1 - 1) with m by lia.
    + by split.
    + by split.
  - destruct Hloop as (Hf & Hnone & _).
    destruct (Hall f ltac:(lia)) as [x Hx]. congruence.
Qed.

(** X12.  When the fetch of one of these pages fails,
    [loadInitialPages] is left by the error: the pages before the
    failed one stay loaded, and [nextPageToLoad] is still 1, so that
    background loading will start again from the first page. *)
Theorem initial_pages_failed (pdf : Z -> Answer) (n count f : Z) :
  0 <= n -> 1 <= f <= Z.min count n -> pdf f = None ->
  (forall p, 1 <= p < f -> is_Some (pdf p)) ->
  exists st,
    loadInitialPages pdf count (initial n) = (st, Failed f) /\
    nextPageToLoad st = 1 /\
    (forall p, loadedPages st !! p
               = if decide (1 <= p < f) then page_of pdf p else None) /\
    allWords st = concat (map (page_tokens pdf) (seqZ 1 (f - 1))) /\
    (forall p, p ∉ loadingPages st).
Proof.
  intros Hn0 Hf Hnone Hbefore. unfold loadInitialPages.
  cbn [totalPages initial].
  remember (Z.min count n) as m eqn:Em. rewrite (seqZ_to_nat 1 m).
  pose proof (load_each_upto pdf (Z.to_nat m) 1 (initial n)
                (Upto_initial pdf n) ltac:(lia) ltac:(simpl; lia)) as Hloop.
  destruct (load_each pdf (initial n) (seqZ 1 (Z.of_nat (Z.to_nat m))))
    as [st [|g|g]]; [| |done].
  - destruct Hloop as (Hall & _).
    destruct (Hall f ltac:(lia)) as [x Hx]. congruence.
  - destruct Hloop as (Hg & Hgnone & Hgall & Hup & [Ht Hn Hr Hd]).
    assert (g = f) as ->.
    { destruct (Z.lt_trichotomy g f) as [Hlt | [Heq | Hgt]]; [|exact Heq|].
      - destruct (Hbefore g ltac:(lia)) as [x Hx]. congruence.
      - destruct (Hgall f ltac:(lia)) as [x Hx]. congruence. }
    exists st. split; [reflexivity|]. split; [exact Hn|].
    destruct Hup as [Hp Hi Hw Ha]. split; [|split].
    + intros p. rewrite Hp.
      destruct (decide (1 <= p < f + 1)), (decide (1 <= p < f));
        try (done || lia).
      assert (p = f) as -> by lia. unfold page_of. by rewrite Hnone.
    + rewrite Hw. replace (f + 1 - 1) with f by lia.
      rewrite (seqZ_snoc f) by lia. rewrite map_app, concat_app. simpl.
      assert (Hf' : page_tokens pdf f = [])
        by (unfold page_tokens; by rewrite Hnone).
      rewrite Hf'. by rewrite !app_nil_r.
    + exact Hi.
Qed.

(** The background cycle is about to load page [j]. *)
Record Cycling (pdf : Z -> Answer) (j : Z) (w : World) : Prop := {
  cy_upto : Upto pdf j (loader w);
  cy_on : isBackgroundLoading (loader w) = true;
  cy_open : allPagesLoaded (loader w) = false;
  cy_next : nextPageToLoad (loader w) = j;
  cy_fetch : fetching w = [];
  cy_timer : cycleTimer w = false;
  cy_quiet : AllPagesLoadedSignalled ∉ trace w
}.

Lemma run_app (w : World) (es1 es2 : list Event) :
  run w (es1 ++ es2)
  = match run w es1 with
    | Some w' => run w' es2
    | None => None
    end.
Proof.
  revert w. induction es1 as [|e es1 IH]; intros w; [reflexivity|].
  simpl. destruct (step w e) as [w1|]; [apply IH | reflexivity].
Qed.

Lemma Upto_next (pdf : Z -> Answer) (j k : Z) (st : PdfLoader) :
  Upto pdf j st -> Upto pdf j (with_nextPageToLoad k st).
Proof. intros []. by split. Qed.

Lemma cycle_enters (pdf : Z -> Answer) (j : Z) (w : World) :
  Cycling pdf j w -> 1 <= j <= totalPages (loader w) ->
  run_cycle w
  = {| loader := with_loadingPages ({[j]} ∪ loadingPages (loader w))
                   (loader w);
       fetching := [(j, Background)]; polling := polling w;
       cycleTimer := false; trace := trace w ++ [FetchStarted j] |}.
Proof.
  intros [Hup Hon Hopen Hnext Hf Ht Hq] Hj.
  unfold run_cycle, loadNextPageInBackground_enter.
  rewrite Hon, Hnext. cbn [negb].
  replace (totalPages (loader w) <? j) with false
    by (symmetry; apply Z.ltb_ge; lia).
  unfold call_loadPage. rewrite (enter_fetches pdf j _ Hup Hj).
  by rewrite Hf, Ht.
Qed.

Lemma cycle_one (pdf : Z -> Answer) (j : Z) (w : World) :
  Cycling pdf j w -> 1 <= j <= totalPages (loader w) ->
  exists w',
    run (run_cycle w) [answer_event pdf j; CycleTimerFires]
    = Some (run_cycle w') /\
    Cycling pdf (j + 1) w' /\
    totalPages (loader w') = totalPages (loader w).
Proof.
  intros Hc Hj. rewrite (cycle_enters pdf j w Hc Hj).
  destruct Hc as [Hup Hon Hopen Hnext Hf Ht Hq].
  unfold answer_event. destruct (pdf j) as [[pageText elapsed]|] eqn:E.
  - destruct (loaded_upto pdf j (loader w) pageText elapsed Hup
                ltac:(lia) E) as [Hup1 [Kt Kn Kr Kd]].
    cbn [run step fetching fetcher loader].
    rewrite bool_decide_eq_true_2 by reflexivity.
    destruct (loadPage_loaded _ j pageText elapsed) as [st2 rel].
    cbn [fst] in *. cbn [remove_first].
    rewrite bool_decide_eq_true_2 by reflexivity.
    cbn [settle trace loader fetching polling cycleTimer].
    eexists. split; [reflexivity|]. split; [|exact Kt].
    split; cbn [loader fetching cycleTimer trace];
      [by apply Upto_next | simpl; congruence | simpl; congruence
      | simpl; lia | reflexivity | reflexivity |].
    rewrite !elem_of_app, list_elem_of_fmap, !list_elem_of_singleton.
    intros [[[Hin|Hin]|(x & Hx & _)]|Hin]; done.
  - destruct (failed_upto pdf j (loader w) Hup ltac:(lia) E)
      as [Hup1 [Kt Kn Kr Kd]].
    cbn [run step fetching fetcher loader].
    rewrite bool_decide_eq_true_2 by reflexivity.
    cbn [remove_first].
    rewrite bool_decide_eq_true_2 by reflexivity.
    cbn [settle trace loader fetching polling cycleTimer].
    eexists. split; [reflexivity|]. split; [|exact Kt].
    split; cbn [loader fetching cycleTimer trace];
      [by apply Upto_next | simpl; congruence | simpl; congruence
      | simpl; lia | reflexivity | reflexivity |].
    rewrite !elem_of_app, !list_elem_of_singleton.
    intros [[[Hin|Hin]|Hin]|Hin]; done.
Qed.

Lemma cycles (pdf : Z -> Answer) (k : nat) (j : Z) (w : World) :
  Cycling pdf j w -> 1 <= j -> j + Z.of_nat k - 1 <= totalPages (loader w) ->
  exists w',
    run (run_cycle w) (cycle_events pdf (seqZ j (Z.of_nat k)))
    = Some (run_cycle w') /\
    Cycling pdf (j + Z.of_nat k) w' /\
    totalPages (loader w') = totalPages (loader w).
Proof.
  revert j w. induction k as [|k IH]; intros j w Hc Hj Hk.
  - exists w. split; [reflexivity|]. split; [|reflexivity].
    by replace (j + Z.of_nat 0) with j by lia.
  - rewrite seqZ_cons by lia.
    replace (Z.pred (Z.of_nat (S k))) with (Z.of_nat k) by lia.
    replace (Z.succ j) with (j + 1) by lia.
    change (cycle_events pdf (j :: seqZ (j + 1) (Z.of_nat k)))
      with ([answer_event pdf j; CycleTimerFires]
            ++ cycle_events pdf (seqZ (j + 1) (Z.of_nat k))).
    rewrite run_app.
    destruct (cycle_one pdf j w Hc ltac:(lia)) as (w1 & -> & Hc1 & Ht1).
    destruct (IH (j + 1) w1 Hc1 ltac:(lia) ltac:(lia))
      as (w2 & Hrun & Hc2 & Ht2).
    exists w2. split; [exact Hrun|]. split; [|congruence].
    by replace (j + Z.of_nat (S k)) with (j + 1 + Z.of_nat k) by lia.
Qed.

(** Background loading from a loader that holds the pages below [j],
    with nothing else running. *)
Lemma background_run (pdf : Z -> Answer) (j : Z)
    (st : PdfLoader) :
  Upto pdf j st -> isBackgroundLoading st = false ->
  allPagesLoaded st = false -> nextPageToLoad st = j ->
  1 <= j <= totalPages st + 1 ->
  exists w,
    run (at_rest st)
      (CallStartBackgroundLoading
       :: cycle_events pdf (seqZ j (totalPages st + 1 - j)))
    = Some w /\
    allPagesLoaded (loader w) = true /\
    isBackgroundLoading (loader w) = false /\
    (forall p, loadedPages (loader w) !! p
               = if decide (1 <= p <= totalPages st) then page_of pdf p
                 else None) /\
    allWords (loader w)
    = concat (map (page_tokens pdf) (seqZ 1 (totalPages st))) /\
    (exists tr, trace w = tr ++ [AllPagesLoadedSignalled]
                /\ AllPagesLoadedSignalled ∉ tr) /\
    fetching w = [] /\ cycleTimer w = false /\
    (forall p, p ∉ loadingPages (loader w)) /\
    totalPages (loader w) = totalPages st.
Proof.
  intros Hup Hoff Hopen Hnext Hj.
  set (w0 := {| loader := with_background true false st;
                fetching := []; polling := []; cycleTimer := false;
                trace := [] |}).
  assert (Hc0 : Cycling pdf j w0).
  { destruct Hup. split; try done. apply not_elem_of_nil. }
  cbn [run step]. unfold startBackgroundLoading. cbn [at_rest loader].
  rewrite Hoff, Hopen. cbn [orb fetching polling cycleTimer trace].
  change (run_cycle _) with (run_cycle w0). rewrite (seqZ_to_nat j).
  destruct (cycles pdf (Z.to_nat (totalPages st + 1 - j)) j w0 Hc0
              ltac:(lia) ltac:(simpl; lia)) as (w1 & -> & Hc1 & Ht1).
  replace (j + Z.of_nat (Z.to_nat (totalPages st + 1 - j)))
    with (totalPages st + 1) in Hc1 by lia.
  simpl in Ht1.
  destruct Hc1 as [[Hp Hi Hw Ha] Hon Hop Hnx Hf Htm Hq].
  unfold run_cycle, loadNextPageInBackground_enter.
  rewrite Hon, Hnx, Ht1. cbn [negb].
  replace (totalPages st <? totalPages st + 1) with true
    by (symmetry; apply Z.ltb_lt; lia).
  eexists. split; [reflexivity|]. cbn [loader trace fetching cycleTimer].
  split; [reflexivity|]. split; [reflexivity|]. split; [|split; [|split]].
  - intros p. cbn [loadedPages with_background]. rewrite Hp.
    destruct (decide (1 <= p < totalPages st + 1)),
      (decide (1 <= p <= totalPages st)); (done || lia).
  - cbn [allWords with_background]. rewrite Hw.
    by replace (totalPages st + 1 - 1) with (totalPages st) by lia.
  - by eexists.
  - split; [exact Hf|]. split; [exact Htm|].
    split; [exact Hi | exact Ht1].
Qed.

(** X13.  Background loading with nothing else running, started on a
    loader that holds the pages below [j]: it goes through the pages
    from [j] to the last one in order, skips the pages whose fetch
    fails, and then stops; the loader then holds exactly the pages
    PDF.js answered, their tokens in the order of the pages, and the
    end of loading has been signalled once, as the last thing. *)
Theorem background_loading_completes (pdf : Z -> Answer) (j : Z)
    (st : PdfLoader) :
  Upto pdf j st -> isBackgroundLoading st = false ->
  allPagesLoaded st = false -> nextPageToLoad st = j ->
  1 <= j <= totalPages st + 1 ->
  exists w,
    run (at_rest st)
      (CallStartBackgroundLoading
       :: cycle_events pdf (seqZ j (totalPages st + 1 - j)))
    = Some w /\
    allPagesLoaded (loader w) = true /\
    isBackgroundLoading (loader w) = false /\
    (forall p, loadedPages (loader w) !! p
               = if decide (1 <= p <= totalPages st) then page_of pdf p
                 else None) /\
    allWords (loader w)
    = concat (map (page_tokens pdf) (seqZ 1 (totalPages st))) /\
    (exists tr, trace w = tr ++ [AllPagesLoadedSignalled]
                /\ AllPagesLoadedSignalled ∉ tr) /\
    fetching w = [] /\ cycleTimer w = false.
Proof.
  intros Hup Hoff Hopen Hnext Hj.
  destruct (background_run pdf j st Hup Hoff Hopen Hnext Hj)
    as (w & H1 & H2 & H3 & H4 & H5 & H6 & H7 & H8 & _).
  exists w. repeat split; assumption.
Qed.

(** X15.  [loadAllPdfPages] of app.js on a fresh loader whose pages
    PDF.js all answers: every page is loaded, in order, the flag
    [allPagesLoaded] is set, the reader is never told to wait, and the
    [startBackgroundLoading] that [applyPdfText] calls next does
    nothing. *)
Theorem all_pages_loaded (pdf : Z -> Answer) (n : Z) :
  0 <= n -> (forall p, 1 <= p <= n -> is_Some (pdf p)) ->
  exists st,
    loadAllPdfPages pdf (initial n) = (st, Completed) /\
    allPagesLoaded st = true /\
    (forall p, loadedPages st !! p
               = if decide (1 <= p <= n) then page_of pdf p else None) /\
    allWords st = concat (map (page_tokens pdf) (seqZ 1 n)) /\
    (forall i, needsMoreContent st i = false) /\
    startBackgroundLoading st = (st, false).
Proof.
  intros Hn Hall. unfold loadAllPdfPages. cbn [totalPages initial].
  pose proof (load_each_upto pdf (Z.to_nat n) 1 (initial n)
                (Upto_initial pdf n) ltac:(lia) ltac:(simpl; lia)) as Hloop.
  rewrite Z2Nat.id in Hloop by lia.
  destruct (load_each pdf (initial n) (seqZ 1 n)) as [st [|f|f]]; [| |done].
  - destruct Hloop as (_ & [Hp Hi Hw Ha] & [Ht Hx Hr Hd]).
    simpl in Ht. eexists. split; [reflexivity|]. split; [reflexivity|].
    assert (Hpages : forall p, loadedPages st !! p
              = if decide (1 <= p <= n) then page_of pdf p else None).
    { intros p. rewrite Hp.
      destruct (decide (1 <= p < 1 + n)), (decide (1 <= p <= n));
        (done || lia). }
    split; [exact Hpages|]. split; [|split].
    + cbn [allWords with_background]. rewrite Hw.
      by replace (1 + n - 1) with n by lia.
    + intros i. unfold needsMoreContent.
      cbn [loadedPages totalPages with_background].
      apply andb_false_iff. left. apply Z.ltb_ge.
      destruct (Z.lt_ge_cases (Z.of_nat (size (loadedPages st)))
                  (totalPages st)) as [Hlt|Hge]; [|lia].
      apply size_pages in Hlt as (p & Hrange & Hnone).
      * rewrite Hpages in Hnone. destruct (decide (1 <= p <= n)); [|lia].
        destruct (Hall p ltac:(lia)) as [[t e] Hx']. unfold page_of in Hnone.
        by rewrite Hx' in Hnone.
      * intros p [d Hd']. rewrite Hpages in Hd'.
        destruct (decide (1 <= p <= n)); [lia | done].
    + unfold startBackgroundLoading. cbn [allPagesLoaded with_background].
      by rewrite orb_true_r.
  - destruct Hloop as (Hf & Hnone & _).
    destruct (Hall f ltac:(lia)) as [x Hx]. congruence.
Qed.

End WithTables.

Section Reachable.
Context `{UnicodeTables}.

(** X14.  After any sequence of events, [needsMoreContent] answers no
    at every position exactly when every page of the document is
    loaded; and as long as one page is missing (not yet loaded, or
    failed for good) it answers yes at every position from the tenth
    token before the end on. *)
Theorem waits_only_for_missing_pages (n : Z) (es : list Event) (w : World) :
  run (start n) es = Some w ->
  ((forall i, needsMoreContent (loader w) i = false) <->
   (forall p, 1 <= p <= totalPages (loader w) ->
              is_Some (loadedPages (loader w) !! p))) /\
  (forall p i, 1 <= p <= totalPages (loader w) ->
               loadedPages (loader w) !! p = None ->
               Z.of_nat (length (allWords (loader w))) - 10 <= i ->
               needsMoreContent (loader w) i = true).
Proof.
  intros Hrun. pose proof (Inv_reachable n es w Hrun) as HI.
  pose proof (size_pages (loader w) (inv_keys w HI)) as Hsize.
  assert (Hmiss : forall p i, 1 <= p <= totalPages (loader w) ->
            loadedPages (loader w) !! p = None ->
            Z.of_nat (length (allWords (loader w))) - 10 <= i ->
            needsMoreContent (loader w) i = true).
  { intros p i Hp Hnone Hi. unfold needsMoreContent.
    apply andb_true_iff. split; [|by apply Z.leb_le].
    apply Z.ltb_lt, Hsize. by exists p. }
  split; [|exact Hmiss]. split.
  - intros Hno p Hp.
    destruct (loadedPages (loader w) !! p) as [d|] eqn:E; [by eexists|].
    specialize (Hmiss p (Z.of_nat (length (allWords (loader w)))) Hp E
                  ltac:(lia)).
    rewrite Hno in Hmiss. discriminate.
  - intros Hall i. unfold needsMoreContent.
    apply andb_false_iff. left. apply Z.ltb_ge.
    destruct (Z.lt_ge_cases (Z.of_nat (size (loadedPages (loader w))))
                (totalPages (loader w))) as [Hlt|Hge]; [|lia].
    apply Hsize in Hlt as (p & Hp & Hnone).
    destruct (Hall p Hp) as [d Hd]. congruence.
Qed.

End Reachable.

(** A document of five pages of which the fourth cannot be read. *)
Definition fourth_unreadable (p : Z) : Answer :=
  if p =? 4 then None else Some (js "Some words.", 12).

Lemma fourth_unreadable_answers (p : Z) :
  p <> 4 -> is_Some (fourth_unreadable p).
Proof.
  intros Hp. unfold fourth_unreadable.
  destruct (p =? 4) eqn:E; [apply Z.eqb_eq in E; lia | by eexists].
Qed.

Lemma initial_pages_loaded_witness :
  exists st,
    loadInitialPages fourth_unreadable 3 (initial 5) = (st, Completed) /\
    nextPageToLoad st = 4.
Proof.
  destruct (initial_pages_loaded fourth_unreadable 5 3 ltac:(lia))
    as (st & Hrun & Hnext & _).
  - intros p Hp. apply fourth_unreadable_answers. lia.
  - exists st. by split.
Defined.

Lemma initial_pages_failed_witness :
  exists st,
    loadInitialPages fourth_unreadable 4 (initial 5) = (st, Failed 4) /\
    nextPageToLoad st = 1.
Proof.
  destruct (initial_pages_failed fourth_unreadable 5 4 4
              ltac:(lia) ltac:(lia) eq_refl)
    as (st & Hrun & Hnext & _).
  - intros p Hp. apply fourth_unreadable_answers. lia.
  - exists st. by split.
Defined.

Lemma background_loading_completes_witness :
  exists w,
    run (at_rest (initial 5))
      (CallStartBackgroundLoading
       :: cycle_events fourth_unreadable (seqZ 1 5)) = Some w /\
    allPagesLoaded (loader w) = true /\
    loadedPages (loader w) !! 4 = None /\
    is_Some (loadedPages (loader w) !! 5).
Proof.
  destruct (background_loading_completes fourth_unreadable 1 (initial 5)
              (Upto_initial fourth_unreadable 5) eq_refl eq_refl eq_refl
              ltac:(simpl; lia))
    as (w & Hrun & Hdone & _ & Hpages & _).
  exists w. split; [exact Hrun|]. split; [exact Hdone|].
  split; [exact (Hpages 4) | rewrite (Hpages 5); by eexists].
Defined.

Lemma waits_only_for_missing_pages_witness :
  exists w,
    run (start 2) [CallLoadPage 0 1; PageArrives 1 (js "one two") 3] = Some w /\
    needsMoreContent (loader w) 1 = true.
Proof.
  eexists. split; [reflexivity|].
  eapply (proj2 (waits_only_for_missing_pages 2
                   [CallLoadPage 0 1; PageArrives 1 (js "one two") 3]
                   _ eq_refl) 2 1); [by vm_compute | reflexivity | by vm_compute].
Defined.

(** Three pages that can all be read. *)
Definition three_pages (p : Z) : Answer := Some (js "Some words.", 12).

Lemma all_pages_loaded_witness :
  exists st,
    loadAllPdfPages three_pages (initial 3) = (st, Completed) /\
    allPagesLoaded st = true /\ needsMoreContent st 5 = false.
Proof.
  destruct (all_pages_loaded three_pages 3 ltac:(lia))
    as (st & Hrun & Hdone & _ & _ & Hno & _).
  - intros p Hp. by eexists.
  - exists st. split; [exact Hrun|]. split; [exact Hdone | apply Hno].
Defined.

End StartupFacts.

(* ================================================================== *)
(** * Properties: the recorded ranges cover the sequence *)
(* ================================================================== *)

Module CoverFacts.
Import Loader Interleaving AggregateFacts LoaderFacts.

(** The page a position of the concatenation falls in. *)
Lemma words_upto_locate (m : gmap Z PageData) (ks : list Z) (i : nat)
    (tok : Token) :
  NoDup ks -> words_upto m ks !! i = Some tok ->
  exists k, k ∈ ks /\ (offset m ks k <= i)%nat /\
            words_of m k !! (i - offset m ks k)%nat = Some tok.
Proof.
  revert i. induction ks as [|x rest IH]; intros i Hnd Hi; [done|].
  apply NoDup_cons in Hnd as [Hx Hnd].
  change (words_upto m (x :: rest))
    with (words_of m x ++ words_upto m rest) in Hi.
  apply lookup_app_Some in Hi as [Hi|[Hlen Hi]].
  - exists x. split; [left|]. simpl.
    rewrite bool_decide_eq_true_2 by done.
    split; [lia|]. by rewrite Nat.sub_0_r.
  - destruct (IH _ Hnd Hi) as (k & Hk & Hoff & Htok).
    exists k. split; [by right|]. simpl.
    rewrite bool_decide_eq_false_2 by (intros ->; done).
    split; [lia|].
    by replace (i - (length (words_of m x) + offset m rest k))%nat
      with (i - length (words_of m x) - offset m rest k)%nat by lia.
Qed.

(** X16.  In every state the loader reaches the recorded ranges cover
    the sequence and nothing else: a page that is not loaded has no
    range, and every position of the sequence lies in the range of a
    loaded page, where it holds the token of that page at the same
    distance from the start of the range. *)
Theorem ranges_cover_the_sequence `{UnicodeTables} (n : Z)
    (es : list Event) (w : World) :
  run (start n) es = Some w ->
  (forall p, loadedPages (loader w) !! p = None ->
             array_get (pageWordRanges (loader w)) (p - 1) = None) /\
  (forall i tok, allWords (loader w) !! i = Some tok ->
     exists p d r,
       loadedPages (loader w) !! p = Some d /\
       array_get (pageWordRanges (loader w)) (p - 1) = Some r /\
       range_start r <= Z.of_nat i <= range_end r /\
       words d !! (i - Z.to_nat (range_start r))%nat = Some tok).
Proof.
  intros Hrun. pose proof (Inv_reachable n es w Hrun) as HI.
  destruct HI as [Hkeys Hwords Hranges _ _ _ _ _].
  set (m := loadedPages (loader w)) in *.
  split.
  - intros p Hp. rewrite Hranges. unfold aggregate.
    rewrite fold_ranges_other.
    + unfold array_get. simpl. by destruct (p - 1 <? 0).
    + rewrite elem_of_sortedPages, Hp. by intros [x Hx].
  - intros i tok Hi. rewrite Hwords, aggregate_words in Hi.
    destruct (words_upto_locate m _ i tok (sortedPages_NoDup m) Hi)
      as (k & Hk & Hoff & Htok).
    apply elem_of_sortedPages in Hk as [d Hd].
    pose proof (Hkeys k ltac:(by eexists)) as Hrange.
    exists k, d. eexists. split; [exact Hd|].
    split; [rewrite Hranges; apply (aggregate_ranges m k d); [lia|exact Hd]|].
    assert (Hwd : words_of m k = words d) by (unfold words_of; by rewrite Hd).
    rewrite Hwd in Htok. pose proof (lookup_lt_Some _ _ _ Htok) as Hlt.
    simpl. rewrite Nat2Z.id. split; [lia | exact Htok].
Qed.

(** Page 3 arrives before page 1; page 2 is never asked for. *)
Definition third_then_first : list Event :=
  [CallLoadPage 0 3; PageArrives 3 (js "gamma delta") 4;
   CallLoadPage 1 1; PageArrives 1 (js "alpha") 2].

Lemma ranges_cover_the_sequence_witness :
  exists w,
    run (start 3) third_then_first = Some w /\
    array_get (pageWordRanges (loader w)) 1 = None /\
    exists p d r,
      loadedPages (loader w) !! p = Some d /\
      array_get (pageWordRanges (loader w)) (p - 1) = Some r /\
      range_start r <= 2 <= range_end r.
Proof.
  pose (w := default (start 3) (run (start 3) third_then_first)).
  assert (Hrun : run (start 3) third_then_first = Some w)
    by (vm_compute; reflexivity).
  exists w. split; [exact Hrun|].
  destruct (ranges_cover_the_sequence 3 third_then_first w Hrun)
    as [Hnone Hsome].
  split; [apply (Hnone 2); vm_compute; reflexivity|].
  destruct (Hsome 2%nat (mkToken (js "delta") false)
              ltac:(vm_compute; reflexivity))
    as (p & d & r & Hd & Hr & Hin & _).
  by exists p, d, r.
Defined.

End CoverFacts.

(* ================================================================== *)
(** * Properties: the end of loading is signalled once *)
(* ================================================================== *)

Module SignalFacts.
Import Loader Interleaving LoaderFacts.

(** How often [onAllPagesLoaded] has been called. *)
Definition signalled (tr : list Obs) : nat :=
  length (omap (fun o => match o with
                         | AllPagesLoadedSignalled => Some tt
                         | _ => None
                         end) tr).

(** The signal has been given at most once, and once it has been given
    [allPagesLoaded] is set and background loading is off. *)
Record Flagged (st : PdfLoader) (tr : list Obs) : Prop := {
  fl_count : (signalled tr <= 1)%nat;
  fl_done : signalled tr = 1%nat ->
            allPagesLoaded st = true /\ isBackgroundLoading st = false
}.

Lemma signalled_app (tr1 tr2 : list Obs) :
  signalled (tr1 ++ tr2) = (signalled tr1 + signalled tr2)%nat.
Proof. unfold signalled. by rewrite omap_app, length_app. Qed.

Lemma signalled_releases (ws : list Waiter) :
  signalled (map WaitReleased ws) = 0%nat.
Proof. induction ws as [|x ws IH]; [reflexivity | exact IH]. Qed.

Lemma Flagged_same (st st' : PdfLoader) (tr : list Obs) :
  isBackgroundLoading st' = isBackgroundLoading st ->
  allPagesLoaded st' = allPagesLoaded st ->
  Flagged st tr -> Flagged st' tr.
Proof. intros Hr Hd [Hc Ho]. split; rewrite ?Hr, ?Hd; assumption. Qed.

Lemma Flagged_snoc (st : PdfLoader) (tr : list Obs) (o : Obs) :
  o <> AllPagesLoadedSignalled -> Flagged st tr -> Flagged st (tr ++ [o]).
Proof.
  intros Ho [Hc Hoff].
  assert (Hs : signalled (tr ++ [o]) = signalled tr).
  { rewrite signalled_app. destruct o; (done || simpl; lia). }
  split; rewrite Hs; assumption.
Qed.

Lemma Flagged_releases (st : PdfLoader) (tr : list Obs) (ws : list Waiter) :
  Flagged st tr -> Flagged st (tr ++ map WaitReleased ws).
Proof.
  intros [Hc Hoff].
  assert (Hs : signalled (tr ++ map WaitReleased ws) = signalled tr)
    by (rewrite signalled_app, signalled_releases; lia).
  split; rewrite Hs; assumption.
Qed.

Lemma Flagged_settle (w : World) (c : Caller) (p : Z) (o : Outcome) :
  Flagged (loader w) (trace w) ->
  Flagged (loader (settle w c p o)) (trace (settle w c p o)).
Proof.
  intros Hf. destruct c; simpl; apply Flagged_snoc; try done.
  by apply (Flagged_same (loader w)).
Qed.

Lemma Flagged_call_loadPage (w : World) (c : Caller) (p : Z) :
  Flagged (loader w) (trace w) ->
  Flagged (loader (call_loadPage w c p)) (trace (call_loadPage w c p)).
Proof.
  intros Hf. unfold call_loadPage, loadPage_enter.
  destruct ((p <? 1) || (totalPages (loader w) <? p));
    [by apply Flagged_settle|].
  destruct (loadedPages (loader w) !! p); [by apply Flagged_settle|].
  destruct (bool_decide (p ∈ loadingPages (loader w))); simpl; [exact Hf|].
  apply Flagged_snoc; [done|]. by apply (Flagged_same (loader w)).
Qed.

(** The cycle signals only while background loading is on, that is,
    before any signal. *)
Lemma Flagged_run_cycle (w : World) :
  Flagged (loader w) (trace w) ->
  Flagged (loader (run_cycle w)) (trace (run_cycle w)).
Proof.
  intros Hf. unfold run_cycle, loadNextPageInBackground_enter.
  destruct (isBackgroundLoading (loader w)) eqn:Hon; simpl; [|exact Hf].
  destruct (totalPages (loader w) <? nextPageToLoad (loader w)).
  - destruct Hf as [Hc Hoff].
    assert (Hzero : signalled (trace w) = 0%nat).
    { destruct (signalled (trace w)) as [|[|k]]; [reflexivity| |lia].
      destruct (Hoff eq_refl) as [_ Hbg]. congruence. }
    split; cbn [loader trace]; rewrite signalled_app, Hzero;
      [unfold signalled; simpl; lia | intros _; by split].
  - by apply Flagged_call_loadPage.
Qed.

Section WithTables.
Context `{UnicodeTables}.

Lemma Flagged_step (w w' : World) (e : Event) :
  Flagged (loader w) (trace w) -> step w e = Some w' ->
  Flagged (loader w') (trace w').
Proof.
  intros Hf Hstep.
  destruct e as [id p|p txt el|p|c p|x| | |]; simpl in Hstep.
  - injection Hstep as <-. by apply Flagged_call_loadPage.
  - destruct (fetcher p (fetching w)) as [c|]; [|done].
    unfold loadPage_loaded in Hstep. rewrite resolveWaiters_all in Hstep.
    injection Hstep as <-. apply Flagged_settle. simpl.
    apply Flagged_releases. by apply (Flagged_same (loader w)).
  - destruct (fetcher p (fetching w)) as [c|]; [|done].
    injection Hstep as <-. apply Flagged_settle. simpl.
    apply Flagged_snoc; [done|]. by apply (Flagged_same (loader w)).
  - destruct (bool_decide ((p, c) ∈ polling w)); [|done].
    destruct (poll (loader w) p) as [t|].
    + injection Hstep as <-. by apply Flagged_settle.
    + by injection Hstep as <-.
  - unfold waitForContent in Hstep.
    destruct ((0 <? size (loadingPages (loader w)))%nat
              || isBackgroundLoading (loader w));
      injection Hstep as <-; simpl; apply Flagged_snoc; try done.
    by apply (Flagged_same (loader w)).
  - unfold startBackgroundLoading in Hstep.
    destruct (isBackgroundLoading (loader w)) eqn:Hon; simpl in Hstep.
    + by injection Hstep as <-.
    + destruct (allPagesLoaded (loader w)) eqn:Hd; simpl in Hstep.
      * by injection Hstep as <-.
      * injection Hstep as <-. apply Flagged_run_cycle. simpl.
        destruct Hf as [Hc Hoff]. split; simpl; [exact Hc|].
        intros Hone. destruct (Hoff Hone) as [Hd' _]. congruence.
  - destruct (cycleTimer w); [|done]. injection Hstep as <-.
    by apply Flagged_run_cycle.
  - injection Hstep as <-. simpl. destruct Hf as [Hc Hoff].
    split; simpl; [exact Hc|]. intros Hone.
    destruct (Hoff Hone) as [_ Hbg]. by split.
Qed.

Lemma Flagged_run (es : list Event) (w w' : World) :
  Flagged (loader w) (trace w) -> run w es = Some w' ->
  Flagged (loader w') (trace w').
Proof.
  revert w. induction es as [|e es IH]; intros w Hf Hrun; simpl in Hrun.
  - by injection Hrun as <-.
  - destruct (step w e) as [w1|] eqn:Hs; [|done].
    eapply IH; [|exact Hrun]. eapply Flagged_step; eauto.
Qed.

(** X17.  Whatever is interleaved with the background cycle, the write
    of [allPagesLoaded] by [loadAllPdfPages] included, the end of
    loading is signalled at most once; once it has been signalled
    [allPagesLoaded] is set and background loading is off; and with
    [allPagesLoaded] set, however it was set, [startBackgroundLoading]
    changes nothing. *)
Theorem end_of_loading_signalled_once (n : Z) (es : list Event) (w : World) :
  run (start n) es = Some w ->
  (signalled (trace w) <= 1)%nat /\
  (signalled (trace w) = 1%nat ->
   allPagesLoaded (loader w) = true /\
   isBackgroundLoading (loader w) = false) /\
  (allPagesLoaded (loader w) = true ->
   startBackgroundLoading (loader w) = (loader w, false) /\
   forall w', step w CallStartBackgroundLoading = Some w' ->
              signalled (trace w') = signalled (trace w)).
Proof.
  intros Hrun.
  assert (Hf : Flagged (loader w) (trace w)).
  { eapply Flagged_run; [|exact Hrun].
    split; [unfold signalled; simpl; lia | intros Hz; discriminate Hz]. }
  destruct Hf as [Hc Hoff].
  split; [exact Hc|]. split; [exact Hoff|].
  intros Hd.
  assert (Hs : startBackgroundLoading (loader w) = (loader w, false))
    by (unfold startBackgroundLoading; by rewrite Hd, orb_true_r).
  split; [exact Hs|].
  intros w' Hstep. simpl in Hstep. rewrite Hs in Hstep.
  by injection Hstep as <-.
Qed.

End WithTables.

(** Background loading of a single page, to its end, and a second
    [startBackgroundLoading]. *)
Definition loaded_then_restarted : list Event :=
  [CallStartBackgroundLoading; PageArrives 1 (js "all") 3;
   CycleTimerFires; CallStartBackgroundLoading].

Lemma end_of_loading_signalled_once_witness :
  exists w,
    run (start 1) loaded_then_restarted = Some w /\
    signalled (trace w) = 1%nat /\
    allPagesLoaded (loader w) = true /\
    isBackgroundLoading (loader w) = false.
Proof.
  pose (w := default (start 1) (run (start 1) loaded_then_restarted)).
  assert (Hrun : run (start 1) loaded_then_restarted = Some w)
    by (vm_compute; reflexivity).
  assert (Hone : signalled (trace w) = 1%nat) by (vm_compute; reflexivity).
  exists w. split; [exact Hrun|]. split; [exact Hone|].
  exact (proj1 (proj2 (end_of_loading_signalled_once 1 _ w Hrun)) Hone).
Defined.

(** After [loadAllPdfPages] the flag is set and no signal was given, nor
    is one given by the [startBackgroundLoading] of [applyPdfText]. *)
Remark flag_set_without_signal :
  exists w,
    run (start 1) [CallLoadPage 0 1; PageArrives 1 (js "all") 3;
                   AllPagesLoadedSet; CallStartBackgroundLoading] = Some w /\
    allPagesLoaded (loader w) = true /\ signalled (trace w) = 0%nat.
Proof. eexists. vm_compute. repeat split; reflexivity. Qed.

End SignalFacts.

